(** * Weighted round-robin task scheduler

    A shallow embedding of [common/task/weightedRoundRobinTaskScheduler.go]
    and the properties of its construction, lifecycle, submission path and
    dispatch round.

    Go values are modelled as follows.  An [int] is a [Z].  A channel is a
    record of its buffer, its capacity and its closed flag, with the
    readiness rules of the Go runtime written out.  A [select] statement is
    the list of its ready cases, from which the runtime picks one; the pick
    is an explicit argument (an oracle), so the pseudo-random choice of the
    runtime is any choice.  A runtime panic is a result of its own.  [make]
    of a channel follows [makechan] of the runtime, over the constants of
    the platform and a heap that may refuse a buffer.  Calls to the
    collaborators (Processor, logger, metrics, the task's [Nack]) are
    recorded in an event trace. *)

From Stdlib Require Import ZArith Lia Bool String.
From stdpp Require Import base list.

Local Open Scope Z_scope.

(** ** Go runtime primitives *)

Module Go.

(** The runtime panics of this program, and the fatal error of the
    allocator, which stops the program as an unrecovered panic does. *)
Inductive panic : Type :=
| IndexOutOfRange
| MakechanSizeOutOfRange
| CloseOfClosedChannel
| SendOnClosedChannel
| NilDereference
| OutOfMemory.

(** What a call does: it returns, it parks the calling goroutine, or it
    panics. *)
Inductive outcome (A : Type) : Type :=
| Returns (a : A)
| Blocks
| Panics (p : panic).
Arguments Returns {A} a.
Arguments Blocks {A}.
Arguments Panics {A} p.

(** [errors.New(msg)]. *)
Inductive error : Type := errors_New (msg : string).

(** [l[i]] on a slice: a panic (here [None]) outside [0, len(l)). *)
Definition index {A : Type} (l : list A) (i : Z) : option A :=
  if i <? 0 then None else l !! Z.to_nat i.

(** [l[i] = x], for an index already known to be in range. *)
Definition store {A : Type} (l : list A) (i : Z) (x : A) : list A :=
  <[Z.to_nat i := x]> l.

Definition len {A : Type} (l : list A) : Z := Z.of_nat (length l).

(** A channel: the buffered elements, oldest first, the capacity given to
    [make], and whether [close] was called. *)
Record chan (A : Type) : Type := MkChan {
  buf : list A;
  cap : Z;
  closed : bool
}.
Arguments MkChan {A} buf cap closed.
Arguments buf {A} c.
Arguments cap {A} c.
Arguments closed {A} c.

(** The runtime that [make] runs on: the size of a pointer in bytes, the
    largest allocation [maxAlloc] and the size [hchanSize] of a channel
    header, which are constants of the platform, and the allocator.
    [mallocgc n h] is the heap after a block of [n] bytes was taken from the
    heap [h], or [None] when the heap cannot supply the block, on which the
    runtime stops the program (fatal error: out of memory).  A pointer has
    a size and a channel header fits in an allocation. *)
Class Runtime : Type := {
  PtrSize : Z;
  maxAlloc : Z;
  hchanSize : Z;
  heap : Type;
  mallocgc : Z -> heap -> option heap;
  PtrSize_pos : 0 < PtrSize;
  hchanSize_maxAlloc : hchanSize <= maxAlloc
}.

(** [make(chan A, size)], as [makechan] of the runtime has it, for an
    element type of [elemsize] bytes.  The buffer takes
    [mem = elemsize * size] bytes; the runtime panics on a negative size,
    when the product overflows a [uintptr], and when the buffer is larger
    than [maxAlloc - hchanSize].  Otherwise the header is allocated and,
    unless it is empty, the buffer; the element types of this program are
    empty or hold pointers, so the buffer is a block of its own.  The
    header, as every block whose size the program fixes, is taken to be
    available; the buffer, whose size the caller chooses, is asked of the
    heap. *)
Definition make_chan `{Runtime} {A : Type} (elemsize size : Z) (h : heap)
    : outcome (chan A * heap) :=
  let mem := elemsize * size in
  if (size <? 0) || (2 ^ (8 * PtrSize) <=? mem)
     || (maxAlloc - hchanSize <? mem)
  then Panics MakechanSizeOutOfRange
  else if mem =? 0 then Returns (MkChan [] size false, h)
  else
    match mallocgc mem h with
    | Some h' => Returns (MkChan [] size false, h')
    | None => Panics OutOfMemory
    end.

(** A send can proceed when the buffer has room (no receiver is ever
    parked on the channels of this program) or when the channel is
    closed, in which case proceeding means panicking. *)
Definition send_ready {A : Type} (c : chan A) : bool :=
  closed c || (len (buf c) <? cap c).

Definition send {A : Type} (c : chan A) (x : A) : outcome (chan A) :=
  if closed c then Panics SendOnClosedChannel
  else Returns (MkChan (buf c ++ [x]) (cap c) (closed c)).

(** A receive can proceed when an element is buffered or the channel is
    closed. *)
Definition recv_ready {A : Type} (c : chan A) : bool :=
  match buf c with
  | [] => closed c
  | _ :: _ => true
  end.

(** The received element ([None] is the zero value read from a closed,
    drained channel) and the channel afterwards. *)
Definition recv {A : Type} (c : chan A) : option A * chan A :=
  match buf c with
  | [] => (None, c)
  | x :: rest => (Some x, MkChan rest (cap c) (closed c))
  end.

Definition close {A : Type} (c : chan A) : outcome (chan A) :=
  if closed c then Panics CloseOfClosedChannel
  else Returns (MkChan (buf c) (cap c) true).

(** A communication case of a [select], listed only when it is ready. *)
Definition when {C : Type} (ready : bool) (c : C) : list C :=
  if ready then [c] else [].

(** [select]: with no ready case the default case runs, or the goroutine
    parks when there is none ([None]); otherwise one ready case is chosen,
    by the runtime's pick. *)
Definition select {C : Type} (ready : list C) (default : option C)
    (pick : nat) : option C :=
  match ready with
  | [] => default
  | _ :: _ => ready !! (pick mod length ready)%nat
  end.

End Go.

Import Go.

(** ** Collaborators *)

(** [PriorityTask]: the scheduler uses its [Priority()] and its [Nack()];
    [task_id] tells tasks apart in the trace. *)
Record PriorityTask : Type := MkTask {
  task_id : nat;
  Priority : Z
}.

(** Modelled from the spec: the constants [common.DaemonStatusInitialized],
    [common.DaemonStatusStarted] and [common.DaemonStatusStopped] are
    declared outside this file; the spec gives the status as the enumeration
    {Initialized, Started, Stopped}. *)
Inductive DaemonStatus : Type :=
| DaemonStatusInitialized
| DaemonStatusStarted
| DaemonStatusStopped.

Definition DaemonStatus_eqb (a b : DaemonStatus) : bool :=
  match a, b with
  | DaemonStatusInitialized, DaemonStatusInitialized => true
  | DaemonStatusStarted, DaemonStatusStarted => true
  | DaemonStatusStopped, DaemonStatusStopped => true
  | _, _ => false
  end.

(** [atomic.CompareAndSwapInt32(&addr, old, new)]: whether it swapped, and
    the value afterwards. *)
Definition CompareAndSwapInt32 (addr old new : DaemonStatus)
    : bool * DaemonStatus :=
  if DaemonStatus_eqb addr old then (true, new) else (false, addr).

Inductive metric : Type :=
| PriorityTaskSubmitRequest
| PriorityTaskSubmitLatency.

(** The calls the scheduler makes on its collaborators, in program order. *)
Inductive event : Type :=
| EvProcessorStart
| EvProcessorStop
| EvProcessorSubmit (t : PriorityTask) (err : option error)
| EvGoDispatcher
| EvNack (t : PriorityTask)
| EvLogInfo (msg : string)
| EvLogWarn (msg : string)
| EvLogError (msg : string) (err : error)
| EvIncCounter (m : metric)
| EvStartTimer (m : metric)
| EvStopTimer (m : metric).

Record ParallelTaskProcessorOptions (RetryPolicy : Type) : Type :=
  MkProcessorOptions {
    pQueueSize : Z;
    pWorkerCount : Z;
    pRetryPolicy : RetryPolicy
  }.
Arguments MkProcessorOptions {RetryPolicy} _ _ _.

(** The [Processor] interface, over the processor's own state [PS]; its
    implementation ([NewParallelTaskProcessor]) is outside this file. *)
Class Processor (RetryPolicy PS : Type) : Type := {
  NewParallelTaskProcessor : ParallelTaskProcessorOptions RetryPolicy -> PS;
  processor_Start : PS -> PS;
  processor_Stop : PS -> PS;
  processor_Submit : PS -> PriorityTask -> PS * option error
}.

(** ** The scheduler *)

Record WeightedRoundRobinTaskSchedulerOptions (RetryPolicy : Type) : Type :=
  MkOptions {
    Weights : list Z;
    QueueSize : Z;
    WorkerCount : Z;
    RetryPolicy_ : RetryPolicy
  }.
Arguments MkOptions {RetryPolicy} _ _ _ _.
Arguments Weights {RetryPolicy} _.
Arguments QueueSize {RetryPolicy} _.
Arguments WorkerCount {RetryPolicy} _.
Arguments RetryPolicy_ {RetryPolicy} _.

(** The dispatcher goroutine: not spawned yet, at the top of its loop with
    its local [outstandingTasks], or returned. *)
Inductive goroutine : Type :=
| NotSpawned
| AtLoopTop (outstandingTasks : bool)
| Returned.

(** [weightedRoundRobinTaskSchedulerImpl].  The last two fields are not
    fields of the Go struct: [dispatcherG] is the goroutine that [Start]
    spawns and [events] is the trace of collaborator calls (the logger and
    the metrics scope are sinks of that trace). *)
Record weightedRoundRobinTaskSchedulerImpl (RetryPolicy PS : Type) : Type :=
  MkImpl {
    status : DaemonStatus;
    numQueues : Z;
    taskChs : list (chan PriorityTask);
    shutdownCh : chan unit;
    notifyCh : chan unit;
    dispatcherWG : Z;
    options : WeightedRoundRobinTaskSchedulerOptions RetryPolicy;
    processor : PS;
    dispatcherG : goroutine;
    events : list event
  }.
Arguments MkImpl {RetryPolicy PS} _ _ _ _ _ _ _ _ _ _.
Arguments status {RetryPolicy PS} _.
Arguments numQueues {RetryPolicy PS} _.
Arguments taskChs {RetryPolicy PS} _.
Arguments shutdownCh {RetryPolicy PS} _.
Arguments notifyCh {RetryPolicy PS} _.
Arguments dispatcherWG {RetryPolicy PS} _.
Arguments options {RetryPolicy PS} _.
Arguments processor {RetryPolicy PS} _.
Arguments dispatcherG {RetryPolicy PS} _.
Arguments events {RetryPolicy PS} _.

Definition wRRTaskProcessorQueueSize : Z := 1.

Definition ErrTaskSchedulerClosed : error :=
  errors_New "task scheduler has already shutdown".

Definition ErrWeightNotSpecified : error :=
  errors_New "weight is not specified in the scheduler option".

Definition ErrPriorityExceedsLimit : error :=
  errors_New "task priority exceeds limit".

Section Scheduler.

Context {RetryPolicy PS : Type} `{!Processor RetryPolicy PS} `{!Runtime}.

Local Abbreviation impl := (weightedRoundRobinTaskSchedulerImpl RetryPolicy PS).
Local Abbreviation Options := (WeightedRoundRobinTaskSchedulerOptions RetryPolicy).

(** Field updates. *)
Definition with_status (w : impl) (x : DaemonStatus) : impl :=
  MkImpl x (numQueues w) (taskChs w) (shutdownCh w) (notifyCh w)
    (dispatcherWG w) (options w) (processor w) (dispatcherG w) (events w).
Definition with_taskChs (w : impl) (x : list (chan PriorityTask)) : impl :=
  MkImpl (status w) (numQueues w) x (shutdownCh w) (notifyCh w)
    (dispatcherWG w) (options w) (processor w) (dispatcherG w) (events w).
Definition with_shutdownCh (w : impl) (x : chan unit) : impl :=
  MkImpl (status w) (numQueues w) (taskChs w) x (notifyCh w)
    (dispatcherWG w) (options w) (processor w) (dispatcherG w) (events w).
Definition with_notifyCh (w : impl) (x : chan unit) : impl :=
  MkImpl (status w) (numQueues w) (taskChs w) (shutdownCh w) x
    (dispatcherWG w) (options w) (processor w) (dispatcherG w) (events w).
Definition with_dispatcherWG (w : impl) (x : Z) : impl :=
  MkImpl (status w) (numQueues w) (taskChs w) (shutdownCh w) (notifyCh w)
    x (options w) (processor w) (dispatcherG w) (events w).
Definition with_processor (w : impl) (x : PS) : impl :=
  MkImpl (status w) (numQueues w) (taskChs w) (shutdownCh w) (notifyCh w)
    (dispatcherWG w) (options w) x (dispatcherG w) (events w).
Definition with_dispatcherG (w : impl) (x : goroutine) : impl :=
  MkImpl (status w) (numQueues w) (taskChs w) (shutdownCh w) (notifyCh w)
    (dispatcherWG w) (options w) (processor w) x (events w).
Definition emit (w : impl) (e : event) : impl :=
  MkImpl (status w) (numQueues w) (taskChs w) (shutdownCh w) (notifyCh w)
    (dispatcherWG w) (options w) (processor w) (dispatcherG w)
    (events w ++ [e]).

(** *** NewWeightedRoundRobinTaskScheduler *)

(** [unsafe.Sizeof] of the element types of the channels: [struct{}] is
    empty and [PriorityTask], an interface, is two words. *)
Definition struct_size : Z := 0.
Definition PriorityTask_size : Z := 2 * PtrSize.

(** [for i := 0; i < numPriorities; i++ { taskChs[i] = make(chan PriorityTask, QueueSize) }],
    over the slice of [numPriorities] slots that [make] allocated: every
    slot is assigned, in ascending order. *)
Fixpoint make_taskChs (numPriorities : nat) (queueSize : Z) (h : heap)
    : outcome (list (chan PriorityTask) * heap) :=
  match numPriorities with
  | O => Returns ([], h)
  | S n =>
      match make_chan PriorityTask_size queueSize h with
      | Returns (c, h) =>
          match make_taskChs n queueSize h with
          | Returns (cs, h) => Returns (c :: cs, h)
          | Blocks => Blocks
          | Panics p => Panics p
          end
      | Blocks => Blocks
      | Panics p => Panics p
      end
  end.

(** The Go function returns [(Scheduler, error)]: [inl] is
    [(scheduler, nil)] and [inr] is [(nil, err)].  [h] is the heap that the
    call finds; nothing after construction allocates a block whose size the
    caller chooses, so the heap it leaves is not kept. *)
Definition NewWeightedRoundRobinTaskScheduler (opts : Options) (h : heap)
    : outcome (impl + error) :=
  if len (Weights opts) =? 0 then
    Returns (inr ErrWeightNotSpecified)
  else
    let numPriorities := len (Weights opts) in
    match make_chan struct_size 0 h with
    | Returns (shutdown, h) =>
        match make_chan struct_size 1 h with
        | Returns (notify, h) =>
            let p := NewParallelTaskProcessor
                       (MkProcessorOptions wRRTaskProcessorQueueSize
                          (WorkerCount opts) (RetryPolicy_ opts)) in
            match make_taskChs (Z.to_nat numPriorities) (QueueSize opts) h with
            | Returns (chs, _) =>
                Returns (inl (MkImpl DaemonStatusInitialized numPriorities chs
                                shutdown notify 0 opts p NotSpawned []))
            | Blocks => Blocks
            | Panics p => Panics p
            end
        | Blocks => Blocks
        | Panics p => Panics p
        end
    | Blocks => Blocks
    | Panics p => Panics p
    end.

(** *** Start *)

Definition Start (w : impl) : outcome unit * impl :=
  match CompareAndSwapInt32 (status w) DaemonStatusInitialized
          DaemonStatusStarted with
  | (false, _) => (Returns tt, w)
  | (true, st) =>
      let w := with_status w st in
      let w := emit (with_processor w (processor_Start (processor w)))
                 EvProcessorStart in
      let w := with_dispatcherWG w (dispatcherWG w + 1) in
      let w := emit (with_dispatcherG w (AtLoopTop false)) EvGoDispatcher in
      (Returns tt,
       emit w (EvLogInfo "Weighted round robin task scheduler started."))
  end.

(** *** Stop

    [awaited] is what [common.AwaitWaitGroup(&w.dispatcherWG, time.Minute)]
    answers: whether the dispatcher returned within the minute. *)
Definition Stop (awaited : bool) (w : impl) : outcome unit * impl :=
  match CompareAndSwapInt32 (status w) DaemonStatusStarted
          DaemonStatusStopped with
  | (false, _) => (Returns tt, w)
  | (true, st) =>
      let w := with_status w st in
      match close (shutdownCh w) with
      | Returns c =>
          let w := with_shutdownCh w c in
          let w := emit (with_processor w (processor_Stop (processor w)))
                     EvProcessorStop in
          let w :=
            if negb awaited then
              emit w (EvLogWarn
                "Weighted round robin task scheduler timedout on shutdown.")
            else w in
          (Returns tt,
           emit w (EvLogInfo "Weighted round robin task scheduler shutdown."))
      | Blocks => (Blocks, w)
      | Panics p => (Panics p, w)
      end
  end.

(** *** Submit *)

Inductive submit_case : Type := CaseSendTask | CaseShutdown.

Inductive notify_case : Type := CaseSendNotify | CaseNotifyDefault.

(** The inner [select]: send a notification, or do nothing when the send
    cannot proceed (a notification is already pending). *)
Definition notify (w : impl) : outcome unit * impl :=
  match select (when (send_ready (notifyCh w)) CaseSendNotify)
          (Some CaseNotifyDefault) 0 with
  | Some CaseSendNotify =>
      match send (notifyCh w) tt with
      | Returns c => (Returns tt, with_notifyCh w c)
      | Blocks => (Blocks, w)
      | Panics p => (Panics p, w)
      end
  | Some CaseNotifyDefault => (Returns tt, w)
  | None => (Blocks, w)
  end.

(** [pick] resolves the outer [select] when both of its cases are ready.
    The deferred [sw.Stop()] runs when the call returns or panics, not
    while it is parked. *)
Definition Submit (pick : nat) (task : PriorityTask) (w : impl)
    : outcome (option error) * impl :=
  let w := emit w (EvIncCounter PriorityTaskSubmitRequest) in
  let w := emit w (EvStartTimer PriorityTaskSubmitLatency) in
  let sw_Stop (w : impl) := emit w (EvStopTimer PriorityTaskSubmitLatency) in
  let priority := Priority task in
  if priority >=? numQueues w then
    (Returns (Some ErrPriorityExceedsLimit), sw_Stop w)
  else
    match index (taskChs w) priority with
    | None => (Panics IndexOutOfRange, sw_Stop w)
    | Some ch =>
        match select (when (send_ready ch) CaseSendTask
                        ++ when (recv_ready (shutdownCh w)) CaseShutdown)
                None pick with
        | Some CaseSendTask =>
            match send ch task with
            | Returns ch' =>
                let w := with_taskChs w (store (taskChs w) priority ch') in
                match notify w with
                | (Returns _, w) => (Returns None, sw_Stop w)
                | (Blocks, w) => (Blocks, w)
                | (Panics p, w) => (Panics p, sw_Stop w)
                end
            | Blocks => (Blocks, w)
            | Panics p => (Panics p, sw_Stop w)
            end
        | Some CaseShutdown =>
            (Returns (Some ErrTaskSchedulerClosed), sw_Stop w)
        | None => (Blocks, w)
        end
    end.

(** *** dispatcher *)

Inductive pop_case : Type := CaseTask | CasePopShutdown | CasePopDefault.

(** How one pop attempt (the [select] of the inner loop) ends. *)
Inductive attempt : Type :=
| Dispatched
| QueueEmpty
| ShutdownSeen
| AttemptPanics (p : panic).

(** How a loop of the dispatcher ends: it runs to its end, the function
    returns from inside it, or it panics. *)
Inductive flow : Type :=
| Next
| Return
| Panic (p : panic).

(** The body of the inner loop.  The default case of the [select] runs only
    when neither channel is ready.  The queues are never closed, so the
    receive yields a task; the nil task of a closed queue is not modelled
    further. *)
Definition pop_attempt (pick : nat) (priority : Z) (w : impl)
    (outstandingTasks : bool) : attempt * impl * bool :=
  match index (taskChs w) priority with
  | None => (AttemptPanics IndexOutOfRange, w, outstandingTasks)
  | Some ch =>
      match select (when (recv_ready ch) CaseTask
                      ++ when (recv_ready (shutdownCh w)) CasePopShutdown)
              (Some CasePopDefault) pick with
      | Some CaseTask =>
          match recv ch with
          | (Some task, ch') =>
              let w := with_taskChs w (store (taskChs w) priority ch') in
              let (ps, err) := processor_Submit (processor w) task in
              let w := emit (with_processor w ps) (EvProcessorSubmit task err) in
              let w :=
                match err with
                | Some e =>
                    emit (emit w (EvLogError "Fail to submit task to processor" e))
                      (EvNack task)
                | None => w
                end in
              (Dispatched, w, true)
          | (None, _) => (AttemptPanics NilDereference, w, outstandingTasks)
          end
      | Some CasePopShutdown => (ShutdownSeen, w, outstandingTasks)
      | Some CasePopDefault => (QueueEmpty, w, outstandingTasks)
      | None => (QueueEmpty, w, outstandingTasks)
      end
  end.

(** [for i := 0; i < weight; i++ { select ... }], with [n] iterations left.
    The [break] of the default case leaves the [select] only, so the loop
    goes on to the next [i]. *)
Fixpoint pop_loop (n : nat) (pick : Z -> nat) (priority i : Z) (w : impl)
    (outstandingTasks : bool) : flow * impl * bool :=
  match n with
  | O => (Next, w, outstandingTasks)
  | S n' =>
      match pop_attempt (pick i) priority w outstandingTasks with
      | (Dispatched, w', o') => pop_loop n' pick priority (i + 1) w' o'
      | (QueueEmpty, w', o') => pop_loop n' pick priority (i + 1) w' o'
      | (ShutdownSeen, w', o') => (Return, w', o')
      | (AttemptPanics p, w', o') => (Panic p, w', o')
      end
  end.

(** The inner loop for one priority; its bound [w.options.Weights[priority]]
    is read from the options. *)
Definition drain_priority (pick : Z -> Z -> nat) (priority : Z) (w : impl)
    (outstandingTasks : bool) : flow * impl * bool :=
  match index (Weights (options w)) priority with
  | None => (Panic IndexOutOfRange, w, outstandingTasks)
  | Some weight =>
      pop_loop (Z.to_nat weight) (pick priority) priority 0 w outstandingTasks
  end.

(** [for priority := 0; priority < w.numQueues; priority++ { ... }], with
    [n] iterations left. *)
Fixpoint priority_loop (n : nat) (pick : Z -> Z -> nat) (priority : Z)
    (w : impl) (outstandingTasks : bool) : flow * impl * bool :=
  match n with
  | O => (Next, w, outstandingTasks)
  | S n' =>
      match drain_priority pick priority w outstandingTasks with
      | (Next, w', o') => priority_loop n' pick (priority + 1) w' o'
      | r => r
      end
  end.

(** One round: [outstandingTasks = false] and the loop over the priorities.
    [pick priority i] resolves the [select] of attempt [i] on [priority].
    No other goroutine runs during the round. *)
Definition round (pick : Z -> Z -> nat) (w : impl) : flow * impl * bool :=
  priority_loop (Z.to_nat (numQueues w)) pick 0 w false.

Inductive wait_case : Type := CaseNotified | CaseWaitShutdown.

(** The wait at the top of the loop, when the last round dispatched
    nothing: [None] when the goroutine stays parked. *)
Definition idle_wait (pick : nat) (w : impl) : option (flow * impl) :=
  match select (when (recv_ready (notifyCh w)) CaseNotified
                  ++ when (recv_ready (shutdownCh w)) CaseWaitShutdown)
          None pick with
  | Some CaseNotified => Some (Next, with_notifyCh w (recv (notifyCh w)).2)
  | Some CaseWaitShutdown => Some (Return, w)
  | None => None
  end.

(** The dispatcher returns: the deferred [w.dispatcherWG.Done()] runs. *)
Definition dispatcher_return (w : impl) : impl :=
  with_dispatcherG (with_dispatcherWG w (dispatcherWG w - 1)) Returned.

(** One iteration of the dispatcher's [for] loop, from the top of the loop.
    It does nothing when the goroutine is not running. *)
Definition dispatcher_iteration (pick_wait : nat) (pick : Z -> Z -> nat)
    (w : impl) : outcome unit * impl :=
  match dispatcherG w with
  | AtLoopTop outstandingTasks =>
      match (if negb outstandingTasks then idle_wait pick_wait w
             else Some (Next, w)) with
      | None => (Blocks, w)
      | Some (Next, w) =>
          match round pick w with
          | (Next, w', o') => (Returns tt, with_dispatcherG w' (AtLoopTop o'))
          | (Return, w', _) => (Returns tt, dispatcher_return w')
          | (Panic p, w', _) => (Panics p, dispatcher_return w')
          end
      | Some (Return, w) => (Returns tt, dispatcher_return w)
      | Some (Panic p, w) => (Panics p, dispatcher_return w)
      end
  | NotSpawned | Returned => (Returns tt, w)
  end.

(** *** The round with a short circuit

    The round as the spec words it: after a pop attempt finds the queue of a
    priority empty, no further pop is attempted for that priority. *)
Fixpoint pop_loop_short_circuit (n : nat) (pick : Z -> nat) (priority i : Z)
    (w : impl) (outstandingTasks : bool) : flow * impl * bool :=
  match n with
  | O => (Next, w, outstandingTasks)
  | S n' =>
      match pop_attempt (pick i) priority w outstandingTasks with
      | (Dispatched, w', o') =>
          pop_loop_short_circuit n' pick priority (i + 1) w' o'
      | (QueueEmpty, w', o') => (Next, w', o')
      | (ShutdownSeen, w', o') => (Return, w', o')
      | (AttemptPanics p, w', o') => (Panic p, w', o')
      end
  end.

Definition drain_priority_short_circuit (pick : Z -> Z -> nat) (priority : Z)
    (w : impl) (outstandingTasks : bool) : flow * impl * bool :=
  match index (Weights (options w)) priority with
  | None => (Panic IndexOutOfRange, w, outstandingTasks)
  | Some weight =>
      pop_loop_short_circuit (Z.to_nat weight) (pick priority) priority 0 w
        outstandingTasks
  end.

Fixpoint priority_loop_short_circuit (n : nat) (pick : Z -> Z -> nat)
    (priority : Z) (w : impl) (outstandingTasks : bool) : flow * impl * bool :=
  match n with
  | O => (Next, w, outstandingTasks)
  | S n' =>
      match drain_priority_short_circuit pick priority w outstandingTasks with
      | (Next, w', o') => priority_loop_short_circuit n' pick (priority + 1) w' o'
      | r => r
      end
  end.

Definition round_short_circuit (pick : Z -> Z -> nat) (w : impl)
    : flow * impl * bool :=
  priority_loop_short_circuit (Z.to_nat (numQueues w)) pick 0 w false.

(** *** The scheduler and its goroutines as one system

    The operations that change the scheduler: the three public calls and
    an iteration of the dispatcher, each with the oracles it consumes.  A
    call that parks or panics leaves the state it reached. *)
Inductive op : Type :=
| CallStart
| CallStop (awaited : bool)
| CallSubmit (pick : nat) (task : PriorityTask)
| DispatcherIteration (pick_wait : nat) (pick : Z -> Z -> nat).

Definition step (o : op) (w : impl) : impl :=
  match o with
  | CallStart => (Start w).2
  | CallStop awaited => (Stop awaited w).2
  | CallSubmit pick task => (Submit pick task w).2
  | DispatcherIteration pick_wait pick => (dispatcher_iteration pick_wait pick w).2
  end.

Definition run (ops : list op) (w : impl) : impl :=
  foldl (fun w o => step o w) w ops.

(** *** Vocabulary of the properties *)

(** The scheduler as construction leaves it and every operation keeps it:
    one queue and one weight per priority class, and no queue and no
    notification channel ever closed. *)
Definition wf (w : impl) : Prop :=
  numQueues w = len (taskChs w) /\
  numQueues w = len (Weights (options w)) /\
  Forall (fun ch => closed ch = false) (taskChs w) /\
  closed (notifyCh w) = false /\
  buf (shutdownCh w) = [].

(** The shutdown signal has fired: [shutdownCh] is closed. *)
Definition shutdown_fired (w : impl) : bool := closed (shutdownCh w).

(** The scheduler that construction returns. *)
Definition constructed (opts : Options) : impl :=
  MkImpl DaemonStatusInitialized (len (Weights opts))
    (replicate (length (Weights opts)) (MkChan [] (QueueSize opts) false))
    (MkChan [] 0 false) (MkChan [] 1 false) 0 opts
    (NewParallelTaskProcessor
       (MkProcessorOptions wRRTaskProcessorQueueSize (WorkerCount opts)
          (RetryPolicy_ opts)))
    NotSpawned [].

(** The bytes of the buffer of one queue, and the sizes [makechan] accepts
    for it. *)
Definition queue_mem (opts : Options) : Z :=
  PriorityTask_size * QueueSize opts.

Definition queue_size_in_range (opts : Options) : Prop :=
  0 <= QueueSize opts /\
  queue_mem opts < 2 ^ (8 * PtrSize) /\
  queue_mem opts <= maxAlloc - hchanSize.

(** The heap after [n] blocks of [mem] bytes were taken from it, one after
    the other; the heap supplies the buffers of [n] queues when they are
    empty or these blocks can be had. *)
Fixpoint mallocgc_n (n : nat) (mem : Z) (h : heap) : option heap :=
  match n with
  | O => Some h
  | S n' =>
      match mallocgc mem h with
      | Some h' => mallocgc_n n' mem h'
      | None => None
      end
  end.

Definition heap_supplies (n : nat) (mem : Z) (h : heap) : Prop :=
  mem = 0 \/ exists h', mallocgc_n n mem h = Some h'.

(** The number of tasks a class of weight [weight] gives up in a round, from
    a queue holding [ch]: min(weight, length), and none for a weight below
    one. *)
Definition quota (weight : Z) (ch : chan PriorityTask) : nat :=
  Z.to_nat (Z.min weight (len (buf ch))).

(** The first [n] tasks of a queue, oldest first, and the queue without
    them. *)
Definition oldest (n : nat) (ch : chan PriorityTask) : list PriorityTask :=
  take n (buf ch).

Definition without_oldest (n : nat) (ch : chan PriorityTask)
    : chan PriorityTask :=
  MkChan (drop n (buf ch)) (cap ch) (closed ch).

(** The trace of one forwarded task: the call to the Processor with its
    answer and, after a rejection, the error log and the task's [Nack]. *)
Definition report (task : PriorityTask) (err : option error) : list event :=
  EvProcessorSubmit task err ::
  match err with
  | Some e => [EvLogError "Fail to submit task to processor" e; EvNack task]
  | None => []
  end.

(** The answers of the Processor to a sequence of tasks submitted one after
    the other, and its state afterwards. *)
Fixpoint answers (ps : PS) (tasks : list PriorityTask)
    : PS * list (PriorityTask * option error) :=
  match tasks with
  | [] => (ps, [])
  | task :: rest =>
      let (ps', err) := processor_Submit ps task in
      let (ps'', more) := answers ps' rest in
      (ps'', (task, err) :: more)
  end.

Definition reports (results : list (PriorityTask * option error))
    : list event :=
  concat (map (fun r => report r.1 r.2) results).

(** The scheduler with its queues replaced by [chs] and [tasks] forwarded
    to the Processor. *)
Definition settle (w : impl) (chs : list (chan PriorityTask))
    (tasks : list PriorityTask) : impl :=
  MkImpl (status w) (numQueues w) chs (shutdownCh w) (notifyCh w)
    (dispatcherWG w) (options w) (answers (processor w) tasks).1
    (dispatcherG w) (events w ++ reports (answers (processor w) tasks).2).

(** The tasks a round takes from queues [chs] under weights [weights], in
    the order it takes them. *)
Definition round_tasks (chs : list (chan PriorityTask)) (weights : list Z)
    : list PriorityTask :=
  concat (zip_with (fun ch weight => oldest (quota weight ch) ch) chs weights).

(** The queues a round leaves. *)
Definition round_queues (chs : list (chan PriorityTask)) (weights : list Z)
    : list (chan PriorityTask) :=
  zip_with (fun ch weight => without_oldest (quota weight ch) ch) chs weights.

(** Reading a trace: the tasks forwarded to the Processor with its answers,
    the tasks whose [Nack] was invoked, and the errors logged, each in the
    order of the trace. *)
Definition forwarded (evs : list event) : list (PriorityTask * option error) :=
  omap (fun e => match e with
                 | EvProcessorSubmit t err => Some (t, err)
                 | _ => None
                 end) evs.

Definition nacked (evs : list event) : list PriorityTask :=
  omap (fun e => match e with EvNack t => Some t | _ => None end) evs.

Definition logged_errors (evs : list event) : list error :=
  omap (fun e => match e with EvLogError _ err => Some err | _ => None end) evs.

(** The tasks the Processor rejected, and the errors it gave. *)
Definition rejected (results : list (PriorityTask * option error))
    : list PriorityTask :=
  omap (fun r => match r.2 with Some _ => Some r.1 | None => None end) results.

Definition rejections (results : list (PriorityTask * option error))
    : list error :=
  omap snd results.

(** [ch'] is the queue [ch] after some receives: the tasks [gone] left
    from its front. *)
Definition drained (ch ch' : chan PriorityTask) : Prop :=
  cap ch' = cap ch /\ closed ch' = closed ch /\
  exists gone, buf ch = gone ++ buf ch'.

(** What the loops of a round may change: tasks leave the front of the
    queues and are reported in the trace, and the Processor moves on. *)
Definition dequeues (w w' : impl) : Prop :=
  status w' = status w /\
  numQueues w' = numQueues w /\
  shutdownCh w' = shutdownCh w /\
  notifyCh w' = notifyCh w /\
  dispatcherWG w' = dispatcherWG w /\
  options w' = options w /\
  dispatcherG w' = dispatcherG w /\
  Forall2 drained (taskChs w) (taskChs w') /\
  exists results, events w' = events w ++ reports results.

Definition nonempty {A : Type} (l : list A) : bool :=
  match l with
  | [] => false
  | _ :: _ => true
  end.

(** *** Vocabulary of the lifecycle and of the signals *)

(** The lifecycle calls in a trace: starting and stopping the Processor and
    spawning the dispatcher. *)
Definition lifecycle (evs : list event) : list event :=
  omap (fun e => match e with
                 | EvProcessorStart | EvProcessorStop | EvGoDispatcher => Some e
                 | _ => None
                 end) evs.

(** What each status stands for: the lifecycle calls made so far, whether
    the shutdown signal has fired and whether the dispatcher was spawned. *)
Definition lifecycle_inv (w : impl) : Prop :=
  match status w with
  | DaemonStatusInitialized =>
      lifecycle (events w) = [] /\
      shutdown_fired w = false /\
      dispatcherG w = NotSpawned
  | DaemonStatusStarted =>
      lifecycle (events w) = [EvProcessorStart; EvGoDispatcher] /\
      shutdown_fired w = false /\
      dispatcherG w <> NotSpawned
  | DaemonStatusStopped =>
      lifecycle (events w)
        = [EvProcessorStart; EvGoDispatcher; EvProcessorStop] /\
      shutdown_fired w = true /\
      dispatcherG w <> NotSpawned
  end.

(** The notifications pending on [notifyCh], and the bound on them. *)
Definition pending (w : impl) : nat := length (buf (notifyCh w)).

Definition pending_ok (w : impl) : Prop :=
  cap (notifyCh w) = 1 /\ (pending w <= 1)%nat.

(** The scheduler as every run from construction finds it. *)
Definition inv (w : impl) : Prop := wf w /\ pending_ok w /\ lifecycle_inv w.

(** A run of operations contains a [Start]; it contains a [Stop] after its
    first [Start]. *)
Definition is_stop (o : op) : bool :=
  match o with
  | CallStop _ => true
  | _ => false
  end.

Fixpoint started_in (ops : list op) : bool :=
  match ops with
  | [] => false
  | CallStart :: _ => true
  | _ :: rest => started_in rest
  end.

Fixpoint stopped_in (ops : list op) : bool :=
  match ops with
  | [] => false
  | CallStart :: rest => existsb is_stop rest
  | _ :: rest => stopped_in rest
  end.

(** The status moves by one step of Initialized -> Started -> Stopped, or
    stays. *)
Definition status_moves (a b : DaemonStatus) : bool :=
  match a, b with
  | DaemonStatusInitialized, DaemonStatusStarted => true
  | DaemonStatusStarted, DaemonStatusStopped => true
  | _, _ => DaemonStatus_eqb a b
  end.

(** The status machine of the spec: [Start] moves Initialized to Started,
    [Stop] moves Started to Stopped, nothing else moves. *)
Definition next_status (s : DaemonStatus) (o : op) : DaemonStatus :=
  match s, o with
  | DaemonStatusInitialized, CallStart => DaemonStatusStarted
  | DaemonStatusStarted, CallStop _ => DaemonStatusStopped
  | _, _ => s
  end.

(** [ch'] is the queue [ch] after some sends: tasks were [added] at its
    back and none left. *)
Definition grown (ch ch' : chan PriorityTask) : Prop :=
  cap ch' = cap ch /\ closed ch' = closed ch /\
  exists added, buf ch' = buf ch ++ added.

(** A sequence of [Submit] calls that all succeed, and the scheduler after
    them; [None] when one of them does not return nil. *)
Fixpoint submit_all (subs : list (nat * PriorityTask)) (w : impl)
    : option impl :=
  match subs with
  | [] => Some w
  | (pick, t) :: rest =>
      match Submit pick t w with
      | (Returns None, w') => submit_all rest w'
      | _ => None
      end
  end.

End Scheduler.

(** ** Vocabulary of the further properties *)

Section Measures.

Context {RetryPolicy PS : Type} `{!Processor RetryPolicy PS}.

Local Abbreviation impl := (weightedRoundRobinTaskSchedulerImpl RetryPolicy PS).

(** Every queue has the configured capacity and holds no more tasks than
    that. *)
Definition within_capacity (w : impl) : Prop :=
  Forall (fun ch => cap ch = QueueSize (options w) /\ len (buf ch) <= cap ch)
    (taskChs w).

(** No task is queued. *)
Definition all_empty (w : impl) : Prop :=
  Forall (fun ch => buf ch = []) (taskChs w).

(** The dispatcher will not sleep on a queued task: nothing is queued, or a
    notification is pending, or the last round dispatched something. *)
Definition alert (w : impl) : Prop :=
  all_empty w \/ pending w = 1%nat \/ dispatcherG w = AtLoopTop true.

(** The wait group counts the dispatcher goroutine while it runs. *)
Definition wg_balanced (w : impl) : Prop :=
  dispatcherWG w = match dispatcherG w with
                   | AtLoopTop _ => 1
                   | NotSpawned | Returned => 0
                   end.

(** The metrics events of one [Submit] call: the request counter and the
    latency timer, stopped by the deferred call unless the call is parked. *)
Definition submit_metrics (parked : bool) : list event :=
  [EvIncCounter PriorityTaskSubmitRequest;
   EvStartTimer PriorityTaskSubmitLatency]
  ++ (if parked then [] else [EvStopTimer PriorityTaskSubmitLatency]).

Definition parked {A : Type} (r : outcome A) : bool :=
  match r with
  | Blocks => true
  | _ => false
  end.

(** Consecutive iterations of the dispatcher, each with its oracles. *)
Definition dispatcher_iterations (picks : list (nat * (Z -> Z -> nat)))
    : list op :=
  map (fun p => DispatcherIteration p.1 p.2) picks.

(** The tasks of class [i] in a sequence of tasks, in their order. *)
Definition class_of (i : nat) (ts : list PriorityTask) : list PriorityTask :=
  filter (fun t => Priority t = Z.of_nat i) ts.

(** Every queue holds tasks of its own class only. *)
Definition sorted_by_class (w : impl) : Prop :=
  forall i ch,
    taskChs w !! i = Some ch ->
    Forall (fun t => Priority t = Z.of_nat i) (buf ch).

(** The tasks handed to the Processor so far, in the order of the trace. *)
Definition forwarded_tasks (w : impl) : list PriorityTask :=
  (forwarded (events w)).*1.

(** The tasks that the [Submit] calls of a run accepted (those that
    returned nil), in the order of the calls. *)
Fixpoint accepted (ops : list op) (w : impl) : list PriorityTask :=
  match ops with
  | [] => []
  | o :: rest =>
      match o with
      | CallSubmit pick t =>
          match (Submit pick t w).1 with
          | Returns None => [t]
          | _ => []
          end
      | _ => []
      end ++ accepted rest (step o w)
  end.

(** From [w] to [w'] tasks [ts] were forwarded, and they left the front of
    the queue of their class, in their order. *)
Definition serves (w w' : impl) : Prop :=
  sorted_by_class w ->
  sorted_by_class w' /\
  length (taskChs w') = length (taskChs w) /\
  exists ts,
    forwarded_tasks w' = forwarded_tasks w ++ ts /\
    forall i ch,
      taskChs w !! i = Some ch ->
      exists ch', taskChs w' !! i = Some ch' /\ buf ch = class_of i ts ++ buf ch'.

End Measures.

(** ** Processor stubs *)

(** A processor that accepts every task. *)
Inductive accept_all : Type := AcceptAll.

#[export] Instance accept_all_processor : Processor unit accept_all := {|
  NewParallelTaskProcessor _ := AcceptAll;
  processor_Start ps := ps;
  processor_Stop ps := ps;
  processor_Submit ps _ := (ps, None)
|}.

(** A processor that rejects every task. *)
Inductive reject_all : Type := RejectAll.

Definition ErrRejected : error := errors_New "processor rejects the task".

#[export] Instance reject_all_processor : Processor unit reject_all := {|
  NewParallelTaskProcessor _ := RejectAll;
  processor_Start ps := ps;
  processor_Stop ps := ps;
  processor_Submit ps _ := (ps, Some ErrRejected)
|}.

(** A processor with room for a number of tasks: it accepts while room is
    left and rejects afterwards. *)
#[export] Instance bounded_processor : Processor unit nat := {|
  NewParallelTaskProcessor o := Z.to_nat (pWorkerCount _ o);
  processor_Start ps := ps;
  processor_Stop ps := ps;
  processor_Submit ps _ :=
    match ps with
    | O => (O, Some ErrRejected)
    | S room => (room, None)
    end
|}.

(** ** Example schedulers *)

Definition task (id : nat) (priority : Z) : PriorityTask := MkTask id priority.

Definition open_chan {A : Type} (l : list A) (size : Z) : chan A :=
  MkChan l size false.

(** Weights [3,2,1], started, five tasks waiting in every class. *)
Definition backlog_321 {PS : Type} (ps : PS)
    : weightedRoundRobinTaskSchedulerImpl unit PS :=
  MkImpl DaemonStatusStarted 3
    [open_chan [task 1 0; task 2 0; task 3 0; task 4 0; task 5 0] 8;
     open_chan [task 6 1; task 7 1; task 8 1; task 9 1; task 10 1] 8;
     open_chan [task 11 2; task 12 2; task 13 2; task 14 2; task 15 2] 8]
    (open_chan [] 0) (open_chan [tt] 1) 1 (MkOptions [3; 2; 1] 8 4 tt) ps
    (AtLoopTop false) [].

(** The same weights with class 0 empty and two tasks in classes 1 and 2. *)
Definition backlog_gap {PS : Type} (ps : PS)
    : weightedRoundRobinTaskSchedulerImpl unit PS :=
  MkImpl DaemonStatusStarted 3
    [open_chan [] 8;
     open_chan [task 6 1; task 7 1] 8;
     open_chan [task 11 2; task 12 2] 8]
    (open_chan [] 0) (open_chan [tt] 1) 1 (MkOptions [3; 2; 1] 8 4 tt) ps
    (AtLoopTop false) [].

Definition first_ready : Z -> Z -> nat := fun _ _ => 0%nat.

(** One class of weight 1 and a queue of capacity 1, as construction
    returns it. *)
Definition opts_one : WeightedRoundRobinTaskSchedulerOptions unit :=
  MkOptions [1] 1 1 tt.

Definition fresh_one : weightedRoundRobinTaskSchedulerImpl unit accept_all :=
  MkImpl DaemonStatusInitialized 1 [open_chan [] 1] (open_chan [] 0)
    (open_chan [] 1) 0 opts_one AcceptAll NotSpawned [].

(** Options outside the constraints of the spec: a weight of zero, a
    negative weight and a queue size of zero. *)
Definition opts_unchecked : WeightedRoundRobinTaskSchedulerOptions unit :=
  MkOptions [0; -2] 0 1 tt.

(** A run with repeated lifecycle calls. *)
Definition lifecycle_calls : list op :=
  [CallStop true; CallStart; CallStart; CallSubmit 0 (task 1 0);
   CallStop true; CallStop false; CallStart].

(** A run after which a task is left queued: the task is accepted, the
    scheduler is stopped, and the dispatcher, woken by both signals, takes
    the shutdown case. *)
Definition stop_with_backlog : list op :=
  [CallStart; CallSubmit 0 (task 1 0); CallStop true;
   DispatcherIteration 1 first_ready].


(** A 64-bit runtime whose heap is the number of bytes it can still
    supply, and a heap of 1 GiB. *)
Definition runtime_64 : Runtime := {|
  PtrSize := 8;
  maxAlloc := 2 ^ 48;
  hchanSize := 96;
  heap := Z;
  mallocgc := fun n h => if n <=? h then Some (h - n) else None;
  PtrSize_pos := eq_refl;
  hchanSize_maxAlloc := ltac:(discriminate)
|}.

Definition heap_1GiB : @heap runtime_64 := 2 ^ 30.

(** Options whose queues are beyond the largest allocation, and options
    whose queues are within it and beyond the heap of 1 GiB. *)
Definition opts_beyond_maxAlloc : WeightedRoundRobinTaskSchedulerOptions unit :=
  MkOptions [1] (2 ^ 62) 1 tt.

Definition opts_beyond_heap : WeightedRoundRobinTaskSchedulerOptions unit :=
  MkOptions [1; 1] (2 ^ 26) 1 tt.

(** Further example schedulers. *)

(** Options with a negative queue size. *)
Definition opts_negative_size : WeightedRoundRobinTaskSchedulerOptions unit :=
  MkOptions [1] (-1) 1 tt.

(** One class, started, the queue full. *)
Definition full_one : weightedRoundRobinTaskSchedulerImpl unit accept_all :=
  MkImpl DaemonStatusStarted 1 [open_chan [task 1 0] 1] (open_chan [] 0)
    (open_chan [tt] 1) 1 opts_one AcceptAll (AtLoopTop false) [].

(** One class, started, nothing queued and the dispatcher idle. *)
Definition idle_one : weightedRoundRobinTaskSchedulerImpl unit accept_all :=
  MkImpl DaemonStatusStarted 1 [open_chan [] 1] (open_chan [] 0)
    (open_chan [] 1) 1 opts_one AcceptAll (AtLoopTop false) [].

(** One class, stopped with a task still queued and the dispatcher not yet
    returned. *)
Definition stopped_one : weightedRoundRobinTaskSchedulerImpl unit accept_all :=
  MkImpl DaemonStatusStopped 1 [open_chan [task 1 0] 1] (MkChan [] 0 true)
    (open_chan [tt] 1) 1 opts_one AcceptAll (AtLoopTop false) [].

(** The backlog of [backlog_321] with the dispatcher in the middle of its
    work. *)
Definition backlog_busy : weightedRoundRobinTaskSchedulerImpl unit accept_all :=
  MkImpl DaemonStatusStarted 3
    [open_chan [task 1 0; task 2 0; task 3 0; task 4 0; task 5 0] 8;
     open_chan [task 6 1; task 7 1; task 8 1; task 9 1; task 10 1] 8;
     open_chan [task 11 2; task 12 2; task 13 2; task 14 2; task 15 2] 8]
    (open_chan [] 0) (open_chan [] 1) 1 (MkOptions [3; 2; 1] 8 4 tt) AcceptAll
    (AtLoopTop true) [].

Definition two_iterations : list (nat * (Z -> Z -> nat)) :=
  [(0%nat, first_ready); (0%nat, first_ready)].

Definition calls_before_start : list op :=
  [CallSubmit 0 (task 1 0); CallStop true; DispatcherIteration 0 first_ready;
   CallSubmit 0 (task 2 0)].

Definition submit_dispatch_submit : list op :=
  [CallStart; CallSubmit 0 (task 1 0); DispatcherIteration 0 first_ready;
   CallSubmit 0 (task 2 0)].

(** ** Properties *)

Section Properties.

Context {RetryPolicy PS : Type} `{!Processor RetryPolicy PS} `{!Runtime}.

(** The heap that construction finds. *)
Variable hp : heap.

Local Abbreviation impl := (weightedRoundRobinTaskSchedulerImpl RetryPolicy PS).

(** Unfold the field updates and compute the projections of the result. *)
Ltac fields :=
  cbn [dispatcher_return settle emit with_status with_taskChs with_shutdownCh
       with_notifyCh with_dispatcherWG with_processor with_dispatcherG
       status numQueues taskChs shutdownCh notifyCh dispatcherWG options
       processor dispatcherG events fst snd] in *.

(** Two schedulers with the same fields are the same scheduler. *)
Lemma impl_ext (a b : impl) :
  status a = status b ->
  numQueues a = numQueues b ->
  taskChs a = taskChs b ->
  shutdownCh a = shutdownCh b ->
  notifyCh a = notifyCh b ->
  dispatcherWG a = dispatcherWG b ->
  options a = options b ->
  processor a = processor b ->
  dispatcherG a = dispatcherG b ->
  events a = events b ->
  a = b.
Proof. destruct a, b. cbn. by intros -> -> -> -> -> -> -> -> -> ->. Qed.

Ltac same_fields := apply impl_ext; fields; try reflexivity.

(** *** The [select] statements, case by case *)

Lemma select_pop_default (a b : bool) (k : nat) :
  select (when a CaseTask ++ when b CasePopShutdown) (Some CasePopDefault) k
    = Some CasePopDefault ->
  a = false /\ b = false.
Proof.
  destruct a, b; cbn [when app select length]; try discriminate; auto.
  pose proof (Nat.mod_upper_bound k 2 ltac:(lia)) as Hk.
  destruct (k mod 2)%nat as [|[|m]]; cbn; try discriminate; lia.
Qed.

Lemma select_default_is_Some {C : Type} (ready : list C) (d : C) (k : nat) :
  is_Some (select ready (Some d) k).
Proof.
  destruct ready as [|c ready]; [by eexists|].
  unfold select. apply lookup_lt_is_Some_2.
  apply Nat.mod_upper_bound. discriminate.
Qed.

Lemma select_single {C : Type} (c : C) (d : option C) (k : nat) :
  select [c] d k = Some c.
Proof. unfold select. cbn [length]. by rewrite Nat.mod_1_r. Qed.

Lemma index_Some {A : Type} (l : list A) (i : Z) (x : A) :
  index l i = Some x <-> 0 <= i /\ l !! Z.to_nat i = Some x.
Proof.
  unfold index. destruct (Z.ltb_spec i 0); split; try intros [? ?];
    try done; lia.
Qed.

(** *** Construction *)

Lemma len_zero {A : Type} (l : list A) : (len l =? 0) = true <-> l = [].
Proof. unfold len. destruct l; cbn; split; intros; try done; lia. Qed.

Lemma uintptr_pos : 0 < 2 ^ (8 * PtrSize).
Proof. pose proof PtrSize_pos. apply Z.pow_pos_nonneg; lia. Qed.

(** [make] of a channel of [struct{}]: no buffer is allocated. *)
Lemma make_chan_struct (size : Z) (h : heap) :
  0 <= size ->
  make_chan (A := unit) struct_size size h = Returns (MkChan [] size false, h).
Proof.
  intros Hsize. unfold make_chan, struct_size.
  pose proof uintptr_pos. pose proof hchanSize_maxAlloc.
  replace (0 * size) with 0 by lia.
  destruct (Z.ltb_spec size 0); [lia|].
  destruct (Z.leb_spec (2 ^ (8 * PtrSize)) 0); [lia|].
  by destruct (Z.ltb_spec (maxAlloc - hchanSize) 0); [lia|].
Qed.

(** The three ways [make] of a queue can go. *)
Lemma make_chan_queue (opts : WeightedRoundRobinTaskSchedulerOptions RetryPolicy)
    (h : heap) :
  make_chan (A := PriorityTask) PriorityTask_size (QueueSize opts) h
  = if decide (queue_size_in_range opts) then
      if decide (queue_mem opts = 0) then
        Returns (MkChan [] (QueueSize opts) false, h)
      else
        match mallocgc (queue_mem opts) h with
        | Some h' => Returns (MkChan [] (QueueSize opts) false, h')
        | None => Panics OutOfMemory
        end
    else Panics MakechanSizeOutOfRange.
Proof.
  unfold make_chan. fold (queue_mem opts).
  destruct (decide (queue_size_in_range opts)) as [(H1 & H2 & H3)|Hout].
  - destruct (Z.ltb_spec (QueueSize opts) 0); [lia|].
    destruct (Z.leb_spec (2 ^ (8 * PtrSize)) (queue_mem opts)); [lia|].
    destruct (Z.ltb_spec (maxAlloc - hchanSize) (queue_mem opts)); [lia|].
    cbn [orb]. destruct (Z.eqb_spec (queue_mem opts) 0);
      by destruct (decide (queue_mem opts = 0)).
  - destruct (Z.ltb_spec (QueueSize opts) 0); [done|].
    destruct (Z.leb_spec (2 ^ (8 * PtrSize)) (queue_mem opts)); [done|].
    destruct (Z.ltb_spec (maxAlloc - hchanSize) (queue_mem opts)); [done|].
    exfalso. apply Hout. unfold queue_size_in_range. lia.
Qed.

Lemma make_taskChs_cases
    (opts : WeightedRoundRobinTaskSchedulerOptions RetryPolicy) (n : nat)
    (h : heap) :
  make_taskChs (S n) (QueueSize opts) h
  = if decide (queue_size_in_range opts) then
      if decide (queue_mem opts = 0) then
        Returns (replicate (S n) (MkChan [] (QueueSize opts) false), h)
      else
        match mallocgc_n (S n) (queue_mem opts) h with
        | Some h' =>
            Returns (replicate (S n) (MkChan [] (QueueSize opts) false), h')
        | None => Panics OutOfMemory
        end
    else Panics MakechanSizeOutOfRange.
Proof.
  revert h. induction n as [|n IH]; intros h.
  - cbn [make_taskChs mallocgc_n replicate]. rewrite make_chan_queue.
    destruct (decide (queue_size_in_range opts)); [|done].
    destruct (decide (queue_mem opts = 0)); [done|].
    by destruct (mallocgc (queue_mem opts) h).
  - change (make_taskChs (S (S n)) (QueueSize opts) h)
      with (match make_chan PriorityTask_size (QueueSize opts) h with
            | Returns (c, h) =>
                match make_taskChs (S n) (QueueSize opts) h with
                | Returns (cs, h) => Returns (c :: cs, h)
                | Blocks => Blocks
                | Panics p => Panics p
                end
            | Blocks => Blocks
            | Panics p => Panics p
            end).
    rewrite make_chan_queue.
    destruct (decide (queue_size_in_range opts)) as [Hin|Hout]; [|done].
    destruct (decide (queue_mem opts = 0)) as [Hz|Hnz].
    + rewrite IH. destruct (decide (queue_size_in_range opts)); [|done].
      by destruct (decide (queue_mem opts = 0)).
    + change (mallocgc_n (S (S n)) (queue_mem opts) h)
        with (match mallocgc (queue_mem opts) h with
              | Some h' => mallocgc_n (S n) (queue_mem opts) h'
              | None => None
              end).
      destruct (mallocgc (queue_mem opts) h) as [h1|]; [|done].
      rewrite IH. destruct (decide (queue_size_in_range opts)); [|done].
      destruct (decide (queue_mem opts = 0)); [done|].
      by destruct (mallocgc_n (S n) (queue_mem opts) h1).
Qed.

(** Every way construction can go: the error for an empty [Weights]; else
    the panic of [makechan] when the size of the queues is out of its
    range; else the scheduler when the heap supplies the buffers, and the
    fatal error of the allocator when it does not. *)
Lemma New_cases (opts : WeightedRoundRobinTaskSchedulerOptions RetryPolicy) :
  Weights opts = [] /\
    NewWeightedRoundRobinTaskScheduler (PS := PS) opts hp
      = Returns (inr ErrWeightNotSpecified) \/
  Weights opts <> [] /\ ~ queue_size_in_range opts /\
    NewWeightedRoundRobinTaskScheduler (PS := PS) opts hp
      = Panics MakechanSizeOutOfRange \/
  Weights opts <> [] /\ queue_size_in_range opts /\
    heap_supplies (length (Weights opts)) (queue_mem opts) hp /\
    NewWeightedRoundRobinTaskScheduler opts hp = Returns (inl (constructed opts)) \/
  Weights opts <> [] /\ queue_size_in_range opts /\
    ~ heap_supplies (length (Weights opts)) (queue_mem opts) hp /\
    NewWeightedRoundRobinTaskScheduler (PS := PS) opts hp = Panics OutOfMemory.
Proof.
  unfold NewWeightedRoundRobinTaskScheduler.
  destruct (len (Weights opts) =? 0) eqn:Hlen.
  { left. split; [by apply len_zero|done]. }
  right.
  assert (Hne : Weights opts <> []).
  { intros Hnil. apply len_zero in Hnil. congruence. }
  rewrite !make_chan_struct by lia. unfold len. rewrite Nat2Z.id.
  destruct (Weights opts) as [|weight rest] eqn:Hweights; [done|].
  cbn [length]. rewrite make_taskChs_cases.
  destruct (decide (queue_size_in_range opts)) as [Hin|Hout]; [|by left].
  right. unfold heap_supplies.
  destruct (decide (queue_mem opts = 0)) as [Hz|Hnz].
  { left. split_and!; try done; [by left|].
    unfold constructed. rewrite Hweights. reflexivity. }
  destruct (mallocgc_n (S (length rest)) (queue_mem opts) hp) as [h'|] eqn:Hheap.
  - left. split_and!; try done; [right; by exists h'|].
    unfold constructed. rewrite Hweights. reflexivity.
  - right. split_and!; try done. intros [?|[h' ?]]; done.
Qed.

(** C7, as the code has it: construction checks that [Weights] is not empty
    and nothing else.  With an empty [Weights] it returns the error; an
    error is returned in no other case, so weights that are zero or
    negative and a [QueueSize] of zero are accepted.  With a non-empty
    [Weights] it returns a scheduler exactly when [makechan] accepts the
    size of the queues ([QueueSize] is not negative and the buffer is
    within the bounds of the runtime) and the heap supplies their buffers:
    a scheduler in status Initialized whose [numQueues] is the length of
    [Weights], with one empty queue of capacity [QueueSize] per class and
    the options as they were given.  With a size that [makechan] refuses
    it panics, and it stops the program when the heap is exhausted. *)
Theorem construction_checks_weights_only
    (opts : WeightedRoundRobinTaskSchedulerOptions RetryPolicy) :
  (Weights opts = [] ->
   NewWeightedRoundRobinTaskScheduler (PS := PS) opts hp
     = Returns (inr ErrWeightNotSpecified)) /\
  (forall e,
     NewWeightedRoundRobinTaskScheduler (PS := PS) opts hp = Returns (inr e) ->
     Weights opts = []) /\
  (Weights opts <> [] ->
   queue_size_in_range opts ->
   heap_supplies (length (Weights opts)) (queue_mem opts) hp ->
   exists w : impl,
     NewWeightedRoundRobinTaskScheduler opts hp = Returns (inl w) /\
     status w = DaemonStatusInitialized /\
     numQueues w = len (Weights opts) /\
     taskChs w
       = replicate (length (Weights opts)) (MkChan [] (QueueSize opts) false) /\
     options w = opts) /\
  (forall w : impl,
     NewWeightedRoundRobinTaskScheduler opts hp = Returns (inl w) ->
     Weights opts <> [] /\
     queue_size_in_range opts /\
     heap_supplies (length (Weights opts)) (queue_mem opts) hp) /\
  (Weights opts <> [] ->
   ~ queue_size_in_range opts ->
   NewWeightedRoundRobinTaskScheduler (PS := PS) opts hp
     = Panics MakechanSizeOutOfRange) /\
  (Weights opts <> [] ->
   queue_size_in_range opts ->
   ~ heap_supplies (length (Weights opts)) (queue_mem opts) hp ->
   NewWeightedRoundRobinTaskScheduler (PS := PS) opts hp = Panics OutOfMemory).
Proof.
  destruct (New_cases opts)
    as [[Hw Hnew]|[(Hw & Hr & Hnew)|[(Hw & Hr & Hh & Hnew)|(Hw & Hr & Hh & Hnew)]]];
    rewrite Hnew; split_and!; try done.
  intros _ _ _. by exists (constructed opts).
Qed.

Lemma New_constructed
    (opts : WeightedRoundRobinTaskSchedulerOptions RetryPolicy) (w : impl) :
  NewWeightedRoundRobinTaskScheduler opts hp = Returns (inl w) ->
  w = constructed opts /\ Weights opts <> [] /\ 0 <= QueueSize opts.
Proof.
  destruct (New_cases opts)
    as [[Hw Hnew]|[(Hw & Hr & Hnew)|[(Hw & Hr & Hh & Hnew)|(Hw & Hr & Hh & Hnew)]]];
    rewrite Hnew; try done.
  intros [= <-]. by destruct Hr.
Qed.

Lemma New_wf (opts : WeightedRoundRobinTaskSchedulerOptions RetryPolicy)
    (w : impl) :
  NewWeightedRoundRobinTaskScheduler opts hp = Returns (inl w) ->
  wf w /\
  status w = DaemonStatusInitialized /\
  shutdown_fired w = false /\
  dispatcherG w = NotSpawned /\
  events w = [] /\
  notifyCh w = MkChan [] 1 false /\
  options w = opts.
Proof.
  intros Hnew. apply New_constructed in Hnew as (-> & _ & _).
  unfold wf, shutdown_fired, constructed. cbn. split_and!; try done.
  - unfold len. by rewrite length_replicate.
  - by apply Forall_replicate.
Qed.

(** *** Submit *)

(** The paths through [Submit]: the priority check, the index, the outer
    [select], the send, and the inner [select] with its send. *)
Ltac Submit_paths k t w :=
  unfold Submit, notify; fields;
  destruct (Priority t >=? numQueues w) eqn:Hcheck;
  [|destruct (index (taskChs w) (Priority t)) as [ch|] eqn:Hindex;
    [destruct (select (when (send_ready ch) CaseSendTask ++ _) None k)
       as [[ | ]|] eqn:Hselect;
     [destruct (send ch t) as [ch'| |p] eqn:Hsend;
      [destruct (select (when (send_ready (notifyCh w)) CaseSendNotify)
                   (Some CaseNotifyDefault) 0) as [[ | ]|] eqn:Hnotify;
       [destruct (send (notifyCh w) tt) as [c| |p] eqn:Hpost| |]
      | |]
     | |]
    |]];
  fields.

Lemma index_None {A : Type} (l : list A) (i : Z) :
  index l i = None <-> i < 0 \/ len l <= i.
Proof.
  unfold index, len. destruct (Z.ltb_spec i 0).
  - split; [auto|done].
  - rewrite lookup_ge_None. lia.
Qed.

(** C3: [Submit] compares the priority with [numQueues] from above only.
    On a well-formed scheduler a task with a negative priority passes the
    check and the index into [taskChs] is out of range, so the call panics;
    the index is out of range, and the call panics on it, for a negative
    priority and for no other task. *)
Theorem Submit_checks_upper_bound_only (k : nat) (t : PriorityTask) (w : impl) :
  wf w ->
  (Priority t < 0 ->
   (Priority t >=? numQueues w) = false /\
   index (taskChs w) (Priority t) = None /\
   (Submit k t w).1 = Panics IndexOutOfRange) /\
  ((Submit k t w).1 = Panics IndexOutOfRange <-> Priority t < 0) /\
  ((Priority t >=? numQueues w) = false ->
   (is_Some (index (taskChs w) (Priority t)) <-> 0 <= Priority t)).
Proof.
  intros (Hn & _). 
  assert (Hlen : 0 <= numQueues w) by (rewrite Hn; unfold len; lia).
  split; [|split].
  - intros Hneg.
    assert (Hc : (Priority t >=? numQueues w) = false) by lia.
    assert (Hi : index (taskChs w) (Priority t) = None)
      by (apply index_None; auto).
    repeat split; try done. unfold Submit. fields. by rewrite Hc, Hi.
  - split.
    + Submit_paths k t w; try discriminate.
      * unfold send in Hpost. destruct (closed (notifyCh w)); [|done].
        by injection Hpost as <-.
      * unfold send in Hsend. destruct (closed ch); [|done].
        by injection Hsend as <-.
      * intros _. apply index_None in Hindex. lia.
    + intros Hneg. unfold Submit. fields.
      replace (Priority t >=? numQueues w) with false by lia.
      replace (index (taskChs w) (Priority t)) with (@None (chan PriorityTask));
        [done|]. symmetry. apply index_None. auto.
  - intros Hc. rewrite <- not_eq_None_Some, index_None. lia.
Qed.

Lemma Forall2_grown_refl (chs : list (chan PriorityTask)) :
  Forall2 grown chs chs.
Proof.
  induction chs; constructor; auto. repeat split. exists [].
  by rewrite app_nil_r.
Qed.



(** What [Submit] leaves alone, and what it may change: metrics events are
    added, a queue may grow at its back, a notification may be posted. *)
Lemma Submit_frame (k : nat) (t : PriorityTask) (w : impl) :
  let w' := (Submit k t w).2 in
  status w' = status w /\
  numQueues w' = numQueues w /\
  shutdownCh w' = shutdownCh w /\
  dispatcherWG w' = dispatcherWG w /\
  options w' = options w /\
  processor w' = processor w /\
  dispatcherG w' = dispatcherG w /\
  cap (notifyCh w') = cap (notifyCh w) /\
  closed (notifyCh w') = closed (notifyCh w) /\
  Forall2 grown (taskChs w) (taskChs w') /\
  exists evs,
    events w' = events w ++ evs /\
    lifecycle evs = [] /\ forwarded evs = [] /\ nacked evs = [].
Proof.
  assert (Hev : forall evs0 evs : list event,
            lifecycle evs = [] -> forwarded evs = [] -> nacked evs = [] ->
            evs0 = evs ->
            exists evs', events w ++ evs0 = events w ++ evs' /\
              lifecycle evs' = [] /\ forwarded evs' = [] /\ nacked evs' = [])
    by (intros ? evs ? ? ? ->; by exists evs).
  cbn zeta. Submit_paths k t w; rewrite <- ?app_assoc;
    repeat split; auto using Forall2_grown_refl;
    try (eapply Hev; [| | |reflexivity]; reflexivity).
  all: unfold send in *; try destruct (closed (notifyCh w)) eqn:Hcl;
    try discriminate; try (injection Hpost as <-; done).
  all: destruct (closed ch) eqn:Hclosed; try discriminate;
    injection Hsend as <-.
  all: apply index_Some in Hindex as [_ Hindex].
  all: rewrite <- (list_insert_id (taskChs w) (Z.to_nat (Priority t)) ch) at 1
         by done.
  all: unfold store; apply Forall2_insert; [apply Forall2_grown_refl|].
  all: repeat split; try done; by exists [t].
Qed.

(** A [Submit] that returns an error has enqueued nothing and posted
    nothing. *)
Lemma Submit_error_no_enqueue (k : nat) (t : PriorityTask) (w : impl)
    (e : error) :
  (Submit k t w).1 = Returns (Some e) ->
  taskChs (Submit k t w).2 = taskChs w /\
  notifyCh (Submit k t w).2 = notifyCh w.
Proof. Submit_paths k t w; done. Qed.

Lemma Submit_priority_too_high (k : nat) (t : PriorityTask) (w : impl) :
  numQueues w <= Priority t ->
  (Submit k t w).1 = Returns (Some ErrPriorityExceedsLimit) /\
  taskChs (Submit k t w).2 = taskChs w /\
  notifyCh (Submit k t w).2 = notifyCh w.
Proof.
  intros Hhigh. unfold Submit. fields.
  replace (Priority t >=? numQueues w) with true by lia. by fields.
Qed.

(** After the shutdown signal has fired, a [Submit] whose queue has no
    room returns ErrTaskSchedulerClosed, whatever the runtime picks. *)
Lemma Submit_after_shutdown_full (k : nat) (t : PriorityTask) (w : impl)
    (ch : chan PriorityTask) :
  shutdown_fired w = true ->
  index (taskChs w) (Priority t) = Some ch ->
  Priority t < numQueues w ->
  send_ready ch = false ->
  (Submit k t w).1 = Returns (Some ErrTaskSchedulerClosed) /\
  taskChs (Submit k t w).2 = taskChs w.
Proof.
  unfold shutdown_fired. intros Hfired Hch Hp Hfull. unfold Submit. fields.
  replace (Priority t >=? numQueues w) with false by lia.
  rewrite Hch, Hfull. unfold recv_ready. rewrite Hfired.
  replace (match buf (shutdownCh w) with [] => true | _ :: _ => true end)
    with true by (by destruct (buf (shutdownCh w))).
  cbn [when app]. rewrite select_single. by fields.
Qed.

(** The inner [select] of [Submit] has a default case: it never parks. *)
Lemma notify_never_blocks (w : impl) : (notify w).1 <> Blocks.
Proof.
  unfold notify.
  destruct (send_ready (notifyCh w)) eqn:Hready; cbn [when]; [|done].
  rewrite select_single. unfold send.
  by destruct (closed (notifyCh w)).
Qed.


Lemma post_sent (c c' : chan unit) :
  cap c = 1 ->
  (length (buf c) <= 1)%nat ->
  select (when (send_ready c) CaseSendNotify) (Some CaseNotifyDefault) 0
    = Some CaseSendNotify ->
  send c tt = Returns c' ->
  cap c' = 1 /\ buf c' = [tt].
Proof.
  intros Hcap Hlen Hsel Hsend. unfold send, send_ready in *.
  destruct (closed c); [done|]. injection Hsend as <-. cbn in *.
  split; [done|].
  destruct (Z.ltb_spec (len (buf c)) (cap c)) as [Hroom|Hroom]; [|done].
  rewrite Hcap in Hroom. unfold len in Hroom.
  destruct (buf c) as [|[] l]; cbn [length app] in *; [done|exfalso; lia].
Qed.

Lemma post_pending (c : chan unit) :
  cap c = 1 ->
  (length (buf c) <= 1)%nat ->
  select (when (send_ready c) CaseSendNotify) (Some CaseNotifyDefault) 0
    = Some CaseNotifyDefault ->
  buf c = [tt].
Proof.
  intros Hcap Hlen Hsel. unfold send_ready in *.
  destruct (closed c); [done|]. cbn in Hsel.
  destruct (Z.ltb_spec (len (buf c)) (cap c)) as [Hroom|Hroom]; [done|].
  rewrite Hcap in Hroom. unfold len in Hroom.
  destruct (buf c) as [|[] [|]]; cbn [length] in *; [exfalso; lia|done|exfalso; lia].
Qed.

(** [Submit] and the notification signal. *)
Lemma Submit_notify (k : nat) (t : PriorityTask) (w : impl) :
  pending_ok w ->
  pending_ok (Submit k t w).2 /\
  ((Submit k t w).1 = Returns None -> buf (notifyCh (Submit k t w).2) = [tt]) /\
  ((Submit k t w).1 <> Returns None ->
   notifyCh (Submit k t w).2 = notifyCh w).
Proof.
  unfold pending_ok, pending. intros [Hcap Hlen].
  Submit_paths k t w; repeat split; try done.
  - by destruct (post_sent _ _ Hcap Hlen Hnotify Hpost).
  - destruct (post_sent _ _ Hcap Hlen Hnotify Hpost) as [_ ->]. cbn. lia.
  - by destruct (post_sent _ _ Hcap Hlen Hnotify Hpost).
  - intros _. by apply post_pending.
Qed.

Lemma Forall2_grown_wf (chs chs' : list (chan PriorityTask)) :
  Forall2 grown chs chs' ->
  len chs' = len chs /\
  (Forall (fun ch => closed ch = false) chs ->
   Forall (fun ch => closed ch = false) chs').
Proof.
  intros Hg. split.
  - unfold len. by rewrite (Forall2_length _ _ _ Hg).
  - intros Hopen. induction Hg as [|ch ch' chs chs' (_ & Hcl & _) Hg IH];
      [done|].
    apply Forall_cons in Hopen as [H1 H2]. constructor; [congruence|auto].
Qed.

Lemma Forall2_drained_wf (chs chs' : list (chan PriorityTask)) :
  Forall2 drained chs chs' ->
  len chs' = len chs /\
  (Forall (fun ch => closed ch = false) chs ->
   Forall (fun ch => closed ch = false) chs').
Proof.
  intros Hg. split.
  - unfold len. by rewrite (Forall2_length _ _ _ Hg).
  - intros Hopen. induction Hg as [|ch ch' chs chs' (_ & Hcl & _) Hg IH];
      [done|].
    apply Forall_cons in Hopen as [H1 H2]. constructor; [congruence|auto].
Qed.

Lemma Submit_wf (k : nat) (t : PriorityTask) (w : impl) :
  wf w -> wf (Submit k t w).2.
Proof.
  intros (Hn & Hw & Hopen & Hnot & Hbuf).
  destruct (Submit_frame k t w)
    as (_ & Hn' & Hsh' & _ & Hopt' & _ & _ & _ & Hcl' & Hq & _).
  destruct (Forall2_grown_wf _ _ Hq) as [Hlen Hopen'].
  unfold wf. rewrite Hn', Hsh', Hopt', Hcl', Hlen. auto.
Qed.


(** *** The round while the shutdown signal has not fired *)

Lemma settle_id (w : impl) : settle w (taskChs w) [] = w.
Proof. destruct w. unfold settle, reports. cbn. by rewrite app_nil_r. Qed.

Lemma answers_app (ps : PS) (ts1 ts2 : list PriorityTask) :
  answers ps (ts1 ++ ts2)
    = ((answers (answers ps ts1).1 ts2).1,
       (answers ps ts1).2 ++ (answers (answers ps ts1).1 ts2).2).
Proof.
  revert ps. induction ts1 as [|t ts1 IH]; intros ps; cbn.
  - by destruct (answers ps ts2).
  - destruct (processor_Submit ps t) as [ps' err]. rewrite IH.
    destruct (answers ps' ts1) as [ps1 r1]. cbn.
    by destruct (answers ps1 ts2).
Qed.

Lemma reports_app (r1 r2 : list (PriorityTask * option error)) :
  reports (r1 ++ r2) = reports r1 ++ reports r2.
Proof. unfold reports. by rewrite map_app, concat_app. Qed.

Lemma settle_settle (w : impl) (chs1 chs2 : list (chan PriorityTask))
    (ts1 ts2 : list PriorityTask) :
  settle (settle w chs1 ts1) chs2 ts2 = settle w chs2 (ts1 ++ ts2).
Proof.
  unfold settle. cbn [status numQueues taskChs shutdownCh notifyCh dispatcherWG
    options processor dispatcherG events].
  rewrite answers_app. cbn [fst snd].
  by rewrite reports_app, app_assoc.
Qed.

Lemma pop_attempt_quiet_task (k : nat) (priority : Z) (w : impl) (o : bool)
    (ch : chan PriorityTask) (task : PriorityTask) (rest : list PriorityTask) :
  index (taskChs w) priority = Some ch ->
  buf ch = task :: rest ->
  recv_ready (shutdownCh w) = false ->
  pop_attempt k priority w o
    = (Dispatched,
       settle w (store (taskChs w) priority (MkChan rest (cap ch) (closed ch)))
         [task],
       true).
Proof.
  intros Hch Hbuf Hsh. unfold pop_attempt. rewrite Hch, Hsh.
  unfold recv_ready, recv. rewrite Hbuf. cbn [when app].
  rewrite select_single. fields.
  destruct (processor_Submit (processor w) task) as [ps [e|]] eqn:Hps;
    do 2 f_equal; same_fields; cbn [answers]; rewrite Hps; try reflexivity;
    unfold reports; cbn; rewrite ?app_nil_r, <- ?app_assoc; reflexivity.
Qed.

Lemma pop_attempt_quiet_empty (k : nat) (priority : Z) (w : impl) (o : bool)
    (ch : chan PriorityTask) :
  index (taskChs w) priority = Some ch ->
  buf ch = [] ->
  closed ch = false ->
  recv_ready (shutdownCh w) = false ->
  pop_attempt k priority w o = (QueueEmpty, w, o).
Proof.
  intros Hch Hbuf Hopen Hsh. unfold pop_attempt. rewrite Hch, Hsh.
  unfold recv_ready. rewrite Hbuf, Hopen. reflexivity.
Qed.

Lemma pop_loop_quiet (n : nat) (pick : Z -> nat) (priority i : Z) (w : impl)
    (o : bool) (ch : chan PriorityTask) :
  index (taskChs w) priority = Some ch ->
  closed ch = false ->
  recv_ready (shutdownCh w) = false ->
  pop_loop n pick priority i w o
    = (Next,
       settle w (store (taskChs w) priority (without_oldest n ch)) (oldest n ch),
       o || nonempty (oldest n ch)).
Proof.
  revert i w o ch. induction n as [|n IH]; intros i w o ch Hch Hopen Hsh.
  - cbn. unfold without_oldest, oldest, store. rewrite take_0, drop_0.
    apply index_Some in Hch as [_ Hch].
    replace (MkChan (buf ch) (cap ch) (closed ch)) with ch by by destruct ch.
    rewrite list_insert_id by done. by rewrite settle_id, orb_false_r.
  - cbn [pop_loop]. destruct (buf ch) as [|task rest] eqn:Hbuf.
    + rewrite (pop_attempt_quiet_empty _ _ _ _ ch) by done.
      rewrite (IH _ _ _ ch) by done.
      unfold without_oldest, oldest. rewrite Hbuf. by rewrite !take_nil, !drop_nil.
    + rewrite (pop_attempt_quiet_task _ _ _ _ ch task rest) by done.
      set (ch1 := MkChan rest (cap ch) (closed ch)).
      pose proof Hch as Hch'. apply index_Some in Hch' as [Hp Hl].
      assert (Hlt : (Z.to_nat priority < length (taskChs w))%nat)
        by (eapply lookup_lt_Some; eassumption).
      rewrite (IH _ _ _ ch1).
      * rewrite settle_settle. cbn [settle taskChs]. unfold store.
        rewrite list_insert_insert_eq.
        unfold without_oldest, oldest. rewrite Hbuf. cbn.
        by rewrite orb_true_r.
      * apply index_Some. split; [done|]. cbn [settle taskChs]. unfold store.
        by apply list_lookup_insert_eq.
      * done.
      * done.
Qed.

Lemma oldest_quota (weight : Z) (ch : chan PriorityTask) :
  oldest (Z.to_nat weight) ch = oldest (quota weight ch) ch.
Proof.
  unfold oldest, quota, len.
  destruct (Z.le_gt_cases weight (Z.of_nat (length (buf ch)))) as [Hle|Hgt].
  - by rewrite Z.min_l.
  - rewrite Z.min_r by lia. rewrite Nat2Z.id. rewrite !take_ge; [done|lia..].
Qed.

Lemma without_oldest_quota (weight : Z) (ch : chan PriorityTask) :
  without_oldest (Z.to_nat weight) ch = without_oldest (quota weight ch) ch.
Proof.
  unfold without_oldest, quota, len.
  destruct (Z.le_gt_cases weight (Z.of_nat (length (buf ch)))) as [Hle|Hgt].
  - by rewrite Z.min_l.
  - rewrite Z.min_r by lia. rewrite Nat2Z.id. rewrite !drop_ge; [done|lia..].
Qed.

Lemma index_app_middle {A : Type} (l1 l2 : list A) (x : A) :
  index (l1 ++ x :: l2) (len l1) = Some x.
Proof.
  apply index_Some. unfold len. split; [lia|].
  rewrite Nat2Z.id. by rewrite list_lookup_middle.
Qed.

Lemma store_app_middle {A : Type} (l1 l2 : list A) (x y : A) :
  store (l1 ++ x :: l2) (len l1) y = l1 ++ y :: l2.
Proof.
  unfold store, len. rewrite Nat2Z.id.
  rewrite insert_app_r_alt by lia. by rewrite Nat.sub_diag.
Qed.

Lemma nonempty_app {A : Type} (l1 l2 : list A) :
  nonempty (l1 ++ l2) = nonempty l1 || nonempty l2.
Proof. by destruct l1. Qed.

Lemma priority_loop_quiet (pick : Z -> Z -> nat)
    (todo : list (chan PriorityTask)) :
  forall (done : list (chan PriorityTask)) (wdone wtodo : list Z) (w : impl)
         (o : bool),
  taskChs w = done ++ todo ->
  Weights (options w) = wdone ++ wtodo ->
  length wdone = length done ->
  length wtodo = length todo ->
  Forall (fun ch => closed ch = false) todo ->
  recv_ready (shutdownCh w) = false ->
  priority_loop (length todo) pick (len done) w o
    = (Next,
       settle w (done ++ round_queues todo wtodo) (round_tasks todo wtodo),
       o || nonempty (round_tasks todo wtodo)).
Proof.
  induction todo as [|ch todo IH];
    intros done wdone wtodo w o Hchs Hws Hlen1 Hlen2 Hopen Hsh.
  - cbn. unfold round_queues, round_tasks. cbn.
    rewrite <- Hchs. by rewrite settle_id, orb_false_r.
  - destruct wtodo as [|weight wtodo]; [discriminate|].
    apply Forall_cons in Hopen as [Hopen1 Hopen].
    cbn [length priority_loop]. unfold drain_priority.
    replace (index (Weights (options w)) (len done)) with (Some weight).
    2:{ rewrite Hws. replace (len done) with (len wdone) by (unfold len; lia).
        by rewrite index_app_middle. }
    rewrite (pop_loop_quiet _ _ _ _ _ _ ch); [|by rewrite Hchs, index_app_middle|done..].
    rewrite Hchs, store_app_middle.
    replace (len done + 1) with (len (done ++ [without_oldest (Z.to_nat weight) ch]))
      by (unfold len; rewrite length_app; cbn; lia).
    rewrite (IH _ (wdone ++ [weight]) wtodo).
    + rewrite settle_settle. unfold round_queues, round_tasks.
      cbn [zip_with concat].
      rewrite <- oldest_quota, <- without_oldest_quota.
      rewrite nonempty_app, orb_assoc. by rewrite <- app_assoc.
    + fields. by rewrite <- app_assoc.
    + fields. by rewrite Hws, <- app_assoc.
    + rewrite !length_app. cbn. lia.
    + cbn in Hlen2. lia.
    + done.
    + done.
Qed.

Lemma round_quiet (pick : Z -> Z -> nat) (w : impl) :
  wf w ->
  shutdown_fired w = false ->
  round pick w
    = (Next,
       settle w (round_queues (taskChs w) (Weights (options w)))
         (round_tasks (taskChs w) (Weights (options w))),
       nonempty (round_tasks (taskChs w) (Weights (options w)))).
Proof.
  intros (Hn & Hw & Hopen & _ & Hbuf) Hsh. unfold round.
  replace (Z.to_nat (numQueues w)) with (length (taskChs w))
    by (rewrite Hn; unfold len; lia).
  rewrite (priority_loop_quiet pick (taskChs w) [] [] (Weights (options w)));
    try done.
  - unfold len in *. lia.
  - unfold recv_ready. rewrite Hbuf. exact Hsh.
Qed.

Lemma round_queues_lookup (chs : list (chan PriorityTask)) (weights : list Z)
    (i : nat) (ch : chan PriorityTask) (weight : Z) :
  chs !! i = Some ch ->
  weights !! i = Some weight ->
  round_queues chs weights !! i = Some (without_oldest (quota weight ch) ch).
Proof.
  intros Hch Hw. unfold round_queues. rewrite lookup_zip_with, Hch. cbn.
  by rewrite Hw.
Qed.

Lemma quota_min (weight : Z) (ch : chan PriorityTask) :
  0 <= weight ->
  len (oldest (quota weight ch) ch) = Z.min weight (len (buf ch)).
Proof.
  intros Hw. unfold oldest, quota, len. rewrite length_take. lia.
Qed.

Lemma answers_accepting (ps : PS) (tasks : list PriorityTask) :
  (forall ps t, (processor_Submit ps t).2 = None) ->
  reports (answers ps tasks).2 = (fun t => EvProcessorSubmit t None) <$> tasks.
Proof.
  intros Hacc. revert ps. induction tasks as [|t tasks IH]; intros ps; [done|].
  cbn [answers]. specialize (Hacc ps t).
  destruct (processor_Submit ps t) as [ps' err]. cbn in Hacc. subst err.
  specialize (IH ps'). destruct (answers ps' tasks) as [ps'' more].
  unfold reports in *. cbn in *. by rewrite IH.
Qed.

(** C1: with a Processor that accepts every task and the shutdown signal
    not fired, a round started on any well-formed scheduler, whatever its
    weights and its backlog, runs to its end and takes from the queue of
    each class [i] its [quota] = min(W[i], length of queue i) oldest tasks
    (none when W[i] is below one), leaving the rest of that queue in place;
    the tasks are handed to [Processor.Submit] class after class, class 0
    first, each class in FIFO order.  The number taken from a class depends
    on its own weight and queue only. *)
Theorem round_weighted_quota (pick : Z -> Z -> nat) (w : impl) :
  wf w ->
  shutdown_fired w = false ->
  (forall ps t, (processor_Submit ps t).2 = None) ->
  exists w',
    round pick w
      = (Next, w', nonempty (round_tasks (taskChs w) (Weights (options w)))) /\
    taskChs w' = round_queues (taskChs w) (Weights (options w)) /\
    events w'
      = events w ++
        ((fun t => EvProcessorSubmit t None) <$>
           concat (zip_with (fun ch weight => take (quota weight ch) (buf ch))
                     (taskChs w) (Weights (options w)))) /\
    forall (i : nat) (ch : chan PriorityTask) (weight : Z),
      taskChs w !! i = Some ch ->
      Weights (options w) !! i = Some weight ->
      exists ch',
        taskChs w' !! i = Some ch' /\
        buf ch = take (quota weight ch) (buf ch) ++ buf ch' /\
        cap ch' = cap ch /\
        (0 <= weight ->
         len (take (quota weight ch) (buf ch)) = Z.min weight (len (buf ch))).
Proof.
  intros Hwf Hsh Hacc. rewrite (round_quiet pick w Hwf Hsh).
  eexists. split; [reflexivity|]. fields. split; [reflexivity|]. split.
  - by rewrite (answers_accepting _ _ Hacc).
  - intros i ch weight Hch Hw.
    exists (without_oldest (quota weight ch) ch). split; [|split; [|split]].
    + by apply round_queues_lookup.
    + cbn. by rewrite take_drop.
    + done.
    + apply quota_min.
Qed.

Lemma forwarded_reports (results : list (PriorityTask * option error)) :
  forwarded (reports results) = results.
Proof.
  induction results as [|[t [e|]] results IH]; [done|..];
    unfold reports, forwarded in *; cbn; by rewrite IH.
Qed.

Lemma nacked_reports (results : list (PriorityTask * option error)) :
  nacked (reports results) = rejected results.
Proof.
  induction results as [|[t [e|]] results IH]; [done|..];
    unfold reports, nacked, rejected in *; cbn; by rewrite IH.
Qed.

Lemma logged_errors_reports (results : list (PriorityTask * option error)) :
  logged_errors (reports results) = rejections results.
Proof.
  induction results as [|[t [e|]] results IH]; [done|..];
    unfold reports, logged_errors, rejections in *; cbn; by rewrite IH.
Qed.

Lemma answers_tasks (ps : PS) (tasks : list PriorityTask) :
  (answers ps tasks).2.*1 = tasks.
Proof.
  revert ps. induction tasks as [|t tasks IH]; intros ps; [done|].
  cbn [answers]. destruct (processor_Submit ps t) as [ps' err].
  specialize (IH ps'). destruct (answers ps' tasks) as [ps'' more].
  cbn in *. by rewrite IH.
Qed.

Lemma rejected_all (ps : PS) (tasks : list PriorityTask) :
  (forall ps t, is_Some (processor_Submit ps t).2) ->
  rejected (answers ps tasks).2 = tasks.
Proof.
  intros Hrej. revert ps. induction tasks as [|t tasks IH]; intros ps; [done|].
  cbn [answers]. destruct (Hrej ps t) as [e He].
  destruct (processor_Submit ps t) as [ps' err]. cbn in He. subst err.
  specialize (IH ps'). destruct (answers ps' tasks) as [ps'' more].
  unfold rejected in *. cbn in *. by rewrite IH.
Qed.

Lemma idle_wait_quiet (k : nat) (w : impl) :
  recv_ready (shutdownCh w) = false ->
  idle_wait k w
    = if recv_ready (notifyCh w)
      then Some (Next, with_notifyCh w (recv (notifyCh w)).2)
      else None.
Proof.
  intros Hsh. unfold idle_wait. rewrite Hsh.
  destruct (recv_ready (notifyCh w)); cbn [when app]; [|done].
  by rewrite select_single.
Qed.

Lemma wf_with_notifyCh (w : impl) :
  wf w -> wf (with_notifyCh w (recv (notifyCh w)).2).
Proof.
  intros (Hn & Hw & Hopen & Hnot & Hbuf). unfold wf. fields.
  repeat split; try done.
  unfold recv. by destruct (buf (notifyCh w)).
Qed.

(** While the shutdown signal has not fired, an iteration of the dispatcher
    either parks at the idle wait or runs a whole round and is back at the
    top of the loop. *)
Lemma dispatcher_iteration_quiet (k : nat) (pick : Z -> Z -> nat) (w : impl)
    (o : bool) :
  wf w ->
  shutdown_fired w = false ->
  dispatcherG w = AtLoopTop o ->
  dispatcher_iteration k pick w
    = if o || recv_ready (notifyCh w)
      then
        (Returns tt,
         with_dispatcherG
           (settle (if o then w else with_notifyCh w (recv (notifyCh w)).2)
              (round_queues (taskChs w) (Weights (options w)))
              (round_tasks (taskChs w) (Weights (options w))))
           (AtLoopTop (nonempty (round_tasks (taskChs w) (Weights (options w))))))
      else (Blocks, w).
Proof.
  intros Hwf Hsh Hg. unfold dispatcher_iteration. rewrite Hg.
  assert (Hsh' : recv_ready (shutdownCh w) = false).
  { destruct Hwf as (_ & _ & _ & _ & Hbuf). unfold recv_ready.
    by rewrite Hbuf. }
  destruct o; cbn [negb orb].
  - by rewrite (round_quiet pick w Hwf Hsh).
  - rewrite (idle_wait_quiet k w Hsh').
    destruct (recv_ready (notifyCh w)); [|done].
    by rewrite (round_quiet pick _ (wf_with_notifyCh w Hwf) Hsh).
Qed.


(** *** The round in every state *)

Lemma drained_refl (ch : chan PriorityTask) : drained ch ch.
Proof. repeat split. by exists []. Qed.

Lemma drained_trans (ch1 ch2 ch3 : chan PriorityTask) :
  drained ch1 ch2 -> drained ch2 ch3 -> drained ch1 ch3.
Proof.
  intros (Hc1 & Hd1 & g1 & Hg1) (Hc2 & Hd2 & g2 & Hg2).
  repeat split; [congruence..|].
  exists (g1 ++ g2). by rewrite Hg1, Hg2, app_assoc.
Qed.

Lemma Forall2_drained_refl (chs : list (chan PriorityTask)) :
  Forall2 drained chs chs.
Proof. induction chs; constructor; auto using drained_refl. Qed.

Lemma dequeues_refl (w : impl) : dequeues w w.
Proof.
  repeat split; auto using Forall2_drained_refl.
  exists []. unfold reports. cbn. by rewrite app_nil_r.
Qed.

Lemma dequeues_trans (w1 w2 w3 : impl) :
  dequeues w1 w2 -> dequeues w2 w3 -> dequeues w1 w3.
Proof.
  intros (? & ? & ? & ? & ? & ? & ? & Hq1 & r1 & Hr1)
         (? & ? & ? & ? & ? & ? & ? & Hq2 & r2 & Hr2).
  repeat split; try congruence.
  - eapply Forall2_trans; [|exact Hq1|exact Hq2]. apply drained_trans.
  - exists (r1 ++ r2). by rewrite Hr2, Hr1, reports_app, app_assoc.
Qed.

Lemma pop_attempt_dequeues (k : nat) (priority : Z) (w : impl) (o : bool) :
  dequeues w (pop_attempt k priority w o).1.2.
Proof.
  unfold pop_attempt.
  destruct (index (taskChs w) priority) as [ch|] eqn:Hch;
    [|apply dequeues_refl].
  destruct (select _ _ k) as [[ | | ]|]; try apply dequeues_refl.
  unfold recv. destruct (buf ch) as [|t rest] eqn:Hbuf; [apply dequeues_refl|].
  apply index_Some in Hch as [_ Hch].
  assert (Hq : Forall2 drained (taskChs w)
                 (store (taskChs w) priority (MkChan rest (cap ch) (closed ch)))).
  { rewrite <- (list_insert_id (taskChs w) (Z.to_nat priority) ch) at 1 by done.
    unfold store. apply Forall2_insert; [apply Forall2_drained_refl|].
    repeat split. exists [t]. by rewrite Hbuf. }
  fields. destruct (processor_Submit (processor w) t) as [ps [e|]]; fields;
    repeat split; try done.
  - exists [(t, Some e)]. unfold reports. cbn. by rewrite <- !app_assoc.
  - exists [(t, None)]. unfold reports. by cbn.
Qed.

Lemma pop_loop_dequeues (n : nat) (pick : Z -> nat) (priority i : Z)
    (w : impl) (o : bool) :
  dequeues w (pop_loop n pick priority i w o).1.2.
Proof.
  revert i w o. induction n as [|n IH]; intros i w o; cbn [pop_loop];
    [apply dequeues_refl|].
  pose proof (pop_attempt_dequeues (pick i) priority w o) as Ha.
  destruct (pop_attempt (pick i) priority w o) as [[[ | | |p] w'] o']; cbn in Ha;
    try done.
  all: eapply dequeues_trans; [exact Ha|apply IH].
Qed.

Lemma priority_loop_dequeues (n : nat) (pick : Z -> Z -> nat) (priority : Z)
    (w : impl) (o : bool) :
  dequeues w (priority_loop n pick priority w o).1.2.
Proof.
  revert priority w o. induction n as [|n IH]; intros priority w o;
    cbn [priority_loop]; [apply dequeues_refl|].
  unfold drain_priority.
  destruct (index (Weights (options w)) priority) as [weight|];
    [|apply dequeues_refl].
  pose proof (pop_loop_dequeues (Z.to_nat weight) (pick priority) priority 0 w o)
    as Hl.
  destruct (pop_loop _ _ _ _ _ _) as [[[ | |p] w'] o']; cbn in Hl; try done.
  eapply dequeues_trans; [exact Hl|apply IH].
Qed.

Lemma round_dequeues (pick : Z -> Z -> nat) (w : impl) :
  dequeues w (round pick w).1.2.
Proof. apply priority_loop_dequeues. Qed.

Lemma round_reports (pick : Z -> Z -> nat) (w : impl) :
  exists new,
    events (round pick w).1.2 = events w ++ new /\
    nacked new = rejected (forwarded new) /\
    logged_errors new = rejections (forwarded new).
Proof.
  destruct (round_dequeues pick w) as (_ & _ & _ & _ & _ & _ & _ & _ & r & Hr).
  exists (reports r). split; [done|].
  by rewrite forwarded_reports, nacked_reports, logged_errors_reports.
Qed.

(** C6: in every round, whatever the state of the scheduler and wherever
    the round ends, the tasks whose [Nack] is invoked are the tasks the
    Processor rejected, once each and in the same order, and the errors
    logged are the errors it gave; no [Nack] follows an accepted task.
    While the shutdown signal has not fired, a round on a well-formed
    scheduler forwards each task it dequeues to the Processor once, the
    same tasks in the same order as with a Processor that accepts
    everything, whatever the Processor answers, so with a Processor that
    rejects everything the tasks Nacked are the tasks dequeued, once each;
    the round runs to its end, and the dispatcher iteration that contains
    it leaves the dispatcher at the top of its loop, with
    [outstandingTasks] set as soon as a task was dequeued: it does not
    return. *)
Theorem rejected_tasks_nacked (k : nat) (pick : Z -> Z -> nat) (w : impl) :
  (exists new,
     events (round pick w).1.2 = events w ++ new /\
     nacked new = rejected (forwarded new) /\
     logged_errors new = rejections (forwarded new)) /\
  (wf w ->
   shutdown_fired w = false ->
   let tasks := round_tasks (taskChs w) (Weights (options w)) in
   let results := (answers (processor w) tasks).2 in
   (exists w' new,
      round pick w = (Next, w', nonempty tasks) /\
      taskChs w' = round_queues (taskChs w) (Weights (options w)) /\
      events w' = events w ++ new /\
      forwarded new = results /\
      results.*1 = tasks /\
      nacked new = rejected results /\
      logged_errors new = rejections results /\
      ((forall ps t, is_Some (processor_Submit ps t).2) -> nacked new = tasks)) /\
   (forall o, dispatcherG w = AtLoopTop o ->
      exists o', dispatcherG (dispatcher_iteration k pick w).2 = AtLoopTop o') /\
   (dispatcherG w = AtLoopTop true ->
      (dispatcher_iteration k pick w).1 = Returns tt /\
      dispatcherG (dispatcher_iteration k pick w).2
        = AtLoopTop (nonempty tasks))).
Proof.
  split; [apply round_reports|].
  intros Hwf Hsh tasks results. split; [|split].
  - rewrite (round_quiet pick w Hwf Hsh). eexists. exists (reports results).
    split; [reflexivity|]. fields. repeat split.
    + apply forwarded_reports.
    + apply answers_tasks.
    + apply nacked_reports.
    + apply logged_errors_reports.
    + intros Hrej. rewrite nacked_reports. by apply rejected_all.
  - intros o Hg. rewrite (dispatcher_iteration_quiet k pick w o Hwf Hsh Hg).
    destruct (o || recv_ready (notifyCh w)); fields; eauto.
  - intros Hg. rewrite (dispatcher_iteration_quiet k pick w true Hwf Hsh Hg).
    cbn [orb]. by fields.
Qed.

(** *** Start and Stop *)

Lemma Start_first (w : impl) :
  status w = DaemonStatusInitialized ->
  Start w
    = (Returns tt,
       MkImpl DaemonStatusStarted (numQueues w) (taskChs w) (shutdownCh w)
         (notifyCh w) (dispatcherWG w + 1) (options w)
         (processor_Start (processor w)) (AtLoopTop false)
         (events w ++
          [EvProcessorStart; EvGoDispatcher;
           EvLogInfo "Weighted round robin task scheduler started."])).
Proof.
  intros Hst. unfold Start. rewrite Hst.
  cbn [CompareAndSwapInt32 DaemonStatus_eqb]. f_equal. same_fields.
  by rewrite <- !app_assoc.
Qed.

Lemma Start_repeated (w : impl) :
  status w <> DaemonStatusInitialized -> Start w = (Returns tt, w).
Proof. intros Hst. unfold Start. by destruct (status w). Qed.

Lemma Stop_first (awaited : bool) (w : impl) :
  status w = DaemonStatusStarted ->
  shutdown_fired w = false ->
  Stop awaited w
    = (Returns tt,
       MkImpl DaemonStatusStopped (numQueues w) (taskChs w)
         (MkChan (buf (shutdownCh w)) (cap (shutdownCh w)) true)
         (notifyCh w) (dispatcherWG w) (options w)
         (processor_Stop (processor w)) (dispatcherG w)
         (events w ++
          [EvProcessorStop] ++
          (if awaited then []
           else [EvLogWarn
                   "Weighted round robin task scheduler timedout on shutdown."]) ++
          [EvLogInfo "Weighted round robin task scheduler shutdown."])).
Proof.
  unfold shutdown_fired. intros Hst Hsh. unfold Stop, close.
  rewrite Hst. cbn [CompareAndSwapInt32 DaemonStatus_eqb]. fields. rewrite Hsh.
  f_equal. destruct awaited; cbn [negb]; same_fields;
    by rewrite <- !app_assoc.
Qed.

Lemma Stop_repeated (awaited : bool) (w : impl) :
  status w <> DaemonStatusStarted -> Stop awaited w = (Returns tt, w).
Proof. intros Hst. unfold Stop. by destruct (status w). Qed.

(** *** An iteration of the dispatcher in every state *)

Lemma idle_wait_effect (k : nat) (w w1 : impl) (f : flow) :
  idle_wait k w = Some (f, w1) ->
  (f = Next /\ w1 = with_notifyCh w (recv (notifyCh w)).2) \/
  (f = Return /\ w1 = w /\ recv_ready (shutdownCh w) = true).
Proof.
  unfold idle_wait.
  destruct (select _ None k) as [[ | ]|] eqn:Hsel; intros [= <- <-]; auto.
  right. repeat split.
  destruct (recv_ready (notifyCh w)), (recv_ready (shutdownCh w));
    cbn [when app] in Hsel; rewrite ?select_single in Hsel; done.
Qed.

(** Where an iteration leaves the scheduler: nothing moves when the
    goroutine is not at the top of its loop; otherwise a notification may be
    consumed, then the loops of a round run, and the goroutine is back at
    the top of the loop, parked, or returned. *)
Lemma dispatcher_iteration_effect (k : nat) (pick : Z -> Z -> nat) (w : impl) :
  let w' := (dispatcher_iteration k pick w).2 in
  (dispatcherG w <> NotSpawned /\ dispatcherG w' <> NotSpawned \/ w' = w) /\
  (dispatcherG w = Returned \/ dispatcherG w = NotSpawned -> w' = w) /\
  exists w1 w2,
    (w1 = w \/ w1 = with_notifyCh w (recv (notifyCh w)).2) /\
    dequeues w1 w2 /\
    (w' = w2 \/ (exists o', w' = with_dispatcherG w2 (AtLoopTop o')) \/
     w' = dispatcher_return w2).
Proof.
  cbn zeta. unfold dispatcher_iteration.
  destruct (dispatcherG w) as [|o|] eqn:Hg.
  - split; [by right|]. split; [done|].
    exists w, w. auto using dequeues_refl.
  - assert (Hround : forall w1, w1 = w \/ w1 = with_notifyCh w (recv (notifyCh w)).2 ->
      let r := match round pick w1 with
               | (Next, w', o') => (Returns tt, with_dispatcherG w' (AtLoopTop o'))
               | (Return, w', _) => (Returns tt, dispatcher_return w')
               | (Panic p, w', _) => (Panics p, dispatcher_return w')
               end in
      dispatcherG r.2 <> NotSpawned /\
      exists w1 w2,
        (w1 = w \/ w1 = with_notifyCh w (recv (notifyCh w)).2) /\
        dequeues w1 w2 /\
        (r.2 = w2 \/ (exists o', r.2 = with_dispatcherG w2 (AtLoopTop o')) \/
         r.2 = dispatcher_return w2)).
    { intros w1 Hw1. cbn zeta.
      pose proof (round_dequeues pick w1) as Hd.
      destruct (round pick w1) as [[[ | |p] w2] o']; cbn [fst snd] in *.
      all: split; [by fields|].
      all: exists w1, w2; split; [done|]; split; [done|].
      - right. left. by exists o'.
      - by right; right.
      - by right; right. }
    assert (Hparked : exists w1 w2 : impl,
              (w1 = w \/ w1 = with_notifyCh w (recv (notifyCh w)).2) /\
              dequeues w1 w2 /\
              (w = w2 \/ (exists o', w = with_dispatcherG w2 (AtLoopTop o')) \/
               w = dispatcher_return w2))
      by (exists w, w; auto using dequeues_refl).
    assert (Hreturn : exists w1 w2 : impl,
              (w1 = w \/ w1 = with_notifyCh w (recv (notifyCh w)).2) /\
              dequeues w1 w2 /\
              (dispatcher_return w = w2 \/
               (exists o', dispatcher_return w = with_dispatcherG w2 (AtLoopTop o')) \/
               dispatcher_return w = dispatcher_return w2))
      by (exists w, w; auto using dequeues_refl).
    destruct o; cbn [negb].
    + destruct (Hround w (or_introl eq_refl)) as [H1 H2].
      split; [left; by split|]. split; [by intros [|]|]. exact H2.
    + destruct (idle_wait k w) as [[f w1]|] eqn:Hwait.
      * apply idle_wait_effect in Hwait as [[-> ->]|(-> & -> & _)].
        -- destruct (Hround _ (or_intror eq_refl)) as [H1 H2].
           split; [left; by split|]. split; [by intros [|]|]. exact H2.
        -- split; [left; split; [done|by fields]|]. split; [by intros [|]|].
           exact Hreturn.
      * split; [by right|]. split; [done|]. exact Hparked.
  - split; [by right|]. split; [done|].
    exists w, w. auto using dequeues_refl.
Qed.

Lemma recv_rest {A : Type} (c : chan A) :
  cap (recv c).2 = cap c /\
  closed (recv c).2 = closed c /\
  (length (buf (recv c).2) <= length (buf c))%nat.
Proof.
  unfold recv. destruct (buf c) as [|x rest] eqn:Hbuf; cbn; [|auto with lia].
  rewrite Hbuf. auto.
Qed.

Lemma dispatcher_iteration_frame (k : nat) (pick : Z -> Z -> nat) (w : impl) :
  let w' := (dispatcher_iteration k pick w).2 in
  status w' = status w /\
  numQueues w' = numQueues w /\
  shutdownCh w' = shutdownCh w /\
  options w' = options w /\
  cap (notifyCh w') = cap (notifyCh w) /\
  closed (notifyCh w') = closed (notifyCh w) /\
  (length (buf (notifyCh w')) <= length (buf (notifyCh w)))%nat /\
  Forall2 drained (taskChs w) (taskChs w') /\
  exists results, events w' = events w ++ reports results.
Proof.
  destruct (dispatcher_iteration_effect k pick w)
    as (_ & _ & w1 & w2 & Hw1 & Hd & Hw').
  cbn zeta.
  assert (H1 : status w1 = status w /\ numQueues w1 = numQueues w /\
               shutdownCh w1 = shutdownCh w /\ options w1 = options w /\
               cap (notifyCh w1) = cap (notifyCh w) /\
               closed (notifyCh w1) = closed (notifyCh w) /\
               (length (buf (notifyCh w1)) <= length (buf (notifyCh w)))%nat /\
               taskChs w1 = taskChs w /\ events w1 = events w).
  { destruct (recv_rest (notifyCh w)) as (R1 & R2 & R3).
    destruct Hw1 as [->| ->]; fields; repeat split; done. }
  destruct H1 as (E1 & E2 & E3 & E4 & E5 & E6 & E7 & E8 & E9).
  destruct Hd as (D1 & D2 & D3 & D4 & _ & D6 & _ & D8 & D9).
  rewrite E8 in D8. rewrite E9 in D9. rewrite <- D4 in E5, E6, E7.
  destruct Hw' as [->|[[o' ->]| ->]]; fields;
    repeat split; try congruence; try done.
Qed.

(** *** What every run from construction keeps *)

Lemma lifecycle_app (evs1 evs2 : list event) :
  lifecycle (evs1 ++ evs2) = lifecycle evs1 ++ lifecycle evs2.
Proof. apply omap_app. Qed.

Lemma forwarded_app (evs1 evs2 : list event) :
  forwarded (evs1 ++ evs2) = forwarded evs1 ++ forwarded evs2.
Proof. apply omap_app. Qed.

Lemma nacked_app (evs1 evs2 : list event) :
  nacked (evs1 ++ evs2) = nacked evs1 ++ nacked evs2.
Proof. apply omap_app. Qed.

Lemma lifecycle_reports (results : list (PriorityTask * option error)) :
  lifecycle (reports results) = [].
Proof.
  induction results as [|[t [e|]] results IH]; [done|..];
    unfold reports, lifecycle in *; cbn; by rewrite IH.
Qed.

Lemma inv_transport (w w' : impl) :
  inv w ->
  wf w' ->
  pending_ok w' ->
  status w' = status w ->
  shutdownCh w' = shutdownCh w ->
  lifecycle (events w') = lifecycle (events w) ->
  (dispatcherG w <> NotSpawned /\ dispatcherG w' <> NotSpawned \/
   dispatcherG w' = dispatcherG w) ->
  inv w'.
Proof.
  intros (_ & _ & Hl) Hwf Hp Hst Hsh Hev Hg. repeat split; try apply Hwf;
    try apply Hp.
  unfold lifecycle_inv, shutdown_fired in *. rewrite Hst, Hsh, Hev.
  destruct (status w); destruct Hl as (? & ? & ?); repeat split; try done.
  - destruct Hg as [[? ?]|Hg]; congruence.
  - destruct Hg as [[? ?]|Hg]; congruence.
  - destruct Hg as [[? ?]|Hg]; congruence.
Qed.

Lemma inv_New (opts : WeightedRoundRobinTaskSchedulerOptions RetryPolicy)
    (w : impl) :
  NewWeightedRoundRobinTaskScheduler opts hp = Returns (inl w) -> inv w.
Proof.
  intros Hnew. destruct (New_wf opts w Hnew) as (Hwf & Hst & Hsh & Hg & Hev & Hn & _).
  repeat split; try apply Hwf.
  - by rewrite Hn.
  - unfold pending. rewrite Hn. cbn. lia.
  - unfold lifecycle_inv. rewrite Hst, Hev. by repeat split.
Qed.

Lemma inv_step (o : op) (w : impl) : inv w -> inv (step o w).
Proof.
  intros Hinv. pose proof Hinv as (Hwf & Hp & Hl).
  destruct o as [|awaited|k t|k pick]; cbn [step].
  - destruct (status w) eqn:Hst.
    + rewrite (Start_first w Hst). cbn [snd].
      unfold lifecycle_inv in Hl. rewrite Hst in Hl. destruct Hl as (He & Hf & Hg).
      split; [exact Hwf|]. split; [exact Hp|].
      unfold lifecycle_inv, shutdown_fired in *. cbn.
      rewrite lifecycle_app, He. by repeat split.
    + rewrite Start_repeated by congruence. done.
    + rewrite Start_repeated by congruence. done.
  - destruct (status w) eqn:Hst.
    + rewrite Stop_repeated by congruence. done.
    + unfold lifecycle_inv in Hl. rewrite Hst in Hl. destruct Hl as (He & Hf & Hg).
      rewrite (Stop_first awaited w Hst Hf). cbn [snd].
      split; [exact Hwf|]. split; [exact Hp|].
      unfold lifecycle_inv, shutdown_fired in *. cbn.
      rewrite lifecycle_app, He. by destruct awaited.
    + rewrite Stop_repeated by congruence. done.
  - destruct (Submit_frame k t w)
      as (Hst & _ & Hsh & _ & _ & _ & Hg & _ & _ & _ & evs & Hev & Hle & _).
    apply (inv_transport w); try done.
    + by apply Submit_wf.
    + by apply Submit_notify.
    + by rewrite Hev, lifecycle_app, Hle, app_nil_r.
    + by right.
  - destruct (dispatcher_iteration_frame k pick w)
      as (Hst & Hn & Hsh & Hopt & Hcap & Hcl & Hlen & Hq & results & Hev).
    destruct (dispatcher_iteration_effect k pick w) as (Hg & _ & _).
    apply (inv_transport w); try done.
    + destruct Hwf as (W1 & W2 & W3 & W4 & W5).
      destruct (Forall2_drained_wf _ _ Hq) as [Hlen' Hopen'].
      unfold wf. rewrite Hn, Hsh, Hopt, Hcl, Hlen'. auto.
    + destruct Hp as [P1 P2]. unfold pending_ok, pending in *.
      rewrite Hcap. split; [done|lia].
    + by rewrite Hev, lifecycle_app, lifecycle_reports, app_nil_r.
    + destruct Hg as [Hg| ->]; [by left|by right].
Qed.


(** *** The lifecycle *)

Lemma run_cons (ops : list op) (o : op) (w : impl) :
  run (o :: ops) w = run ops (step o w).
Proof. reflexivity. Qed.

Lemma inv_run (ops : list op) (w : impl) : inv w -> inv (run ops w).
Proof.
  revert w. induction ops as [|o ops IH]; intros w Hinv; [done|].
  rewrite run_cons. apply IH. by apply inv_step.
Qed.

Lemma status_step (o : op) (w : impl) :
  status (step o w) = next_status (status w) o.
Proof.
  destruct o as [|awaited|k t|k pick]; cbn [step].
  - unfold Start. destruct (status w) eqn:Hst; cbn; by fields.
  - unfold Stop. destruct (status w) eqn:Hst; cbn; fields; try done.
    destruct (close _); fields; try done. destruct awaited; by fields.
  - destruct (Submit_frame k t w) as (-> & _). by destruct (status w).
  - destruct (dispatcher_iteration_frame k pick w) as (-> & _).
    by destruct (status w).
Qed.

Lemma status_run (ops : list op) (w : impl) :
  status (run ops w)
    = match status w with
      | DaemonStatusInitialized =>
          if stopped_in ops then DaemonStatusStopped
          else if started_in ops then DaemonStatusStarted
          else DaemonStatusInitialized
      | DaemonStatusStarted =>
          if existsb is_stop ops then DaemonStatusStopped
          else DaemonStatusStarted
      | DaemonStatusStopped => DaemonStatusStopped
      end.
Proof.
  revert w. induction ops as [|o ops IH]; intros w.
  - cbn. by destruct (status w).
  - rewrite run_cons, IH, status_step.
    destruct (status w), o; cbn; try done.
    all: by destruct (existsb is_stop ops).
Qed.

Lemma stopped_in_started (ops : list op) :
  stopped_in ops = true -> started_in ops = true.
Proof. induction ops as [|[| | |] ops IH]; cbn; auto. Qed.

(** C5: along every run of operations from a constructed scheduler, the
    status is Stopped when the run holds a Stop after its first Start,
    Started when it holds a Start and no such Stop, and Initialized
    otherwise; the Processor was started and the dispatcher spawned once
    when the run holds a Start and never otherwise, and the shutdown signal
    has fired and the Processor was stopped once when it holds a Stop after
    its first Start and never otherwise.  Every operation leaves the status
    or moves it one step along Initialized -> Started -> Stopped, and only
    a Start at Initialized and a Stop at Started move it.  A Start while no
    Start was called performs the transition, any later Start returns
    having changed nothing; a Stop after a Start and before any other such
    Stop performs the transition, any other Stop returns having changed
    nothing; neither call panics or parks. *)
Theorem lifecycle_transitions_once
    (opts : WeightedRoundRobinTaskSchedulerOptions RetryPolicy) (w0 : impl)
    (ops : list op) :
  NewWeightedRoundRobinTaskScheduler opts hp = Returns (inl w0) ->
  let w := run ops w0 in
  status w
    = (if stopped_in ops then DaemonStatusStopped
       else if started_in ops then DaemonStatusStarted
       else DaemonStatusInitialized) /\
  lifecycle (events w)
    = (if started_in ops then [EvProcessorStart; EvGoDispatcher] else [])
      ++ (if stopped_in ops then [EvProcessorStop] else []) /\
  shutdown_fired w = stopped_in ops /\
  (dispatcherG w = NotSpawned <-> started_in ops = false) /\
  (forall o,
     status_moves (status w) (status (step o w)) = true /\
     (status (step o w) <> status w ->
      (o = CallStart /\ status w = DaemonStatusInitialized) \/
      (exists awaited, o = CallStop awaited /\ status w = DaemonStatusStarted))) /\
  (started_in ops = false ->
   (Start w).1 = Returns tt /\
   status (Start w).2 = DaemonStatusStarted /\
   dispatcherG (Start w).2 = AtLoopTop false /\
   events (Start w).2
     = events w ++
       [EvProcessorStart; EvGoDispatcher;
        EvLogInfo "Weighted round robin task scheduler started."]) /\
  (started_in ops = true -> Start w = (Returns tt, w)) /\
  (started_in ops = true ->
   stopped_in ops = false ->
   forall awaited,
     (Stop awaited w).1 = Returns tt /\
     status (Stop awaited w).2 = DaemonStatusStopped /\
     shutdown_fired (Stop awaited w).2 = true /\
     lifecycle (events (Stop awaited w).2)
       = [EvProcessorStart; EvGoDispatcher; EvProcessorStop]) /\
  (started_in ops = false \/ stopped_in ops = true ->
   forall awaited, Stop awaited w = (Returns tt, w)).
Proof.
  intros Hnew w.
  pose proof (inv_New opts w0 Hnew) as Hinv0.
  destruct (New_wf opts w0 Hnew) as (_ & Hst0 & _).
  pose proof (inv_run ops w0 Hinv0) as Hinv. fold w in Hinv.
  pose proof (status_run ops w0) as Hst. rewrite Hst0 in Hst. fold w in Hst.
  pose proof (stopped_in_started ops) as Himp.
  destruct Hinv as (Hwf & Hp & Hl). unfold lifecycle_inv in Hl.
  assert (Hstep : forall o,
    status_moves (status w) (status (step o w)) = true /\
    (status (step o w) <> status w ->
     (o = CallStart /\ status w = DaemonStatusInitialized) \/
     (exists awaited, o = CallStop awaited /\ status w = DaemonStatusStarted))).
  { intros o. rewrite status_step.
    destruct (status w), o; cbn; split; try done; eauto. }
  destruct (stopped_in ops) eqn:Hstopped;
    [specialize (Himp eq_refl); rewrite Himp
    |clear Himp; destruct (started_in ops) eqn:Hstarted];
    rewrite Hst in Hl; destruct Hl as (Hev & Hf & Hg).
  - split_and!; try done.
    + intros _. apply Start_repeated. congruence.
    + intros _ awaited. apply Stop_repeated. congruence.
  - split_and!; try done.
    + intros _. apply Start_repeated. congruence.
    + intros _ _ awaited. rewrite (Stop_first awaited w Hst Hf). cbn.
      split_and!; try done.
      rewrite lifecycle_app, Hev. by destruct awaited.
    + by intros [|].
  - split_and!; try done.
    + intros _. by rewrite (Start_first w Hst).
    + intros _ awaited. apply Stop_repeated. congruence.
Qed.

(** *** The notification signal *)

Lemma Start_notifyCh (w : impl) : notifyCh (Start w).2 = notifyCh w.
Proof. unfold Start. destruct (status w); cbn; by fields. Qed.

Lemma Stop_notifyCh (awaited : bool) (w : impl) :
  notifyCh (Stop awaited w).2 = notifyCh w.
Proof.
  unfold Stop. destruct (status w); cbn; fields; try done.
  destruct (close _); fields; try done. destruct awaited; by fields.
Qed.

Lemma pending_ok_step (o : op) (w : impl) :
  pending_ok w -> pending_ok (step o w).
Proof.
  intros Hp. destruct o as [|awaited|k t|k pick]; cbn [step].
  - unfold pending_ok, pending. by rewrite Start_notifyCh.
  - unfold pending_ok, pending. by rewrite Stop_notifyCh.
  - by apply Submit_notify.
  - destruct (dispatcher_iteration_frame k pick w)
      as (_ & _ & _ & _ & Hcap & _ & Hlen & _).
    destruct Hp as [P1 P2]. unfold pending_ok, pending in *.
    rewrite Hcap. split; [done|lia].
Qed.

Lemma pending_ok_run (ops : list op) (w : impl) :
  pending_ok w -> pending_ok (run ops w).
Proof.
  revert w. induction ops as [|o ops IH]; intros w Hp; [done|].
  rewrite run_cons. apply IH. by apply pending_ok_step.
Qed.

Lemma submit_all_pending (subs : list (nat * PriorityTask)) (w w' : impl) :
  pending_ok w ->
  subs <> [] ->
  submit_all subs w = Some w' ->
  pending_ok w' /\ buf (notifyCh w') = [tt].
Proof.
  revert w. induction subs as [|[k t] subs IH]; intros w Hp Hne; [done|].
  cbn [submit_all].
  destruct (Submit_notify k t w Hp) as (Hp1 & Hone & _).
  destruct (Submit k t w) as [[[e|]| |p] w1] eqn:Hsub; try done.
  cbn [fst snd] in *. destruct subs as [|s subs].
  - cbn. intros [= <-]. auto.
  - apply IH; [done|done].
Qed.

(** C9: the notification channel is made with room for one notification,
    and every operation of the system keeps at most one pending, so at most
    one is pending along every run from construction.  The post inside
    [Submit] never parks the caller.  After a [Submit] that returns nil one
    notification is pending, whatever was pending before, so after any
    number of successful [Submit] calls in a row exactly one is pending;
    a [Submit] that does not return nil leaves the notification channel as
    it was. *)
Theorem notification_at_most_one :
  (forall (opts : WeightedRoundRobinTaskSchedulerOptions RetryPolicy)
          (w0 : impl),
     NewWeightedRoundRobinTaskScheduler opts hp = Returns (inl w0) ->
     cap (notifyCh w0) = 1 /\ pending w0 = 0%nat) /\
  (forall (o : op) (w : impl),
     cap (notifyCh w) = 1 -> (pending w <= 1)%nat ->
     cap (notifyCh (step o w)) = 1 /\ (pending (step o w) <= 1)%nat) /\
  (forall (opts : WeightedRoundRobinTaskSchedulerOptions RetryPolicy)
          (w0 : impl) (ops : list op),
     NewWeightedRoundRobinTaskScheduler opts hp = Returns (inl w0) ->
     (pending (run ops w0) <= 1)%nat) /\
  (forall w : impl, (notify w).1 <> Blocks) /\
  (forall (k : nat) (t : PriorityTask) (w : impl),
     cap (notifyCh w) = 1 -> (pending w <= 1)%nat ->
     ((Submit k t w).1 = Returns None -> pending (Submit k t w).2 = 1%nat) /\
     ((Submit k t w).1 <> Returns None ->
      notifyCh (Submit k t w).2 = notifyCh w)) /\
  (forall (subs : list (nat * PriorityTask)) (w w' : impl),
     cap (notifyCh w) = 1 -> (pending w <= 1)%nat ->
     subs <> [] ->
     submit_all subs w = Some w' ->
     pending w' = 1%nat).
Proof.
  split_and!.
  - intros opts w0 Hnew.
    destruct (New_wf opts w0 Hnew) as (_ & _ & _ & _ & _ & Hn & _).
    unfold pending. by rewrite Hn.
  - intros o w Hcap Hlen. by apply (pending_ok_step o w).
  - intros opts w0 ops Hnew.
    destruct (inv_New opts w0 Hnew) as (_ & Hp & _).
    by apply (pending_ok_run ops w0).
  - apply notify_never_blocks.
  - intros k t w Hcap Hlen.
    destruct (Submit_notify k t w (conj Hcap Hlen)) as (_ & Hone & Hsame).
    split; [|done]. intros Hok. unfold pending. by rewrite Hone.
  - intros subs w w' Hcap Hlen Hne Hall.
    destruct (submit_all_pending subs w w' (conj Hcap Hlen) Hne Hall) as [_ Hb].
    unfold pending. by rewrite Hb.
Qed.

(** *** Shutdown *)

Lemma grown_trans (ch1 ch2 ch3 : chan PriorityTask) :
  grown ch1 ch2 -> grown ch2 ch3 -> grown ch1 ch3.
Proof.
  intros (Hc1 & Hd1 & a1 & Ha1) (Hc2 & Hd2 & a2 & Ha2).
  repeat split; [congruence..|].
  exists (a1 ++ a2). by rewrite Ha2, Ha1, app_assoc.
Qed.


Lemma Stop_queues (awaited : bool) (w : impl) :
  taskChs (Stop awaited w).2 = taskChs w /\
  forwarded (events (Stop awaited w).2) = forwarded (events w) /\
  nacked (events (Stop awaited w).2) = nacked (events w) /\
  dispatcherG (Stop awaited w).2 = dispatcherG w.
Proof.
  unfold Stop. destruct (status w); cbn; fields; try done.
  destruct (close _); fields; try done.
  destruct awaited; cbn [negb]; fields; repeat rewrite forwarded_app;
    repeat rewrite nacked_app; cbn; by rewrite !app_nil_r.
Qed.





(** *** An empty queue stays empty for the rest of its slots *)

Lemma pop_attempt_empty (k : nat) (priority : Z) (w w' : impl) (o o' : bool) :
  pop_attempt k priority w o = (QueueEmpty, w', o') ->
  w' = w /\ o' = o /\
  forall k', pop_attempt k' priority w o = (QueueEmpty, w, o).
Proof.
  unfold pop_attempt.
  destruct (index (taskChs w) priority) as [ch|]; [|discriminate].
  destruct (select _ _ k) as [[ | | ]|] eqn:Hsel.
  - destruct (recv ch) as [[task|] ch'].
    + destruct (processor_Submit _ task) as [ps [e|]]; discriminate.
    + discriminate.
  - discriminate.
  - apply select_pop_default in Hsel as [Ha Hb].
    intros [= <- <-]. repeat split.
    intros k'. rewrite Ha, Hb. reflexivity.
  - pose proof (select_default_is_Some
      (when (recv_ready ch) CaseTask
         ++ when (recv_ready (shutdownCh w)) CasePopShutdown)
      CasePopDefault k) as [c Hc].
    congruence.
Qed.

Lemma pop_loop_empty (n : nat) (pick : Z -> nat) (priority i : Z) (w : impl)
    (o : bool) :
  (forall k, pop_attempt k priority w o = (QueueEmpty, w, o)) ->
  pop_loop n pick priority i w o = (Next, w, o).
Proof.
  intros Hq. revert i. induction n as [|n IH]; intros i; cbn; [done|].
  rewrite Hq. apply IH.
Qed.

Lemma pop_loop_short_circuit_eq (n : nat) (pick : Z -> nat) (priority i : Z)
    (w : impl) (o : bool) :
  pop_loop n pick priority i w o
    = pop_loop_short_circuit n pick priority i w o.
Proof.
  revert i w o. induction n as [|n IH]; intros i w o; cbn; [done|].
  destruct (pop_attempt (pick i) priority w o) as [[[ | | |p] w'] o'] eqn:Ha;
    try done.
  apply pop_attempt_empty in Ha as (-> & -> & Hq).
  by apply pop_loop_empty.
Qed.

Lemma priority_loop_short_circuit_eq (n : nat) (pick : Z -> Z -> nat)
    (priority : Z) (w : impl) (o : bool) :
  priority_loop n pick priority w o
    = priority_loop_short_circuit n pick priority w o.
Proof.
  revert priority w o. induction n as [|n IH]; intros priority w o; cbn; [done|].
  unfold drain_priority, drain_priority_short_circuit.
  destruct (index (Weights (options w)) priority) as [weight|]; [|done].
  rewrite pop_loop_short_circuit_eq.
  destruct (pop_loop_short_circuit _ _ _ _ _ _) as [[[ | |p] w'] o']; auto.
Qed.

(** C8: whatever the queues hold, the round of the source, which goes on
    with the remaining pop attempts of a priority after one of them found
    the queue empty, and the round that leaves the priority at the first
    empty result end in the same way, with the same queues, the same
    forwards to the Processor, the same trace and the same
    [outstandingTasks]: they are equal as functions of the oracle and of
    the scheduler. *)
Theorem round_short_circuit_equiv (pick : Z -> Z -> nat) (w : impl) :
  round pick w = round_short_circuit pick w.
Proof. apply priority_loop_short_circuit_eq. Qed.

(** ** Further properties of the code *)

(** *** Construction with a negative queue size *)

(** X1: with a non-empty [Weights] and a negative [QueueSize], construction
    returns neither a scheduler nor an error: making the first queue
    panics. *)
Theorem construction_negative_queue_size_panics
    (opts : WeightedRoundRobinTaskSchedulerOptions RetryPolicy) :
  Weights opts <> [] ->
  QueueSize opts < 0 ->
  NewWeightedRoundRobinTaskScheduler (PS := PS) opts hp
    = Panics MakechanSizeOutOfRange.
Proof.
  intros Hne Hneg.
  destruct (New_cases opts)
    as [[Hw _]|[(_ & _ & Hnew)|[(_ & Hr & _)|(_ & Hr & _)]]];
    try done; destruct Hr; lia.
Qed.

(** *** The results of Submit *)

Lemma select_send_task_ready (a b : bool) (k : nat) :
  select (when a CaseSendTask ++ when b CaseShutdown) None k = Some CaseSendTask ->
  a = true.
Proof.
  destruct a, b; cbn [when app]; rewrite ?select_single; done.
Qed.

Lemma select_shutdown_ready (a b : bool) (k : nat) :
  select (when a CaseSendTask ++ when b CaseShutdown) None k = Some CaseShutdown ->
  b = true.
Proof.
  destruct a, b; cbn [when app]; rewrite ?select_single; done.
Qed.

Lemma select_none_ready (a b : bool) (k : nat) :
  select (when a CaseSendTask ++ when b CaseShutdown) None k = None <->
  a = false /\ b = false.
Proof.
  destruct a, b; cbn [when app]; rewrite ?select_single;
    try (split; [done|by intros [? ?]]).
  split; [|by intros [? ?]]. unfold select. cbn [length].
  intros Hnone. apply lookup_ge_None in Hnone. cbn in Hnone.
  pose proof (Nat.mod_upper_bound k 2 ltac:(lia)). lia.
Qed.

(** X2: an error from [Submit] is one of two.  It is the priority error
    exactly when the priority is at or above [numQueues]; it is
    ErrTaskSchedulerClosed only when the priority is below [numQueues] and
    the shutdown channel is ready, that is, closed.  Whenever [Submit]
    returns an error, no queue and no notification has changed. *)
Theorem Submit_errors (k : nat) (t : PriorityTask) (w : impl) :
  ((Submit k t w).1 = Returns (Some ErrPriorityExceedsLimit) <->
   numQueues w <= Priority t) /\
  (forall e,
     (Submit k t w).1 = Returns (Some e) ->
     (e = ErrPriorityExceedsLimit \/
      e = ErrTaskSchedulerClosed /\ Priority t < numQueues w /\
      recv_ready (shutdownCh w) = true /\
      (buf (shutdownCh w) = [] -> shutdown_fired w = true)) /\
     taskChs (Submit k t w).2 = taskChs w /\
     notifyCh (Submit k t w).2 = notifyCh w).
Proof.
  split.
  - split.
    + Submit_paths k t w; try done. intros _. lia.
    + intros Hhigh. by apply Submit_priority_too_high.
  - intros e. Submit_paths k t w; try done.
    + intros [= <-]. auto.
    + intros [= <-]. apply select_shutdown_ready in Hselect.
      split; [|done]. right. split_and!; [done|lia|done|].
      intros Hbuf. unfold recv_ready, shutdown_fired in *. by rewrite Hbuf in Hselect.
Qed.

(** X3: every call of [Submit] increments the request counter once and
    starts the latency timer once, before anything else, and the timer is
    stopped once on every path on which the call returns or panics; the
    timer is left running only while the call is parked.  [Submit] adds no
    other event to the trace. *)
Theorem Submit_metrics (k : nat) (t : PriorityTask) (w : impl) :
  events (Submit k t w).2
    = events w ++ submit_metrics (parked (Submit k t w).1).
Proof.
  unfold submit_metrics.
  Submit_paths k t w; cbn [parked app]; by rewrite <- ?app_assoc.
Qed.

Lemma notify_open (w : impl) :
  closed (notifyCh w) = false ->
  (notify w).1 = Returns tt /\
  status (notify w).2 = status w /\
  taskChs (notify w).2 = taskChs w /\
  events (notify w).2 = events w.
Proof.
  intros Hopen. unfold notify, send. rewrite Hopen.
  destruct (send_ready (notifyCh w)); cbn [when]; [by rewrite select_single|done].
Qed.

Lemma wf_lookup_open (w : impl) (i : Z) (ch : chan PriorityTask) :
  wf w -> index (taskChs w) i = Some ch -> closed ch = false.
Proof.
  intros (_ & _ & Hopen & _) Hch. apply index_Some in Hch as [_ Hch].
  by apply (Forall_lookup_1 _ _ _ _ Hopen Hch).
Qed.

Lemma Submit_accepted (k : nat) (t : PriorityTask) (w : impl)
    (q : chan PriorityTask) :
  wf w ->
  shutdown_fired w = false ->
  Priority t < numQueues w ->
  index (taskChs w) (Priority t) = Some q ->
  len (buf q) < cap q ->
  exists w2,
    Submit k t w = (Returns None, w2) /\
    taskChs w2
      = store (taskChs w) (Priority t)
          (MkChan (buf q ++ [t]) (cap q) (closed q)).
Proof.
  intros Hwf Hfired Hlt Hq Hroom.
  pose proof (wf_lookup_open w _ q Hwf Hq) as Hopen.
  pose proof Hwf as (_ & _ & _ & Hnopen & Hsbuf).
  unfold Submit. fields.
  replace (Priority t >=? numQueues w) with false by lia.
  rewrite Hq. unfold send_ready, recv_ready, send.
  unfold shutdown_fired in Hfired. rewrite Hopen, Hsbuf, Hfired.
  replace (len (buf q) <? cap q) with true by lia.
  cbn [orb when app]. rewrite select_single.
  match goal with
  | |- context [notify ?w1] =>
      destruct (notify_open w1 Hnopen) as (Hn1 & _ & Hn3 & _);
      destruct (notify w1) as [[[]| |p] w2]; try done
  end.
  eexists. split; [reflexivity|]. fields. exact Hn3.
Qed.

(** X4: on a well-formed scheduler whose shutdown signal has not fired, a
    task whose priority is in range and whose queue has room is accepted
    whatever the runtime picks: [Submit] returns nil, the task is the new
    last element of the queue of its own priority, every other queue is as
    it was, and one notification is pending. *)
Theorem Submit_enqueues_at_back (k : nat) (t : PriorityTask) (w : impl)
    (q : chan PriorityTask) :
  wf w ->
  pending_ok w ->
  shutdown_fired w = false ->
  Priority t < numQueues w ->
  index (taskChs w) (Priority t) = Some q ->
  len (buf q) < cap q ->
  (Submit k t w).1 = Returns None /\
  taskChs (Submit k t w).2 !! Z.to_nat (Priority t)
    = Some (MkChan (buf q ++ [t]) (cap q) (closed q)) /\
  (forall j, j <> Z.to_nat (Priority t) ->
     taskChs (Submit k t w).2 !! j = taskChs w !! j) /\
  length (taskChs (Submit k t w).2) = length (taskChs w) /\
  pending (Submit k t w).2 = 1%nat.
Proof.
  intros Hwf Hp Hfired Hlt Hq Hroom.
  destruct (Submit_accepted k t w q Hwf Hfired Hlt Hq Hroom)
    as (w2 & Hsub & Hchs).
  assert (Hnil : (Submit k t w).1 = Returns None) by by rewrite Hsub.
  destruct (Submit_notify k t w Hp) as (_ & Hone & _).
  specialize (Hone Hnil). rewrite Hsub in *. cbn [fst snd] in *.
  apply index_Some in Hq as [Hnn Hq].
  split_and!; try done.
  - rewrite Hchs. unfold store. apply list_lookup_insert_eq.
    by eapply lookup_lt_Some.
  - intros j Hj. rewrite Hchs. unfold store. by apply list_lookup_insert_ne.
  - rewrite Hchs. unfold store. apply length_insert.
  - unfold pending. by rewrite Hone.
Qed.

(** X5: on a well-formed scheduler, a [Submit] with a priority in range
    parks exactly when the queue of that priority is full and the shutdown
    signal has not fired; a parked [Submit] has enqueued nothing and posted
    nothing. *)
Theorem Submit_parks_iff_full (k : nat) (t : PriorityTask) (w : impl)
    (q : chan PriorityTask) :
  wf w ->
  Priority t < numQueues w ->
  index (taskChs w) (Priority t) = Some q ->
  ((Submit k t w).1 = Blocks <->
   cap q <= len (buf q) /\ shutdown_fired w = false) /\
  ((Submit k t w).1 = Blocks ->
   taskChs (Submit k t w).2 = taskChs w /\
   notifyCh (Submit k t w).2 = notifyCh w).
Proof.
  intros Hwf Hlt Hq.
  pose proof (wf_lookup_open w _ q Hwf Hq) as Hopen.
  pose proof Hwf as (_ & _ & _ & Hnopen & Hsbuf).
  split.
  - split.
    + Submit_paths k t w; try done.
      * unfold send in Hpost. by destruct (closed (notifyCh w)).
      * pose proof (select_default_is_Some
          (when (send_ready (notifyCh w)) CaseSendNotify) CaseNotifyDefault 0)
          as [c Hc]. congruence.
      * unfold send in Hsend. by destruct (closed ch).
      * intros _. injection Hq as ->. apply select_none_ready in Hselect as [Hs Hr].
        unfold send_ready in Hs. rewrite Hopen in Hs. cbn in Hs.
        unfold recv_ready in Hr. rewrite Hsbuf in Hr. unfold shutdown_fired.
        split; [lia|done].
    + intros [Hfull Hfired]. unfold Submit. fields.
      replace (Priority t >=? numQueues w) with false by lia.
      rewrite Hq. unfold send_ready, recv_ready.
      unfold shutdown_fired in Hfired. rewrite Hopen, Hsbuf, Hfired.
      by replace (len (buf q) <? cap q) with false by lia.
  - Submit_paths k t w; try done.
    + unfold send in Hpost. by destruct (closed (notifyCh w)).
    + pose proof (select_default_is_Some
        (when (send_ready (notifyCh w)) CaseSendNotify) CaseNotifyDefault 0)
        as [c Hc]. congruence.
Qed.

(** *** Invariants of every run *)

Lemma New_queues (opts : WeightedRoundRobinTaskSchedulerOptions RetryPolicy)
    (w : impl) :
  NewWeightedRoundRobinTaskScheduler opts hp = Returns (inl w) ->
  taskChs w
    = replicate (length (Weights opts)) (MkChan [] (QueueSize opts) false) /\
  0 <= QueueSize opts /\
  dispatcherWG w = 0.
Proof.
  intros Hnew. by apply New_constructed in Hnew as (-> & _ & ?).
Qed.

Lemma Start_frame (w : impl) :
  taskChs (Start w).2 = taskChs w /\
  options (Start w).2 = options w /\
  forwarded (events (Start w).2) = forwarded (events w) /\
  nacked (events (Start w).2) = nacked (events w).
Proof.
  unfold Start. destruct (status w); cbn [CompareAndSwapInt32 DaemonStatus_eqb];
    fields; try done.
  repeat rewrite forwarded_app. repeat rewrite nacked_app. cbn.
  by rewrite !app_nil_r.
Qed.

Lemma Stop_frame (awaited : bool) (w : impl) :
  taskChs (Stop awaited w).2 = taskChs w /\
  options (Stop awaited w).2 = options w /\
  dispatcherWG (Stop awaited w).2 = dispatcherWG w /\
  dispatcherG (Stop awaited w).2 = dispatcherG w.
Proof.
  unfold Stop. destruct (status w); cbn [CompareAndSwapInt32 DaemonStatus_eqb];
    fields; try done.
  destruct (close _); fields; try done. destruct awaited; cbn [negb]; by fields.
Qed.

Lemma Submit_within_capacity (k : nat) (t : PriorityTask) (w : impl) :
  wf w -> within_capacity w -> within_capacity (Submit k t w).2.
Proof.
  intros Hwf. unfold within_capacity.
  Submit_paths k t w; try done.
  all: intros Hall; unfold store; apply Forall_insert; [done|].
  all: pose proof (wf_lookup_open w _ ch Hwf Hindex) as Hopen.
  all: apply select_send_task_ready in Hselect.
  all: unfold send_ready in Hselect; rewrite Hopen in Hselect; cbn in Hselect.
  all: unfold send in Hsend; rewrite Hopen in Hsend; injection Hsend as <-.
  all: apply index_Some in Hindex as [_ Hindex].
  all: destruct (Forall_lookup_1 _ _ _ _ Hall Hindex) as [Hcap Hlen].
  all: cbn [buf cap]; split; [done|].
  all: unfold len in *; rewrite length_app; cbn [length]; lia.
Qed.

Lemma drained_within_capacity (size : Z) (chs chs' : list (chan PriorityTask)) :
  Forall2 drained chs chs' ->
  Forall (fun ch => cap ch = size /\ len (buf ch) <= cap ch) chs ->
  Forall (fun ch => cap ch = size /\ len (buf ch) <= cap ch) chs'.
Proof.
  intros Hd. induction Hd as [|ch ch' chs chs' (Hcap & _ & gone & Hgone) Hd IH];
    [done|].
  intros Hall. apply Forall_cons in Hall as [[H1 H2] Hall].
  constructor; [|auto]. split; [congruence|].
  rewrite Hcap. unfold len in *. rewrite Hgone, length_app in H2. lia.
Qed.

Lemma within_capacity_step (o : op) (w : impl) :
  inv w -> within_capacity w -> within_capacity (step o w).
Proof.
  intros (Hwf & _ & _) Hcap. destruct o as [|awaited|k t|k pick]; cbn [step].
  - unfold within_capacity. destruct (Start_frame w) as (-> & -> & _). done.
  - unfold within_capacity. destruct (Stop_frame awaited w) as (-> & -> & _). done.
  - by apply Submit_within_capacity.
  - destruct (dispatcher_iteration_frame k pick w)
      as (_ & _ & _ & Hopt & _ & _ & _ & Hq & _).
    unfold within_capacity. rewrite Hopt.
    by apply (drained_within_capacity _ _ _ Hq).
Qed.

(** X6: along every run of operations from construction, every queue has
    the capacity [QueueSize] it was made with and never holds more tasks
    than that, and there is one queue per weight. *)
Theorem queues_within_capacity
    (opts : WeightedRoundRobinTaskSchedulerOptions RetryPolicy) (w0 : impl)
    (ops : list op) :
  NewWeightedRoundRobinTaskScheduler opts hp = Returns (inl w0) ->
  length (taskChs (run ops w0)) = length (Weights opts) /\
  Forall (fun ch => cap ch = QueueSize opts /\
                    0 <= len (buf ch) <= QueueSize opts)
    (taskChs (run ops w0)).
Proof.
  intros Hnew.
  destruct (New_wf opts w0 Hnew) as (_ & _ & _ & _ & _ & _ & Hopts).
  destruct (New_queues opts w0 Hnew) as (Hchs & Hsize & _).
  pose proof (inv_New opts w0 Hnew) as Hinv0.
  assert (Hgen : forall w, inv w -> within_capacity w ->
            options w = opts ->
            inv (run ops w) /\ within_capacity (run ops w) /\
            options (run ops w) = opts).
  { induction ops as [|o ops IH]; intros w Hinv Hcap Hopt; [done|].
    rewrite run_cons. apply IH.
    - by apply inv_step.
    - by apply within_capacity_step.
    - rewrite <- Hopt. destruct o as [|awaited|k t|k pick]; cbn [step].
      + by destruct (Start_frame w) as (_ & -> & _).
      + by destruct (Stop_frame awaited w) as (_ & -> & _).
      + by destruct (Submit_frame k t w) as (_ & _ & _ & _ & -> & _).
      + by destruct (dispatcher_iteration_frame k pick w) as (_ & _ & _ & -> & _). }
  destruct (Hgen w0 Hinv0) as (((Hn & Hw & _) & _) & Hcap & Hopt); [|done|].
  { unfold within_capacity. rewrite Hchs, Hopts.
    apply Forall_replicate. cbn. unfold len. cbn. lia. }
  split.
  - unfold len in *. rewrite Hopt in Hw. lia.
  - unfold within_capacity in Hcap. rewrite Hopt in Hcap.
    eapply Forall_impl; [exact Hcap|]. cbn. intros ch [-> Hlen].
    unfold len in *. lia.
Qed.

Lemma wg_balanced_step (o : op) (w : impl) :
  inv w -> wg_balanced w -> wg_balanced (step o w).
Proof.
  intros (Hwf & _ & Hl) Hwg. unfold wg_balanced in *.
  destruct o as [|awaited|k t|k pick]; cbn [step].
  - destruct (status w) eqn:Hst.
    + unfold lifecycle_inv in Hl. rewrite Hst in Hl. destruct Hl as (_ & _ & Hg).
      rewrite (Start_first w Hst). rewrite Hg in Hwg. cbn. lia.
    + by rewrite Start_repeated by congruence.
    + by rewrite Start_repeated by congruence.
  - by destruct (Stop_frame awaited w) as (_ & _ & -> & ->).
  - by destruct (Submit_frame k t w) as (_ & _ & _ & -> & _ & _ & -> & _).
  - destruct (dispatcher_iteration_effect k pick w)
      as (_ & Hsame & w1 & w2 & Hw1 & Hd & Hw').
    destruct (dispatcherG w) as [|o|] eqn:Hg.
    + rewrite Hsame by (by right). by rewrite Hg.
    + assert (H1 : dispatcherWG w1 = dispatcherWG w /\ dispatcherG w1 = dispatcherG w)
        by (by destruct Hw1 as [->| ->]).
      destruct H1 as [E1 E2].
      destruct Hd as (_ & _ & _ & _ & D1 & _ & D2 & _).
      destruct Hw' as [->|[[o' ->]| ->]]; fields.
      * rewrite D1, D2, E1, E2, Hg. done.
      * congruence.
      * rewrite D1, E1. lia.
    + rewrite Hsame by (by left). by rewrite Hg.
Qed.

(** X7: along every run from construction the wait-group counter is 1 while
    the dispatcher goroutine runs and 0 before it is spawned and after it
    has returned: [Done] undoes the one [Add] of [Start], and the counter
    is never negative. *)
Theorem wait_group_counts_dispatcher
    (opts : WeightedRoundRobinTaskSchedulerOptions RetryPolicy) (w0 : impl)
    (ops : list op) :
  NewWeightedRoundRobinTaskScheduler opts hp = Returns (inl w0) ->
  dispatcherWG (run ops w0)
    = match dispatcherG (run ops w0) with
      | AtLoopTop _ => 1
      | NotSpawned | Returned => 0
      end.
Proof.
  intros Hnew.
  destruct (New_wf opts w0 Hnew) as (_ & _ & _ & Hg & _).
  destruct (New_queues opts w0 Hnew) as (_ & _ & Hwg).
  pose proof (inv_New opts w0 Hnew) as Hinv0.
  assert (Hgen : forall w, inv w -> wg_balanced w -> wg_balanced (run ops w)).
  { induction ops as [|o ops IH]; intros w Hinv Hb; [done|].
    rewrite run_cons. apply IH; [by apply inv_step|by apply wg_balanced_step]. }
  apply (Hgen w0 Hinv0). unfold wg_balanced. by rewrite Hg, Hwg.
Qed.

(** X8: while no [Start] was called, whatever [Submit] and [Stop] calls and
    dispatcher steps were made, the status is Initialized, the dispatcher
    is not spawned, the Processor is as construction made it, and no task
    has been forwarded to it or Nacked: tasks accepted before [Start] wait
    in their queues. *)
Theorem nothing_dispatched_before_Start
    (opts : WeightedRoundRobinTaskSchedulerOptions RetryPolicy) (w0 : impl)
    (ops : list op) :
  NewWeightedRoundRobinTaskScheduler opts hp = Returns (inl w0) ->
  started_in ops = false ->
  status (run ops w0) = DaemonStatusInitialized /\
  dispatcherG (run ops w0) = NotSpawned /\
  processor (run ops w0) = processor w0 /\
  forwarded (events (run ops w0)) = [] /\
  nacked (events (run ops w0)) = [] /\
  Forall2 grown (taskChs w0) (taskChs (run ops w0)).
Proof.
  intros Hnew Hnot.
  destruct (New_wf opts w0 Hnew) as (_ & Hst0 & _ & Hg0 & Hev0 & _).
  pose proof (inv_New opts w0 Hnew) as Hinv0.
  assert (Hgen : forall w,
            inv w -> status w = DaemonStatusInitialized ->
            status (run ops w) = DaemonStatusInitialized /\
            dispatcherG (run ops w) = NotSpawned /\
            processor (run ops w) = processor w /\
            forwarded (events (run ops w)) = forwarded (events w) /\
            nacked (events (run ops w)) = nacked (events w) /\
            Forall2 grown (taskChs w) (taskChs (run ops w))).
  { induction ops as [|o ops IH]; intros w Hinv Hst.
    - destruct Hinv as (_ & _ & Hl). unfold lifecycle_inv in Hl.
      rewrite Hst in Hl. destruct Hl as (_ & _ & Hg).
      change (run [] w) with w. split_and!; try done. apply Forall2_grown_refl.
    - rewrite run_cons.
      assert (Hstep : status (step o w) = DaemonStatusInitialized /\
                      processor (step o w) = processor w /\
                      forwarded (events (step o w)) = forwarded (events w) /\
                      nacked (events (step o w)) = nacked (events w) /\
                      Forall2 grown (taskChs w) (taskChs (step o w)) /\
                      started_in ops = false).
      { destruct o as [|awaited|k t|k pick]; cbn [step started_in] in *;
          [done|..].
        - rewrite Stop_repeated by congruence. cbn [snd].
          split_and!; try done. apply Forall2_grown_refl.
        - destruct (Submit_frame k t w)
            as (-> & _ & _ & _ & _ & -> & _ & _ & _ & Hq & evs & -> & _ & Hf & Hn).
          rewrite forwarded_app, nacked_app, Hf, Hn, !app_nil_r.
          by split_and!.
        - destruct Hinv as (_ & _ & Hl). unfold lifecycle_inv in Hl.
          rewrite Hst in Hl. destruct Hl as (_ & _ & Hg).
          destruct (dispatcher_iteration_effect k pick w) as (_ & Hsame & _).
          rewrite Hsame by (by right).
          split_and!; try done. apply Forall2_grown_refl. }
      destruct Hstep as (S1 & S2 & S3 & S4 & S5 & S6).
      destruct (IH S6 (step o w) (inv_step o w Hinv) S1)
        as (I1 & I2 & I3 & I4 & I5 & I6).
      split_and!; try congruence.
      eapply Forall2_trans; [|exact S5|exact I6]. apply grown_trans. }
  destruct (Hgen w0 Hinv0 Hst0) as (G1 & G2 & G3 & G4 & G5 & G6).
  rewrite Hev0 in G4, G5. by split_and!.
Qed.

(** *** The dispatcher at its idle wait *)

Lemma recv_ready_open {A : Type} (c : chan A) :
  closed c = false -> recv_ready c = nonempty (buf c).
Proof. intros Hopen. unfold recv_ready. by destruct (buf c). Qed.

(** X9: while the shutdown signal has not fired, an iteration of the
    dispatcher parks exactly when the last round dispatched nothing and no
    notification is pending, and parking changes nothing.  Otherwise the
    iteration runs a round and returns to the top of the loop; it consumes
    the pending notification when the last round dispatched nothing, and
    leaves the notification channel alone when it goes on because the last
    round dispatched something. *)
Theorem dispatcher_parks_when_idle (k : nat) (pick : Z -> Z -> nat) (w : impl)
    (o : bool) :
  wf w ->
  shutdown_fired w = false ->
  dispatcherG w = AtLoopTop o ->
  ((dispatcher_iteration k pick w).1 = Blocks <->
   o = false /\ buf (notifyCh w) = []) /\
  ((dispatcher_iteration k pick w).1 = Blocks ->
   (dispatcher_iteration k pick w).2 = w) /\
  ((dispatcher_iteration k pick w).1 <> Blocks ->
   (dispatcher_iteration k pick w).1 = Returns tt /\
   (exists o', dispatcherG (dispatcher_iteration k pick w).2 = AtLoopTop o') /\
   buf (notifyCh (dispatcher_iteration k pick w).2)
     = if o then buf (notifyCh w) else tail (buf (notifyCh w))).
Proof.
  intros Hwf Hfired Hg.
  rewrite (dispatcher_iteration_quiet k pick w o Hwf Hfired Hg).
  destruct Hwf as (_ & _ & _ & Hnopen & _).
  rewrite (recv_ready_open _ Hnopen).
  destruct o; cbn [orb].
  - split_and!; try done.
    + split; [done|by intros [? _]].
    + intros _. fields. eauto.
  - unfold recv. destruct (buf (notifyCh w)) as [|x rest] eqn:Hbuf;
      cbn [nonempty snd].
    + by split_and!.
    + split_and!; try done.
      * split; [done|by intros [_ ?]].
      * intros _. fields. eauto.
Qed.

(** *** Every class is served in a round *)

Lemma elem_of_round_tasks (chs : list (chan PriorityTask)) (weights : list Z)
    (i : nat) (ch : chan PriorityTask) (weight : Z) (t : PriorityTask) :
  chs !! i = Some ch ->
  weights !! i = Some weight ->
  t ∈ oldest (quota weight ch) ch ->
  t ∈ round_tasks chs weights.
Proof.
  intros Hch Hw Ht. unfold round_tasks. apply list_elem_of_In, in_concat.
  exists (oldest (quota weight ch) ch). split; [|by apply list_elem_of_In].
  apply list_elem_of_In, list_elem_of_lookup. exists i.
  rewrite lookup_zip_with, Hch. cbn. by rewrite Hw.
Qed.

(** X10: while the shutdown signal has not fired, a round on a well-formed
    scheduler serves every class that has a task queued and a weight above
    zero, however much is queued in the classes before it and whatever the
    Processor answers: the oldest task of the class is forwarded to the
    Processor in this round, and the class's queue ends the round shorter,
    by at most its weight. *)
Theorem round_serves_every_class (pick : Z -> Z -> nat) (w : impl) (i : nat)
    (ch : chan PriorityTask) (weight : Z) (t : PriorityTask)
    (rest : list PriorityTask) :
  wf w ->
  shutdown_fired w = false ->
  taskChs w !! i = Some ch ->
  Weights (options w) !! i = Some weight ->
  0 < weight ->
  buf ch = t :: rest ->
  exists w' new ch',
    round pick w = (Next, w', true) /\
    events w' = events w ++ new /\
    t ∈ (forwarded new).*1 /\
    taskChs w' !! i = Some ch' /\
    len (buf ch) - weight <= len (buf ch') < len (buf ch).
Proof.
  intros Hwf Hfired Hch Hw Hpos Hbuf.
  assert (Ht : t ∈ round_tasks (taskChs w) (Weights (options w))).
  { apply (elem_of_round_tasks _ _ i ch weight); try done.
    unfold oldest, quota, len. rewrite Hbuf. cbn [length].
    destruct (Z.to_nat (Z.min weight (Z.of_nat (S (length rest))))) as [|n] eqn:Hq;
      [lia|]. cbn. left. }
  rewrite (round_quiet pick w Hwf Hfired).
  eexists. eexists. exists (without_oldest (quota weight ch) ch).
  split_and!.
  - f_equal. destruct (round_tasks _ _); [by apply elem_of_nil in Ht|done].
  - fields. reflexivity.
  - by rewrite forwarded_reports, answers_tasks.
  - fields. by apply round_queues_lookup.
  - unfold without_oldest, quota, len. cbn [buf]. rewrite length_drop. lia.
  - unfold without_oldest, quota, len. cbn [buf]. rewrite length_drop, Hbuf.
    cbn [length]. lia.
Qed.

(** *** No wake-up is lost *)

Lemma Stop_fired (awaited : bool) (w : impl) :
  shutdown_fired w = true -> shutdown_fired (Stop awaited w).2 = true.
Proof.
  unfold shutdown_fired. intros Hf. unfold Stop, close.
  destruct (status w); cbn [CompareAndSwapInt32 DaemonStatus_eqb]; fields;
    try done.
  rewrite Hf. by fields.
Qed.

Lemma fired_step (o : op) (w : impl) :
  shutdown_fired w = true -> shutdown_fired (step o w) = true.
Proof.
  intros Hf. destruct o as [|awaited|k t|k pick]; cbn [step].
  - unfold Start. destruct (status w);
      cbn [CompareAndSwapInt32 DaemonStatus_eqb]; by fields.
  - by apply Stop_fired.
  - destruct (Submit_frame k t w) as (_ & _ & Hsh & _).
    unfold shutdown_fired in *. by rewrite Hsh.
  - destruct (dispatcher_iteration_frame k pick w) as (_ & _ & Hsh & _).
    unfold shutdown_fired in *. by rewrite Hsh.
Qed.

Lemma Submit_unsuccessful_queues (k : nat) (t : PriorityTask) (w : impl) :
  wf w ->
  (Submit k t w).1 <> Returns None ->
  taskChs (Submit k t w).2 = taskChs w.
Proof.
  intros (_ & _ & _ & Hnopen & _).
  Submit_paths k t w; try done.
  - unfold send in Hpost. by rewrite Hnopen in Hpost.
  - unfold send in Hpost. by rewrite Hnopen in Hpost.
  - pose proof (select_default_is_Some
      (when (send_ready (notifyCh w)) CaseSendNotify) CaseNotifyDefault 0)
      as [c Hc]. congruence.
Qed.

Lemma round_tasks_nil_empty (chs : list (chan PriorityTask)) (weights : list Z) :
  length chs = length weights ->
  Forall (fun weight => 0 < weight) weights ->
  round_tasks chs weights = [] ->
  Forall (fun ch => buf ch = []) chs.
Proof.
  revert weights. induction chs as [|ch chs IH]; intros [|weight weights];
    try done.
  intros [= Hlen] Hpos Hnil. apply Forall_cons in Hpos as [Hw Hpos].
  unfold round_tasks in *. cbn [zip_with concat] in Hnil.
  apply app_eq_nil in Hnil as [Hhead Htail].
  constructor; [|by apply (IH weights)].
  unfold oldest, quota, len in Hhead. destruct (buf ch) as [|t rest]; [done|].
  cbn [length] in Hhead.
  destruct (Z.to_nat (Z.min weight (Z.of_nat (S (length rest))))) eqn:Hq;
    [lia|done].
Qed.

Lemma round_queues_empty (chs : list (chan PriorityTask)) (weights : list Z) :
  Forall (fun ch => buf ch = []) chs ->
  Forall (fun ch => buf ch = []) (round_queues chs weights).
Proof.
  intros Hall. revert weights. induction Hall as [|ch chs Hch Hall IH];
    intros [|weight weights]; try done.
  unfold round_queues. cbn [zip_with]. constructor; [|apply IH].
  unfold without_oldest. cbn [buf]. by rewrite Hch, drop_nil.
Qed.

Lemma alert_step (o : op) (w : impl) :
  inv w ->
  Forall (fun weight => 0 < weight) (Weights (options w)) ->
  shutdown_fired (step o w) = false ->
  alert w ->
  alert (step o w).
Proof.
  intros Hinv Hpos Hfired Halert. pose proof Hinv as (Hwf & Hp & Hl).
  unfold alert, all_empty, pending in *.
  destruct o as [|awaited|k t|k pick]; cbn [step] in *.
  - destruct (Start_frame w) as (-> & _). rewrite Start_notifyCh.
    destruct (status w) eqn:Hst.
    + unfold lifecycle_inv in Hl. rewrite Hst in Hl. destruct Hl as (_ & _ & Hg).
      destruct Halert as [?|[?|?]]; [by left|by right; left|congruence].
    + by rewrite Start_repeated by congruence.
    + by rewrite Start_repeated by congruence.
  - destruct (status w) eqn:Hst.
    + by rewrite Stop_repeated by congruence.
    + unfold lifecycle_inv in Hl. rewrite Hst in Hl. destruct Hl as (_ & Hf & _).
      by rewrite (Stop_first awaited w Hst Hf) in Hfired.
    + by rewrite Stop_repeated by congruence.
  - destruct (Submit_notify k t w Hp) as (_ & Hone & Hsame).
    destruct (Submit k t w) as [[[e|]| |p] w1] eqn:Hsub; cbn [fst snd] in *.
    2:{ right. left. by rewrite Hone. }
    all: pose proof (Submit_unsuccessful_queues k t w Hwf) as Hq.
    all: pose proof (Submit_frame k t w)
           as (_ & _ & _ & _ & _ & _ & Hg & _).
    all: rewrite Hsub in Hq, Hg; cbn [fst snd] in Hq, Hg.
    all: rewrite Hq, Hsame, Hg by done; done.
  - destruct (dispatcher_iteration_frame k pick w) as (_ & _ & Hsh & _).
    assert (Hf : shutdown_fired w = false)
      by (unfold shutdown_fired in *; by rewrite <- Hsh).
    destruct (dispatcherG w) as [|o|] eqn:Hg.
    + destruct (dispatcher_iteration_effect k pick w) as (_ & Hsame & _).
      rewrite Hsame by (by right). by rewrite Hg.
    + rewrite (dispatcher_iteration_quiet k pick w o Hwf Hf Hg).
      destruct (o || recv_ready (notifyCh w)); [|cbn [snd]; by rewrite Hg].
      fields.
      destruct (round_tasks (taskChs w) (Weights (options w))) as [|t ts] eqn:Hts;
        [|by right; right].
      left. apply round_queues_empty.
      apply (round_tasks_nil_empty _ (Weights (options w))); try done.
      destruct Hwf as (Hn & Hw & _). unfold len in *. lia.
    + destruct (dispatcher_iteration_effect k pick w) as (_ & Hsame & _).
      rewrite Hsame by (by left). by rewrite Hg.
Qed.

Lemma options_step (o : op) (w : impl) : options (step o w) = options w.
Proof.
  destruct o as [|awaited|k t|k pick]; cbn [step].
  - by destruct (Start_frame w) as (_ & -> & _).
  - by destruct (Stop_frame awaited w) as (_ & -> & _).
  - by destruct (Submit_frame k t w) as (_ & _ & _ & _ & -> & _).
  - by destruct (dispatcher_iteration_frame k pick w) as (_ & _ & _ & -> & _).
Qed.

(** X11: with every weight above zero, along every run from construction
    and as long as the shutdown signal has not fired, a queued task never
    leaves the dispatcher asleep: whenever some queue holds a task, a
    notification is pending or the last round dispatched something, so the
    next iteration of the dispatcher does not park but runs a round. *)
Theorem queued_task_keeps_dispatcher_awake
    (opts : WeightedRoundRobinTaskSchedulerOptions RetryPolicy) (w0 : impl)
    (ops : list op) :
  NewWeightedRoundRobinTaskScheduler opts hp = Returns (inl w0) ->
  Forall (fun weight => 0 < weight) (Weights opts) ->
  let w := run ops w0 in
  shutdown_fired w = false ->
  (all_empty w \/ pending w = 1%nat \/ dispatcherG w = AtLoopTop true) /\
  (forall k pick o,
     dispatcherG w = AtLoopTop o ->
     ~ all_empty w ->
     (dispatcher_iteration k pick w).1 = Returns tt).
Proof.
  intros Hnew Hpos.
  destruct (New_wf opts w0 Hnew) as (_ & _ & _ & _ & _ & _ & Hopts).
  destruct (New_queues opts w0 Hnew) as (Hchs & _).
  pose proof (inv_New opts w0 Hnew) as Hinv0.
  assert (Hgen : forall w1,
            inv w1 -> options w1 = opts ->
            (shutdown_fired w1 = false -> alert w1) ->
            inv (run ops w1) /\
            (shutdown_fired (run ops w1) = false -> alert (run ops w1))).
  { induction ops as [|o ops IH]; intros w1 Hinv Hopt Ha; [done|].
    rewrite run_cons. apply IH.
    - by apply inv_step.
    - by rewrite options_step.
    - intros Hf. apply alert_step; try done; [by rewrite Hopt|].
      apply Ha. destruct (shutdown_fired w1) eqn:Hf1; [|done].
      by rewrite (fired_step o w1 Hf1) in Hf. }
  destruct (Hgen w0 Hinv0 Hopts) as ((Hwf & _ & _) & Halert).
  { intros _. left. unfold all_empty. rewrite Hchs. by apply Forall_replicate. }
  intros w Hfired.
  fold w in Hwf, Halert. specialize (Halert Hfired). split; [exact Halert|].
  intros k pick o Hg Hqueued.
  rewrite (dispatcher_iteration_quiet k pick w o Hwf Hfired Hg).
  destruct Halert as [?|[Hpending|Htrue]]; [done|..].
  - destruct Hwf as (_ & _ & _ & Hnopen & _).
    rewrite (recv_ready_open _ Hnopen). unfold pending in Hpending.
    destruct (buf (notifyCh w)); [done|]. by rewrite orb_true_r.
  - rewrite Hg in Htrue. by injection Htrue as ->.
Qed.

(** *** From Submit to the Processor *)

Lemma round_tasks_cons (ch : chan PriorityTask) (chs : list (chan PriorityTask))
    (weight : Z) (weights : list Z) :
  round_tasks (ch :: chs) (weight :: weights)
    = oldest (quota weight ch) ch ++ round_tasks chs weights.
Proof. reflexivity. Qed.

Lemma round_queues_cons (ch : chan PriorityTask)
    (chs : list (chan PriorityTask)) (weight : Z) (weights : list Z) :
  round_queues (ch :: chs) (weight :: weights)
    = without_oldest (quota weight ch) ch :: round_queues chs weights.
Proof. reflexivity. Qed.

Lemma round_tasks_empty (chs : list (chan PriorityTask)) (weights : list Z) :
  Forall (fun ch => buf ch = []) chs -> round_tasks chs weights = [].
Proof.
  intros Hall. revert weights.
  induction Hall as [|ch chs Hch Hall IH]; intros [|weight weights]; try done.
  rewrite round_tasks_cons, IH. unfold oldest. by rewrite Hch, take_nil.
Qed.

Lemma round_tasks_single (chs : list (chan PriorityTask)) (weights : list Z)
    (i : nat) (c : chan PriorityTask) (weight : Z) :
  Forall (fun ch => buf ch = []) chs ->
  weights !! i = Some weight ->
  (i < length chs)%nat ->
  round_tasks (<[i := c]> chs) weights = oldest (quota weight c) c.
Proof.
  intros Hall. revert i weights.
  induction Hall as [|ch chs Hch Hall IH]; intros i weights Hw Hi;
    [cbn in Hi; lia|].
  destruct weights as [|w0 weights]; [done|].
  destruct i as [|i].
  - change (<[0%nat := c]> (ch :: chs)) with (c :: chs).
    rewrite round_tasks_cons.
    injection Hw as ->. by rewrite round_tasks_empty, app_nil_r.
  - change (<[S i := c]> (ch :: chs)) with (ch :: <[i := c]> chs).
    rewrite round_tasks_cons.
    cbn in Hw, Hi. rewrite (IH i weights Hw) by lia.
    unfold oldest at 1. by rewrite Hch, take_nil.
Qed.

Lemma round_queues_single (chs : list (chan PriorityTask)) (weights : list Z)
    (i : nat) (c : chan PriorityTask) (weight : Z) :
  Forall (fun ch => buf ch = []) chs ->
  weights !! i = Some weight ->
  drop (quota weight c) (buf c) = [] ->
  Forall (fun ch => buf ch = []) (round_queues (<[i := c]> chs) weights).
Proof.
  intros Hall. revert i weights.
  induction Hall as [|ch chs Hch Hall IH]; intros i weights Hw Hdrop; [done|].
  destruct weights as [|w0 weights]; [done|].
  destruct i as [|i].
  - change (<[0%nat := c]> (ch :: chs)) with (c :: chs).
    rewrite round_queues_cons.
    injection Hw as ->. constructor; [done|].
    by apply round_queues_empty.
  - change (<[S i := c]> (ch :: chs)) with (ch :: <[i := c]> chs).
    rewrite round_queues_cons.
    constructor; [|by apply IH].
    unfold without_oldest. cbn [buf]. by rewrite Hch, drop_nil.
Qed.

(** X12: a task accepted while nothing is queued is handed to the Processor
    by the next iteration of the dispatcher, and by nothing else: on a
    well-formed scheduler with empty queues, a running dispatcher and the
    shutdown signal not fired, after a [Submit] of a task whose class has
    a weight above zero and a queue with room, the next dispatcher
    iteration does not park, forwards exactly that task, once, invokes its
    [Nack] exactly when the Processor rejects it, and leaves every queue
    empty again. *)
Theorem submitted_task_reaches_processor (k kw : nat) (pick : Z -> Z -> nat)
    (t : PriorityTask) (w : impl) (o : bool) (q : chan PriorityTask)
    (weight : Z) :
  wf w ->
  pending_ok w ->
  shutdown_fired w = false ->
  dispatcherG w = AtLoopTop o ->
  all_empty w ->
  Priority t < numQueues w ->
  index (taskChs w) (Priority t) = Some q ->
  0 < cap q ->
  index (Weights (options w)) (Priority t) = Some weight ->
  0 < weight ->
  let w1 := (Submit k t w).2 in
  let w2 := (dispatcher_iteration kw pick w1).2 in
  let err := (processor_Submit (processor w) t).2 in
  (Submit k t w).1 = Returns None /\
  (dispatcher_iteration kw pick w1).1 = Returns tt /\
  (exists new,
     events w2 = events w1 ++ new /\
     forwarded new = [(t, err)] /\
     nacked new = match err with Some _ => [t] | None => [] end) /\
  all_empty w2 /\
  dispatcherG w2 = AtLoopTop true.
Proof.
  intros Hwf Hp Hfired Hg Hempty Hlt Hq Hcap Hw Hpos.
  pose proof (Forall_lookup_1 _ _ _ _ Hempty (proj2 (proj1 (index_Some _ _ _) Hq)))
    as Hqbuf. cbn in Hqbuf.
  assert (Hroom : len (buf q) < cap q)
    by (rewrite Hqbuf; unfold len; cbn [length]; lia).
  destruct (Submit_accepted k t w q Hwf Hfired Hlt Hq Hroom)
    as (w1 & Hsub & Hchs).
  pose proof (Submit_wf k t w Hwf) as Hwf1.
  destruct (Submit_notify k t w Hp) as (_ & Hone & _).
  destruct (Submit_frame k t w)
    as (_ & _ & Hsh & _ & Hopt & Hps & Hg1 & _).
  rewrite Hsub in *. cbn [fst snd] in *. specialize (Hone eq_refl).
  assert (Hfired1 : shutdown_fired w1 = false)
    by (unfold shutdown_fired in *; by rewrite Hsh).
  rewrite Hg in Hg1.
  rewrite (dispatcher_iteration_quiet kw pick w1 o Hwf1 Hfired1 Hg1).
  assert (Hready : recv_ready (notifyCh w1) = true)
    by (unfold recv_ready; by rewrite Hone).
  rewrite Hready, orb_true_r. cbn [fst snd].
  apply index_Some in Hq as [Hnn Hq]. apply index_Some in Hw as [_ Hw].
  assert (Hlen : (Z.to_nat (Priority t) < length (taskChs w))%nat)
    by (by eapply lookup_lt_Some).
  set (c := MkChan (buf q ++ [t]) (cap q) (closed q)) in *.
  assert (Hquota : quota weight c = 1%nat).
  { unfold quota, c, len. cbn [buf]. rewrite Hqbuf. cbn. lia. }
  assert (Htasks : round_tasks (taskChs w1) (Weights (options w1)) = [t]).
  { rewrite Hchs, Hopt. unfold store.
    rewrite (round_tasks_single _ _ _ c weight Hempty Hw Hlen).
    rewrite Hquota. unfold oldest, c. cbn [buf]. by rewrite Hqbuf. }
  rewrite Htasks. split_and!; try done.
  - exists (reports (answers (processor w) [t]).2). split.
    + destruct o; fields; by rewrite Hps.
    + rewrite forwarded_reports, nacked_reports. cbn [answers].
      destruct (processor_Submit (processor w) t) as [ps [e|]]; by cbn.
  - unfold all_empty. fields. rewrite Hchs, Hopt. unfold store.
    apply (round_queues_single _ _ _ c weight Hempty Hw).
    rewrite Hquota. unfold c. cbn [buf]. by rewrite Hqbuf.
Qed.

(** *** Consecutive iterations *)

Lemma dispatcher_iteration_wf (k : nat) (pick : Z -> Z -> nat) (w : impl) :
  wf w -> wf (dispatcher_iteration k pick w).2.
Proof.
  intros (W1 & W2 & W3 & W4 & W5).
  destruct (dispatcher_iteration_frame k pick w)
    as (_ & Hn & Hsh & Hopt & _ & Hcl & _ & Hq & _).
  destruct (Forall2_drained_wf _ _ Hq) as [Hlen Hopen].
  unfold wf. rewrite Hn, Hsh, Hopt, Hcl, Hlen. auto.
Qed.

Lemma without_oldest_0 (ch : chan PriorityTask) : without_oldest 0 ch = ch.
Proof. destruct ch. unfold without_oldest. cbn. by rewrite drop_0. Qed.

Lemma round_tasks_nil_queues (chs : list (chan PriorityTask))
    (weights : list Z) :
  length chs = length weights ->
  round_tasks chs weights = [] ->
  round_queues chs weights = chs.
Proof.
  revert weights. induction chs as [|ch chs IH]; intros [|weight weights];
    try done.
  intros [= Hlen]. rewrite round_tasks_cons, round_queues_cons.
  intros Hnil. apply app_eq_nil in Hnil as [Hhead Htail].
  rewrite (IH weights Hlen Htail). f_equal.
  unfold oldest in Hhead. destruct (quota weight ch) as [|n] eqn:Hq.
  - apply without_oldest_0.
  - destruct ch as [b c d]. unfold without_oldest. cbn [buf cap closed] in *.
    destruct b; [by rewrite drop_nil|done].
Qed.

Lemma without_oldest_twice (a b : nat) (ch : chan PriorityTask) :
  without_oldest a (without_oldest b ch) = without_oldest (b + a) ch.
Proof. unfold without_oldest. cbn [buf cap closed]. by rewrite drop_drop. Qed.

Lemma zip_with_round_queues (n : nat) (chs : list (chan PriorityTask))
    (weights : list Z) :
  zip_with (fun ch weight => without_oldest (n * Z.to_nat weight) ch)
    (round_queues chs weights) weights
  = zip_with (fun ch weight => without_oldest (S n * Z.to_nat weight) ch)
      chs weights.
Proof.
  revert weights. induction chs as [|ch chs IH]; intros [|weight weights];
    try done.
  rewrite round_queues_cons. cbn [zip_with]. rewrite IH. f_equal.
  by rewrite <- without_oldest_quota, without_oldest_twice.
Qed.

Lemma zip_with_without_oldest_0 (chs : list (chan PriorityTask))
    (weights : list Z) :
  length chs = length weights ->
  zip_with (fun ch weight => without_oldest (0 * Z.to_nat weight) ch)
    chs weights = chs.
Proof.
  revert weights. induction chs as [|ch chs IH]; intros [|weight weights];
    try done.
  intros [= Hlen]. cbn [zip_with]. rewrite (IH _ Hlen).
  by rewrite Nat.mul_0_l, without_oldest_0.
Qed.

(** The dispatcher is about to run a round, or it is idle with nothing that
    a round would take. *)
Lemma iteration_drains (k : nat) (pick : Z -> Z -> nat) (w : impl) :
  wf w ->
  shutdown_fired w = false ->
  dispatcherG w = AtLoopTop true \/
  dispatcherG w = AtLoopTop false /\
  round_tasks (taskChs w) (Weights (options w)) = [] ->
  let w' := (dispatcher_iteration k pick w).2 in
  taskChs w' = round_queues (taskChs w) (Weights (options w)) /\
  (dispatcherG w' = AtLoopTop true \/
   dispatcherG w' = AtLoopTop false /\
   round_tasks (taskChs w') (Weights (options w)) = []).
Proof.
  intros Hwf Hfired Hg. cbn zeta.
  assert (Hlen : length (taskChs w) = length (Weights (options w)))
    by (destruct Hwf as (Hn & Hw & _); unfold len in *; lia).
  assert (Hidle : round_tasks (taskChs w) (Weights (options w)) = [] ->
            round_tasks (round_queues (taskChs w) (Weights (options w)))
              (Weights (options w)) = [])
    by (intros Hnil; by rewrite (round_tasks_nil_queues _ _ Hlen Hnil)).
  destruct Hg as [Hg|[Hg Hnil]].
  - rewrite (dispatcher_iteration_quiet k pick w true Hwf Hfired Hg).
    cbn [orb]. fields. split; [done|].
    destruct (round_tasks (taskChs w) (Weights (options w))) eqn:Hts;
      [right; split; [done|by apply Hidle]|by left].
  - rewrite (dispatcher_iteration_quiet k pick w false Hwf Hfired Hg).
    cbn [orb]. destruct (recv_ready (notifyCh w)); fields.
    + split; [done|]. right. rewrite Hnil. split; [done|]. by apply Hidle.
    + rewrite (round_tasks_nil_queues _ _ Hlen Hnil). split; [done|].
      right. by split.
Qed.

(** X13: while the shutdown signal has not fired and no task is submitted,
    consecutive iterations of a dispatcher whose last round dispatched
    something drain each class at the rate of its weight: after [n]
    iterations the queue of a class of weight [W] has lost its
    min(n * W, length) oldest tasks and holds the others in their order. *)
Theorem iterations_drain_by_weight (picks : list (nat * (Z -> Z -> nat)))
    (w : impl) :
  wf w ->
  shutdown_fired w = false ->
  dispatcherG w = AtLoopTop true ->
  taskChs (run (dispatcher_iterations picks) w)
    = zip_with
        (fun ch weight =>
           MkChan (drop (length picks * Z.to_nat weight) (buf ch)) (cap ch)
             (closed ch))
        (taskChs w) (Weights (options w)).
Proof.
  intros Hwf Hfired Hg.
  assert (Hgen : forall w1,
            wf w1 -> shutdown_fired w1 = false ->
            dispatcherG w1 = AtLoopTop true \/
            dispatcherG w1 = AtLoopTop false /\
            round_tasks (taskChs w1) (Weights (options w1)) = [] ->
            taskChs (run (dispatcher_iterations picks) w1)
              = zip_with
                  (fun ch weight =>
                     without_oldest (length picks * Z.to_nat weight) ch)
                  (taskChs w1) (Weights (options w1))).
  { clear. induction picks as [|[k pick] picks IH]; intros w1 Hwf Hfired Hg.
    - cbn [length]. rewrite zip_with_without_oldest_0; [done|].
      destruct Hwf as (Hn & Hw & _). unfold len in *. lia.
    - cbn [dispatcher_iterations map fst snd]. rewrite run_cons. cbn [step].
      destruct (iteration_drains k pick w1 Hwf Hfired Hg) as [Hq Hg'].
      destruct (dispatcher_iteration_frame k pick w1)
        as (_ & _ & Hsh & Hopt & _).
      fold (dispatcher_iterations picks). rewrite IH.
      + rewrite Hopt, Hq. cbn [length]. apply zip_with_round_queues.
      + by apply dispatcher_iteration_wf.
      + unfold shutdown_fired in *. by rewrite Hsh.
      + by rewrite Hopt. }
  rewrite (Hgen w Hwf Hfired (or_introl Hg)). reflexivity.
Qed.

(** *** The dispatcher after shutdown *)

Lemma select_two {C : Type} (a b : C) (d : option C) (k : nat) :
  select [a; b] d k = Some a \/ select [a; b] d k = Some b.
Proof.
  unfold select. cbn [length].
  pose proof (Nat.mod_upper_bound k 2 ltac:(lia)).
  destruct (k mod 2)%nat as [|[|n]]; cbn; [by left|by right|lia].
Qed.

Lemma idle_wait_fired (k : nat) (w : impl) :
  recv_ready (shutdownCh w) = true ->
  idle_wait k w = Some (Next, with_notifyCh w (recv (notifyCh w)).2) \/
  idle_wait k w = Some (Return, w).
Proof.
  intros Hsh. unfold idle_wait. rewrite Hsh.
  destruct (recv_ready (notifyCh w)); cbn [when app].
  - destruct (select_two CaseNotified CaseWaitShutdown None k) as [-> | ->];
      auto.
  - rewrite select_single. auto.
Qed.

Lemma pop_attempt_fired (k : nat) (priority : Z) (w : impl) (o : bool)
    (ch : chan PriorityTask) :
  recv_ready (shutdownCh w) = true ->
  index (taskChs w) priority = Some ch ->
  closed ch = false ->
  pop_attempt k priority w o = (ShutdownSeen, w, o) \/
  exists t rest,
    buf ch = t :: rest /\
    (pop_attempt k priority w o).1.1 = Dispatched /\
    taskChs (pop_attempt k priority w o).1.2
      = store (taskChs w) priority (MkChan rest (cap ch) (closed ch)).
Proof.
  intros Hsh Hch Hopen. unfold pop_attempt. rewrite Hch, Hsh.
  unfold recv_ready, recv. rewrite Hopen.
  destruct (buf ch) as [|t rest] eqn:Hbuf; cbn [when app].
  - left. by rewrite select_single.
  - destruct (select_two CaseTask CasePopShutdown (Some CasePopDefault) k)
      as [-> | ->]; [|by left].
    right. exists t, rest. split; [done|]. fields.
    by destruct (processor_Submit (processor w) t) as [ps [e|]].
Qed.

Lemma drained_head_shorter (chs chs' : list (chan PriorityTask)) (i : nat)
    (ch : chan PriorityTask) :
  Forall2 drained chs chs' ->
  chs !! i = Some ch ->
  exists ch', chs' !! i = Some ch' /\ (length (buf ch') <= length (buf ch))%nat.
Proof.
  intros Hd Hch.
  destruct (Forall2_lookup_l _ _ _ _ _ Hd Hch) as (ch' & Hch' & _ & _ & gone & Hg).
  exists ch'. split; [done|]. rewrite Hg, length_app. lia.
Qed.

(** With the shutdown signal fired, a round that runs to its end has taken
    a task from the first class. *)
Lemma round_fired_progress (pick : Z -> Z -> nat) (w : impl)
    (q0 : chan PriorityTask) (weight0 : Z) :
  wf w ->
  shutdown_fired w = true ->
  taskChs w !! 0%nat = Some q0 ->
  Weights (options w) !! 0%nat = Some weight0 ->
  0 < weight0 ->
  (round pick w).1.1 = Next ->
  exists q0',
    taskChs (round pick w).1.2 !! 0%nat = Some q0' /\
    (length (buf q0') < length (buf q0))%nat.
Proof.
  intros Hwf Hfired Hq0 Hw0 Hpos.
  pose proof Hwf as (Hn & _ & Hopen & _ & _).
  assert (Hsh : recv_ready (shutdownCh w) = true).
  { unfold recv_ready, shutdown_fired in *. rewrite Hfired.
    by destruct (buf (shutdownCh w)). }
  assert (Hi0 : index (taskChs w) 0 = Some q0) by (by apply index_Some).
  pose proof (Forall_lookup_1 _ _ _ _ Hopen Hq0) as Hq0open. cbn in Hq0open.
  unfold round.
  destruct (Z.to_nat (numQueues w)) as [|m] eqn:Hm.
  { apply lookup_lt_Some in Hq0. unfold len in *. lia. }
  cbn [priority_loop]. unfold drain_priority.
  replace (index (Weights (options w)) 0) with (Some weight0)
    by (symmetry; by apply index_Some).
  destruct (Z.to_nat weight0) as [|n] eqn:Hn0; [lia|].
  cbn [pop_loop].
  destruct (pop_attempt_fired (pick 0 0) 0 w false q0 Hsh Hi0 Hq0open)
    as [->|(t & rest & Hbuf & Hd & Hchs)]; [done|].
  destruct (pop_attempt (pick 0 0) 0 w false) as [[a w1] o1] eqn:Ha.
  cbn [fst snd] in Hd, Hchs. subst a.
  pose proof (pop_loop_dequeues n (pick 0) 0 (0 + 1) w1 o1) as Hl.
  destruct (pop_loop n (pick 0) 0 (0 + 1) w1 o1) as [[f2 w2] o2].
  cbn [fst snd] in Hl.
  assert (Hhead : taskChs w1 !! 0%nat = Some (MkChan rest (cap q0) (closed q0))).
  { rewrite Hchs. unfold store. apply list_lookup_insert_eq.
    by eapply lookup_lt_Some. }
  destruct f2; try done.
  pose proof (priority_loop_dequeues m pick (0 + 1) w2 o2) as Hp.
  destruct (priority_loop m pick (0 + 1) w2 o2) as [[f3 w3] o3].
  cbn [fst snd] in *. intros ->.
  destruct Hl as (_ & _ & _ & _ & _ & _ & _ & Hl & _).
  destruct Hp as (_ & _ & _ & _ & _ & _ & _ & Hp & _).
  destruct (drained_head_shorter _ _ _ _ Hl Hhead) as (c2 & Hc2 & Hlen2).
  destruct (drained_head_shorter _ _ _ _ Hp Hc2) as (c3 & Hc3 & Hlen3).
  exists c3. split; [done|]. rewrite Hbuf. cbn [buf length] in *. lia.
Qed.

Lemma iteration_fired (k : nat) (pick : Z -> Z -> nat) (w : impl) (o : bool)
    (q0 : chan PriorityTask) (weight0 : Z) :
  wf w ->
  shutdown_fired w = true ->
  dispatcherG w = AtLoopTop o ->
  taskChs w !! 0%nat = Some q0 ->
  Weights (options w) !! 0%nat = Some weight0 ->
  0 < weight0 ->
  let w' := (dispatcher_iteration k pick w).2 in
  dispatcherG w' = Returned \/
  exists o' q0',
    dispatcherG w' = AtLoopTop o' /\
    taskChs w' !! 0%nat = Some q0' /\
    (length (buf q0') < length (buf q0))%nat.
Proof.
  intros Hwf Hfired Hg Hq0 Hw0 Hpos. cbn zeta.
  assert (Hround : forall w1,
            wf w1 -> shutdown_fired w1 = true ->
            taskChs w1 = taskChs w -> options w1 = options w ->
            let r := match round pick w1 with
                     | (Next, w', o') =>
                         (Returns tt, with_dispatcherG w' (AtLoopTop o'))
                     | (Return, w', _) => (Returns tt, dispatcher_return w')
                     | (Panic p, w', _) => (Panics p, dispatcher_return w')
                     end in
            dispatcherG r.2 = Returned \/
            exists o' q0',
              dispatcherG r.2 = AtLoopTop o' /\
              taskChs r.2 !! 0%nat = Some q0' /\
              (length (buf q0') < length (buf q0))%nat).
  { intros w1 Hwf1 Hfired1 Hchs1 Hopt1. cbn zeta.
    rewrite <- Hchs1 in Hq0. rewrite <- Hopt1 in Hw0.
    pose proof (round_fired_progress pick w1 q0 weight0 Hwf1 Hfired1 Hq0 Hw0 Hpos)
      as Hprog.
    destruct (round pick w1) as [[[ | |p] w2] o2]; cbn [fst snd] in *;
      [|by left..].
    destruct (Hprog eq_refl) as (q0' & Hq0' & Hlt).
    right. exists o2, q0'. by fields. }
  unfold dispatcher_iteration. rewrite Hg.
  destruct o; cbn [negb].
  - by apply Hround.
  - assert (Hsh : recv_ready (shutdownCh w) = true).
    { unfold recv_ready, shutdown_fired in *. rewrite Hfired.
      by destruct (buf (shutdownCh w)). }
    destruct (idle_wait_fired k w Hsh) as [-> | ->]; [|by left].
    apply Hround; try done. by apply wf_with_notifyCh.
Qed.

Lemma returned_iterations (picks : list (nat * (Z -> Z -> nat))) (w : impl) :
  dispatcherG w = Returned ->
  run (dispatcher_iterations picks) w = w.
Proof.
  intros Hg. induction picks as [|[k pick] picks IH]; [done|].
  cbn [dispatcher_iterations map fst snd]. rewrite run_cons. cbn [step].
  destruct (dispatcher_iteration_effect k pick w) as (_ & Hsame & _).
  rewrite Hsame by (by left). exact IH.
Qed.

(** X14: once the shutdown signal has fired, and if no further task is
    submitted, the dispatcher returns after at most one iteration more
    than there are tasks queued in the first class, provided that class
    has a weight above zero: whatever the runtime picks when both a task
    and the shutdown signal are ready, every iteration that does not
    return takes at least one task from the first class, and an attempt
    on its empty queue returns. *)
Theorem dispatcher_returns_after_shutdown
    (picks : list (nat * (Z -> Z -> nat))) (w : impl) (o : bool)
    (q0 : chan PriorityTask) (weight0 : Z) :
  wf w ->
  shutdown_fired w = true ->
  dispatcherG w = AtLoopTop o ->
  taskChs w !! 0%nat = Some q0 ->
  Weights (options w) !! 0%nat = Some weight0 ->
  0 < weight0 ->
  (length (buf q0) < length picks)%nat ->
  dispatcherG (run (dispatcher_iterations picks) w) = Returned.
Proof.
  revert w o q0.
  induction picks as [|[k pick] picks IH];
    intros w o q0 Hwf Hfired Hg Hq0 Hw0 Hpos Hlen; [cbn in Hlen; lia|].
  cbn [dispatcher_iterations map fst snd]. rewrite run_cons. cbn [step].
  fold (dispatcher_iterations picks).
  destruct (iteration_fired k pick w o q0 weight0 Hwf Hfired Hg Hq0 Hw0 Hpos)
    as [Hret|(o' & q0' & Hg' & Hq0' & Hlt)].
  - by rewrite returned_iterations.
  - destruct (dispatcher_iteration_frame k pick w) as (_ & _ & Hsh & Hopt & _).
    apply (IH _ o' q0'); try done.
    + by apply dispatcher_iteration_wf.
    + unfold shutdown_fired in *. by rewrite Hsh.
    + by rewrite Hopt.
    + cbn [length] in Hlen. lia.
Qed.

(** *** No task is lost, duplicated or reordered *)

Lemma class_of_app (i : nat) (ts1 ts2 : list PriorityTask) :
  class_of i (ts1 ++ ts2) = class_of i ts1 ++ class_of i ts2.
Proof. apply filter_app. Qed.

Lemma class_of_own (i : nat) (t : PriorityTask) :
  Priority t = Z.of_nat i -> class_of i [t] = [t].
Proof. intros Hp. unfold class_of. by rewrite filter_cons_True. Qed.

Lemma class_of_other (i : nat) (t : PriorityTask) :
  Priority t <> Z.of_nat i -> class_of i [t] = [].
Proof. intros Hp. unfold class_of. by rewrite filter_cons_False. Qed.

Lemma serves_same (w w' : impl) :
  taskChs w' = taskChs w ->
  forwarded_tasks w' = forwarded_tasks w ->
  serves w w'.
Proof.
  intros Hq Hf Hs. unfold sorted_by_class. rewrite Hq, Hf.
  split_and!; try done. exists []. rewrite app_nil_r. split; [done|].
  intros i ch Hch. by exists ch.
Qed.

Lemma serves_trans (w1 w2 w3 : impl) :
  serves w1 w2 -> serves w2 w3 -> serves w1 w3.
Proof.
  intros H12 H23 Hs1.
  destruct (H12 Hs1) as (Hs2 & Hl2 & ts1 & Hf1 & Hq1).
  destruct (H23 Hs2) as (Hs3 & Hl3 & ts2 & Hf2 & Hq2).
  split_and!; [done|congruence|].
  exists (ts1 ++ ts2). split; [by rewrite Hf2, Hf1, app_assoc|].
  intros i ch Hch.
  destruct (Hq1 i ch Hch) as (ch2 & Hch2 & Hb1).
  destruct (Hq2 i ch2 Hch2) as (ch3 & Hch3 & Hb2).
  exists ch3. split; [done|].
  by rewrite Hb1, Hb2, class_of_app, app_assoc.
Qed.

Lemma serves_between (w w1 w2 w' : impl) :
  serves w1 w2 ->
  taskChs w1 = taskChs w -> events w1 = events w ->
  taskChs w' = taskChs w2 -> events w' = events w2 ->
  serves w w'.
Proof.
  intros Hs Hq1 He1 Hq2 He2. unfold serves, sorted_by_class, forwarded_tasks in *.
  by rewrite Hq2, He2, <- Hq1, <- He1.
Qed.

Lemma forwarded_tasks_report (evs : list event) (t : PriorityTask)
    (err : option error) :
  (forwarded (evs ++ report t err)).*1 = (forwarded evs).*1 ++ [t].
Proof.
  rewrite forwarded_app, fmap_app. f_equal. by destruct err.
Qed.

Lemma pop_attempt_serves (k : nat) (priority : Z) (w : impl) (o : bool) :
  serves w (pop_attempt k priority w o).1.2.
Proof.
  unfold pop_attempt.
  destruct (index (taskChs w) priority) as [ch|] eqn:Hch;
    [|by apply serves_same].
  destruct (select _ _ k) as [[ | | ]|]; try by apply serves_same.
  unfold recv. destruct (buf ch) as [|t rest] eqn:Hbuf; [by apply serves_same|].
  apply index_Some in Hch as [Hnn Hch].
  assert (Hlt : (Z.to_nat priority < length (taskChs w))%nat)
    by (by eapply lookup_lt_Some).
  set (chs' := store (taskChs w) priority (MkChan rest (cap ch) (closed ch))).
  assert (Hev : forall w', taskChs w' = chs' ->
            (exists err, events w' = events w ++ report t err) ->
            serves w w').
  { intros w' Hq [err He] Hs.
    pose proof (Hs _ _ Hch) as Hsorted. rewrite Hbuf in Hsorted.
    apply Forall_cons in Hsorted as [Ht Hrest].
    rewrite Z2Nat.id in Ht by done.
    unfold sorted_by_class, forwarded_tasks. rewrite Hq, He. unfold chs', store.
    split_and!.
    - intros i c Hc. destruct (decide (i = Z.to_nat priority)) as [->|Hne].
      + rewrite list_lookup_insert_eq in Hc by done. injection Hc as <-.
        exact Hrest.
      + rewrite list_lookup_insert_ne in Hc by done. by apply Hs.
    - apply length_insert.
    - exists [t]. split; [apply forwarded_tasks_report|].
      intros i c Hc. destruct (decide (i = Z.to_nat priority)) as [->|Hne].
      + rewrite list_lookup_insert_eq by done. eexists. split; [done|].
        cbn [buf]. rewrite class_of_own by (by rewrite Z2Nat.id).
        assert (c = ch) as -> by congruence. by rewrite Hbuf.
      + rewrite list_lookup_insert_ne by done. exists c. split; [done|].
        rewrite class_of_other; [done|]. lia. }
  fields. destruct (processor_Submit (processor w) t) as [ps [e|]]; fields;
    cbn [fst snd]; apply Hev; fields; try done.
  - exists (Some e). unfold report. by rewrite <- !app_assoc.
  - by exists None.
Qed.

Lemma serves_refl (w : impl) : serves w w.
Proof. by apply serves_same. Qed.

Lemma pop_loop_serves (n : nat) (pick : Z -> nat) (priority i : Z)
    (w : impl) (o : bool) :
  serves w (pop_loop n pick priority i w o).1.2.
Proof.
  revert i w o. induction n as [|n IH]; intros i w o; cbn [pop_loop];
    [apply serves_refl|].
  pose proof (pop_attempt_serves (pick i) priority w o) as Ha.
  destruct (pop_attempt (pick i) priority w o) as [[[ | | |p] w'] o']; cbn in Ha;
    try done.
  all: eapply serves_trans; [exact Ha|apply IH].
Qed.

Lemma round_serves (pick : Z -> Z -> nat) (w : impl) :
  serves w (round pick w).1.2.
Proof.
  unfold round. generalize (Z.to_nat (numQueues w)) 0 false.
  intros n. revert w. induction n as [|n IH]; intros w priority o;
    cbn [priority_loop]; [apply serves_refl|].
  unfold drain_priority.
  destruct (index (Weights (options w)) priority) as [weight|];
    [|apply serves_refl].
  pose proof (pop_loop_serves (Z.to_nat weight) (pick priority) priority 0 w o)
    as Hl.
  destruct (pop_loop _ _ _ _ _ _) as [[[ | |p] w'] o']; cbn in Hl; try done.
  eapply serves_trans; [exact Hl|apply IH].
Qed.

Lemma dispatcher_iteration_serves (k : nat) (pick : Z -> Z -> nat) (w : impl) :
  serves w (dispatcher_iteration k pick w).2.
Proof.
  assert (Hround : forall w1,
            taskChs w1 = taskChs w -> events w1 = events w ->
            serves w
              (match round pick w1 with
               | (Next, w', o') =>
                   (Returns tt, with_dispatcherG w' (AtLoopTop o'))
               | (Return, w', _) => (Returns tt, dispatcher_return w')
               | (Panic p, w', _) => (Panics p, dispatcher_return w')
               end).2).
  { intros w1 Hq He. pose proof (round_serves pick w1) as Hs.
    destruct (round pick w1) as [[[ | |p] w2] o2]; cbn [fst snd] in *.
    all: by apply (serves_between w w1 w2). }
  unfold dispatcher_iteration.
  destruct (dispatcherG w) as [|o|]; try apply serves_refl.
  destruct o; cbn [negb]; [by apply Hround|].
  destruct (idle_wait k w) as [[f w1]|] eqn:Hwait; [|apply serves_refl].
  apply idle_wait_effect in Hwait as [[-> ->]|(-> & -> & _)].
  - by apply Hround.
  - by apply serves_same.
Qed.

Lemma Submit_success_queue (k : nat) (t : PriorityTask) (w : impl) :
  wf w ->
  (Submit k t w).1 = Returns None ->
  exists ch,
    index (taskChs w) (Priority t) = Some ch /\
    taskChs (Submit k t w).2
      = store (taskChs w) (Priority t)
          (MkChan (buf ch ++ [t]) (cap ch) (closed ch)).
Proof.
  intros Hwf. Submit_paths k t w; try done.
  all: intros _; exists ch; split; [done|].
  all: pose proof (wf_lookup_open w _ ch Hwf Hindex) as Hopen.
  all: unfold send in Hsend; rewrite Hopen in Hsend; injection Hsend as <-.
  all: by rewrite Hopen.
Qed.

Lemma op_serves_or_accepts (o : op) (w : impl) :
  wf w ->
  sorted_by_class w ->
  sorted_by_class (step o w) /\
  length (taskChs (step o w)) = length (taskChs w) /\
  forall acc,
    (forall i ch, taskChs w !! i = Some ch ->
       class_of i (forwarded_tasks w) ++ buf ch = class_of i acc) ->
    forall i ch, taskChs (step o w) !! i = Some ch ->
      class_of i (forwarded_tasks (step o w)) ++ buf ch
        = class_of i (acc ++ accepted [o] w).
Proof.
  intros Hwf Hs.
  assert (Hserves : forall w',
            serves w w' ->
            sorted_by_class w' /\
            length (taskChs w') = length (taskChs w) /\
            forall acc,
              (forall i ch, taskChs w !! i = Some ch ->
                 class_of i (forwarded_tasks w) ++ buf ch = class_of i acc) ->
              forall i ch, taskChs w' !! i = Some ch ->
                class_of i (forwarded_tasks w') ++ buf ch
                  = class_of i (acc ++ [])).
  { intros w' Hsv. destruct (Hsv Hs) as (Hs' & Hlen & ts & Hf & Hq).
    split_and!; try done. intros acc Hacc i ch' Hch'.
    assert (Hsome : is_Some (taskChs w !! i)).
    { apply lookup_lt_is_Some. rewrite <- Hlen. by eapply lookup_lt_Some. }
    destruct Hsome as [ch Hch]. destruct (Hq i ch Hch) as (ch2 & Hch2 & Hb).
    assert (ch2 = ch') as -> by congruence.
    rewrite app_nil_r, <- (Hacc i ch Hch), Hf, Hb, class_of_app.
    by rewrite app_assoc. }
  destruct o as [|awaited|k t|k pick]; cbn [step accepted].
  - apply Hserves, serves_same.
    + by destruct (Start_frame w) as (-> & _).
    + unfold forwarded_tasks. by destruct (Start_frame w) as (_ & _ & -> & _).
  - apply Hserves, serves_same.
    + by destruct (Stop_queues awaited w) as (-> & _).
    + unfold forwarded_tasks. by destruct (Stop_queues awaited w) as (_ & -> & _).
  - assert (Hfw : forwarded_tasks (Submit k t w).2 = forwarded_tasks w).
    { unfold forwarded_tasks.
      destruct (Submit_frame k t w)
        as (_ & _ & _ & _ & _ & _ & _ & _ & _ & _ & evs & -> & _ & Hf & _).
      by rewrite forwarded_app, Hf, app_nil_r. }
    assert (Hcase : (Submit k t w).1 = Returns None \/
                    (Submit k t w).1 <> Returns None)
      by (destruct (Submit k t w).1 as [[e|]| |p]; auto).
    destruct Hcase as [Hok|Hno].
    + destruct (Submit_success_queue k t w Hwf Hok) as (q & Hq & Hchs).
      unfold sorted_by_class at 1.
      rewrite Hok, Hchs, Hfw, app_nil_r. clear Hchs Hfw Hok.
      apply index_Some in Hq as [Hnn Hq].
      assert (Hlt : (Z.to_nat (Priority t) < length (taskChs w))%nat)
        by (by eapply lookup_lt_Some).
      unfold store. split_and!.
      * intros i c Hc. destruct (decide (i = Z.to_nat (Priority t))) as [->|Hne].
        -- rewrite list_lookup_insert_eq in Hc by done. injection Hc as <-.
           cbn [buf]. apply Forall_app. split; [by apply Hs|].
           constructor; [|done]. by rewrite Z2Nat.id.
        -- rewrite list_lookup_insert_ne in Hc by done. by apply Hs.
      * apply length_insert.
      * intros acc Hacc i c Hc. rewrite class_of_app.
        destruct (decide (i = Z.to_nat (Priority t))) as [->|Hne].
        -- rewrite list_lookup_insert_eq in Hc by done. injection Hc as <-.
           cbn [buf]. rewrite class_of_own by (by rewrite Z2Nat.id).
           by rewrite app_assoc, (Hacc _ _ Hq).
        -- rewrite list_lookup_insert_ne in Hc by done.
           rewrite class_of_other by lia. rewrite app_nil_r. by apply Hacc.
    + replace (match (Submit k t w).1 with Returns None => [t] | _ => [] end
               ++ []) with (@nil PriorityTask)
        by (destruct (Submit k t w).1 as [[e|]| |p]; done).
      apply Hserves, serves_same; [|done].
      by apply Submit_unsuccessful_queues.
  - apply Hserves, dispatcher_iteration_serves.
Qed.

Lemma accepted_app_step (o : op) (ops : list op) (w : impl) :
  accepted (o :: ops) w = accepted [o] w ++ accepted ops (step o w).
Proof. cbn [accepted]. by rewrite app_nil_r. Qed.

Lemma wf_step (o : op) (w : impl) : wf w -> wf (step o w).
Proof.
  intros Hwf. destruct o as [|awaited|k t|k pick]; cbn [step].
  - destruct Hwf as (W1 & W2 & W3 & W4 & W5). unfold wf, Start.
    destruct (status w); cbn [CompareAndSwapInt32 DaemonStatus_eqb]; by fields.
  - destruct Hwf as (W1 & W2 & W3 & W4 & W5). unfold wf, Stop, close.
    destruct (status w); cbn [CompareAndSwapInt32 DaemonStatus_eqb]; fields;
      try done.
    destruct (closed (shutdownCh w)); fields; try done.
    destruct awaited; cbn [negb]; by fields.
  - by apply Submit_wf.
  - by apply dispatcher_iteration_wf.
Qed.

Lemma run_conserves (ops : list op) (w : impl) (acc : list PriorityTask) :
  wf w ->
  sorted_by_class w ->
  (forall i ch, taskChs w !! i = Some ch ->
     class_of i (forwarded_tasks w) ++ buf ch = class_of i acc) ->
  forall i ch,
    taskChs (run ops w) !! i = Some ch ->
    class_of i (forwarded_tasks (run ops w)) ++ buf ch
      = class_of i (acc ++ accepted ops w) /\
    Forall (fun t => Priority t = Z.of_nat i) (buf ch).
Proof.
  revert w acc. induction ops as [|o ops IH]; intros w acc Hwf Hs Hacc i ch Hch.
  - cbn [accepted]. rewrite app_nil_r. split; [by apply Hacc|by apply (Hs i)].
  - rewrite run_cons in *. rewrite accepted_app_step, app_assoc.
    destruct (op_serves_or_accepts o w Hwf Hs) as (Hs' & _ & Hstep).
    apply IH; try done; [by apply wf_step|by apply Hstep].
Qed.

(** X15: along every run from construction, for every class, the tasks of
    the class that were handed to the Processor, in the order they were
    handed over, followed by the tasks now in the queue of the class, are
    the tasks of the class that [Submit] accepted, in the order of the
    accepting calls.  No accepted task is lost, none is forwarded twice,
    and within a class tasks are forwarded in the order they were
    accepted; every queue holds tasks of its own class only. *)
Theorem accepted_tasks_conserved
    (opts : WeightedRoundRobinTaskSchedulerOptions RetryPolicy) (w0 : impl)
    (ops : list op) :
  NewWeightedRoundRobinTaskScheduler opts hp = Returns (inl w0) ->
  forall i ch,
    taskChs (run ops w0) !! i = Some ch ->
    class_of i (forwarded_tasks (run ops w0)) ++ buf ch
      = class_of i (accepted ops w0) /\
    Forall (fun t => Priority t = Z.of_nat i) (buf ch).
Proof.
  intros Hnew.
  destruct (New_wf opts w0 Hnew) as (Hwf0 & _ & _ & _ & Hev0 & _).
  destruct (New_queues opts w0 Hnew) as (Hchs & _).
  intros i ch Hch.
  apply (run_conserves ops w0 [] Hwf0); try done.
  - intros j c Hc. rewrite Hchs in Hc. apply lookup_replicate in Hc as [-> _].
    done.
  - intros j c Hc. rewrite Hchs in Hc. apply lookup_replicate in Hc as [-> _].
    unfold forwarded_tasks. by rewrite Hev0.
Qed.

(** *** Shutdown with tasks queued *)













End Properties.

#[local] Existing Instance runtime_64.

(** ** The properties on the example schedulers *)

(** C2, at a task of priority -1: the priority is outside [0, numQueues),
    yet [Submit] on the started scheduler with three classes does not
    return the priority error: the check lets the task through and the
    index into the queues panics.  No queue changes. *)
Theorem Submit_negative_priority_panics :
  let w := backlog_321 AcceptAll in
  let t := task 99 (-1) in
  ~ (0 <= Priority t < numQueues w) /\
  (Submit 0 t w).1 = Panics IndexOutOfRange /\
  (Submit 0 t w).1 <> Returns (Some ErrPriorityExceedsLimit) /\
  taskChs (Submit 0 t w).2 = taskChs w.
Proof. cbn zeta. split_and!; [cbn; lia|reflexivity|discriminate|reflexivity]. Qed.

(** C4, on the scheduler that construction returns for one class and a
    queue of capacity 1, after [Start] and [Stop]: the shutdown signal has
    fired and the queue has room, so both cases of the [select] in
    [Submit] are ready; when the runtime picks the send, the task is
    enqueued and [Submit] returns nil.  When it picks the shutdown case,
    [Submit] returns ErrTaskSchedulerClosed. *)
Theorem Submit_after_shutdown_may_enqueue :
  NewWeightedRoundRobinTaskScheduler opts_one heap_1GiB = Returns (inl fresh_one) /\
  let w := run [CallStart; CallStop true] fresh_one in
  status w = DaemonStatusStopped /\
  shutdown_fired w = true /\
  (Submit 0 (task 1 0) w).1 = Returns None /\
  taskChs (Submit 0 (task 1 0) w).2 = [open_chan [task 1 0] 1] /\
  (Submit 1 (task 1 0) w).1 = Returns (Some ErrTaskSchedulerClosed) /\
  taskChs (Submit 1 (task 1 0) w).2 = [open_chan [] 1].
Proof. cbn zeta. split_and!; reflexivity. Qed.

(** C7 as stated fails: options with a weight of zero, a negative weight
    and a queue size of zero violate the constraints, and construction
    returns a scheduler for them, not an error. *)
Lemma construction_accepts_unchecked_options :
  ~ (Forall (fun weight => 0 < weight) (Weights opts_unchecked) /\
     0 < QueueSize opts_unchecked) /\
  (exists w : weightedRoundRobinTaskSchedulerImpl unit accept_all,
     NewWeightedRoundRobinTaskScheduler opts_unchecked heap_1GiB = Returns (inl w) /\
     numQueues w = 2) /\
  (forall e,
     NewWeightedRoundRobinTaskScheduler (PS := accept_all) opts_unchecked heap_1GiB
       <> Returns (inr e)).
Proof.
  split_and!.
  - intros [_ Hsize]. cbn in Hsize. lia.
  - eexists. split; reflexivity.
  - intros e. discriminate.
Qed.

Lemma wf_backlog_321 {PS : Type} `{!Processor unit PS} (ps : PS) :
  wf (backlog_321 ps).
Proof. unfold wf. cbn. split_and!; try reflexivity. repeat constructor. Defined.

Lemma round_weighted_quota_witness :
  wf (backlog_321 AcceptAll) /\
  shutdown_fired (backlog_321 AcceptAll) = false /\
  exists w',
    round first_ready (backlog_321 AcceptAll) = (Next, w', true) /\
    taskChs w'
      = [open_chan [task 4 0; task 5 0] 8;
         open_chan [task 8 1; task 9 1; task 10 1] 8;
         open_chan [task 12 2; task 13 2; task 14 2; task 15 2] 8] /\
    events w'
      = [EvProcessorSubmit (task 1 0) None; EvProcessorSubmit (task 2 0) None;
         EvProcessorSubmit (task 3 0) None; EvProcessorSubmit (task 6 1) None;
         EvProcessorSubmit (task 7 1) None; EvProcessorSubmit (task 11 2) None].
Proof.
  split; [apply wf_backlog_321|]. split; [reflexivity|].
  assert (Haccepts : forall (ps : accept_all) (t : PriorityTask),
            (processor_Submit ps t).2 = None) by reflexivity.
  destruct (round_weighted_quota first_ready (backlog_321 AcceptAll)
              (wf_backlog_321 AcceptAll) eq_refl Haccepts)
    as (w' & Hround & Hqueues & Hevents & _).
  exists w'. split; [exact Hround|]. split; [exact Hqueues|exact Hevents].
Defined.

Lemma Submit_checks_upper_bound_only_witness :
  wf (backlog_321 AcceptAll) /\
  (Submit 0 (task 99 (-1)) (backlog_321 AcceptAll)).1 = Panics IndexOutOfRange.
Proof.
  split; [apply wf_backlog_321|].
  apply (Submit_checks_upper_bound_only 0 (task 99 (-1)) (backlog_321 AcceptAll)
           (wf_backlog_321 AcceptAll)).
  cbn. lia.
Defined.

Lemma lifecycle_transitions_once_witness :
  NewWeightedRoundRobinTaskScheduler opts_one heap_1GiB = Returns (inl fresh_one) /\
  status (run lifecycle_calls fresh_one) = DaemonStatusStopped /\
  lifecycle (events (run lifecycle_calls fresh_one))
    = [EvProcessorStart; EvGoDispatcher; EvProcessorStop].
Proof.
  assert (Hnew : NewWeightedRoundRobinTaskScheduler opts_one heap_1GiB
                   = Returns (inl fresh_one)) by reflexivity.
  split; [exact Hnew|].
  destruct (lifecycle_transitions_once heap_1GiB opts_one fresh_one lifecycle_calls Hnew)
    as (Hstatus & Hevents & _).
  split; [exact Hstatus|exact Hevents].
Defined.

Lemma rejected_tasks_nacked_witness :
  wf (backlog_gap RejectAll) /\
  shutdown_fired (backlog_gap RejectAll) = false /\
  exists w' new,
    round first_ready (backlog_gap RejectAll) = (Next, w', true) /\
    events w' = events (backlog_gap RejectAll) ++ new /\
    nacked new = [task 6 1; task 7 1; task 11 2].
Proof.
  assert (Hwf : wf (backlog_gap RejectAll)).
  { unfold wf. cbn. split_and!; try reflexivity. repeat constructor. }
  split; [exact Hwf|]. split; [reflexivity|].
  destruct (rejected_tasks_nacked 0 first_ready (backlog_gap RejectAll))
    as [_ Hquiet].
  destruct (Hquiet Hwf eq_refl)
    as ((w' & new & Hround & _ & Hevents & _ & _ & _ & _ & Hall) & _).
  exists w', new. split; [exact Hround|]. split; [exact Hevents|].
  apply Hall. intros ps t. by eexists.
Defined.

Lemma construction_checks_weights_only_witness :
  Weights opts_unchecked <> [] /\
  queue_size_in_range opts_unchecked /\
  heap_supplies (length (Weights opts_unchecked)) (queue_mem opts_unchecked)
    heap_1GiB /\
  (exists w : weightedRoundRobinTaskSchedulerImpl unit accept_all,
     NewWeightedRoundRobinTaskScheduler opts_unchecked heap_1GiB
       = Returns (inl w) /\
     numQueues w = 2 /\
     taskChs w = [open_chan [] 0; open_chan [] 0]) /\
  NewWeightedRoundRobinTaskScheduler (PS := accept_all) opts_beyond_maxAlloc
    heap_1GiB = Panics MakechanSizeOutOfRange /\
  NewWeightedRoundRobinTaskScheduler (PS := accept_all) opts_beyond_heap
    heap_1GiB = Panics OutOfMemory.
Proof.
  assert (Hne : Weights opts_unchecked <> []) by discriminate.
  assert (Hin : queue_size_in_range opts_unchecked) by (by vm_compute).
  assert (Hheap : heap_supplies (length (Weights opts_unchecked))
                    (queue_mem opts_unchecked) heap_1GiB) by (by left).
  split; [exact Hne|]. split; [exact Hin|]. split; [exact Hheap|].
  split_and!.
  - destruct (construction_checks_weights_only (PS := accept_all) heap_1GiB
                opts_unchecked) as (_ & _ & Hok & _).
    destruct (Hok Hne Hin Hheap) as (w & Hnew & _ & Hn & Hchs & _).
    exists w. split; [exact Hnew|]. split; [exact Hn|exact Hchs].
  - destruct (construction_checks_weights_only (PS := accept_all) heap_1GiB
                opts_beyond_maxAlloc) as (_ & _ & _ & _ & Hrange & _).
    apply Hrange; [discriminate|].
    intros (_ & _ & Hmax). by vm_compute in Hmax.
  - destruct (construction_checks_weights_only (PS := accept_all) heap_1GiB
                opts_beyond_heap) as (_ & _ & _ & _ & _ & Hoom).
    apply Hoom; [discriminate|by vm_compute|].
    intros [Hzero|[h' Hsome]]; [by vm_compute in Hzero|by vm_compute in Hsome].
Defined.

Lemma notification_at_most_one_witness :
  NewWeightedRoundRobinTaskScheduler opts_one heap_1GiB = Returns (inl fresh_one) /\
  (pending (run stop_with_backlog fresh_one) <= 1)%nat.
Proof.
  assert (Hnew : NewWeightedRoundRobinTaskScheduler opts_one heap_1GiB
                   = Returns (inl fresh_one)) by reflexivity.
  split; [exact Hnew|].
  destruct (notification_at_most_one (RetryPolicy := unit) (PS := accept_all)
              heap_1GiB)
    as (_ & _ & Hrun & _).
  exact (Hrun opts_one fresh_one stop_with_backlog Hnew).
Defined.


(** ** The further properties on the example schedulers *)

Lemma wf_one (w : weightedRoundRobinTaskSchedulerImpl unit accept_all) :
  numQueues w = 1 ->
  (exists l, taskChs w = [open_chan l 1]) ->
  options w = opts_one ->
  closed (notifyCh w) = false ->
  buf (shutdownCh w) = [] ->
  wf w.
Proof.
  intros Hn [l Hq] Ho Hc Hb. unfold wf. rewrite Hn, Hq, Ho.
  split_and!; try done. by repeat constructor.
Defined.

Lemma construction_negative_queue_size_panics_witness :
  Weights opts_negative_size <> [] /\
  QueueSize opts_negative_size < 0 /\
  NewWeightedRoundRobinTaskScheduler (PS := accept_all) opts_negative_size heap_1GiB
    = Panics MakechanSizeOutOfRange.
Proof.
  assert (H1 : Weights opts_negative_size <> []) by discriminate.
  assert (H2 : QueueSize opts_negative_size < 0) by reflexivity.
  split; [exact H1|]. split; [exact H2|].
  exact (construction_negative_queue_size_panics heap_1GiB opts_negative_size H1 H2).
Defined.

Lemma Submit_errors_witness :
  (Submit 1 (task 2 0) stopped_one).1 = Returns (Some ErrTaskSchedulerClosed) /\
  taskChs (Submit 1 (task 2 0) stopped_one).2 = taskChs stopped_one.
Proof.
  assert (H : (Submit 1 (task 2 0) stopped_one).1
              = Returns (Some ErrTaskSchedulerClosed)) by reflexivity.
  split; [exact H|].
  destruct (Submit_errors 1 (task 2 0) stopped_one) as [_ Herr].
  destruct (Herr _ H) as (_ & Hq & _). exact Hq.
Defined.

Lemma Submit_enqueues_at_back_witness :
  wf idle_one /\
  (Submit 0 (task 1 0) idle_one).1 = Returns None /\
  taskChs (Submit 0 (task 1 0) idle_one).2 !! 0%nat
    = Some (open_chan [task 1 0] 1) /\
  pending (Submit 0 (task 1 0) idle_one).2 = 1%nat.
Proof.
  assert (Hwf : wf idle_one) by (apply wf_one; try done; by eexists).
  assert (Hp : pending_ok idle_one) by (split; [done|unfold pending; cbn; lia]).
  split; [exact Hwf|].
  destruct (Submit_enqueues_at_back 0 (task 1 0) idle_one (open_chan [] 1)
              Hwf Hp eq_refl) as (H1 & H2 & _ & _ & H3);
    [reflexivity|reflexivity|reflexivity|].
  split; [exact H1|]. split; [exact H2|exact H3].
Defined.

Lemma Submit_parks_iff_full_witness :
  wf full_one /\
  (Submit 0 (task 2 0) full_one).1 = Blocks /\
  taskChs (Submit 0 (task 2 0) full_one).2 = taskChs full_one.
Proof.
  assert (Hwf : wf full_one) by (apply wf_one; try done; by eexists).
  split; [exact Hwf|].
  destruct (Submit_parks_iff_full 0 (task 2 0) full_one
              (open_chan [task 1 0] 1) Hwf) as [[_ Hparks] Hsame];
    [reflexivity|reflexivity|].
  assert (Hb : (Submit 0 (task 2 0) full_one).1 = Blocks)
    by (apply Hparks; split; [discriminate|reflexivity]).
  split; [exact Hb|]. exact (proj1 (Hsame Hb)).
Defined.

Lemma queues_within_capacity_witness :
  NewWeightedRoundRobinTaskScheduler opts_one heap_1GiB = Returns (inl fresh_one) /\
  length (taskChs (run submit_dispatch_submit fresh_one)) = 1%nat /\
  Forall (fun ch => cap ch = 1 /\ 0 <= len (buf ch) <= 1)
    (taskChs (run submit_dispatch_submit fresh_one)).
Proof.
  assert (Hnew : NewWeightedRoundRobinTaskScheduler opts_one heap_1GiB
                   = Returns (inl fresh_one)) by reflexivity.
  split; [exact Hnew|].
  exact (queues_within_capacity heap_1GiB opts_one fresh_one submit_dispatch_submit Hnew).
Defined.

Lemma wait_group_counts_dispatcher_witness :
  NewWeightedRoundRobinTaskScheduler opts_one heap_1GiB = Returns (inl fresh_one) /\
  dispatcherG (run stop_with_backlog fresh_one) = Returned /\
  dispatcherWG (run stop_with_backlog fresh_one) = 0.
Proof.
  assert (Hnew : NewWeightedRoundRobinTaskScheduler opts_one heap_1GiB
                   = Returns (inl fresh_one)) by reflexivity.
  assert (Hg : dispatcherG (run stop_with_backlog fresh_one) = Returned)
    by (vm_compute; reflexivity).
  split; [exact Hnew|]. split; [exact Hg|].
  rewrite (wait_group_counts_dispatcher heap_1GiB opts_one fresh_one stop_with_backlog Hnew).
  by rewrite Hg.
Defined.

Lemma nothing_dispatched_before_Start_witness :
  NewWeightedRoundRobinTaskScheduler opts_one heap_1GiB = Returns (inl fresh_one) /\
  started_in calls_before_start = false /\
  status (run calls_before_start fresh_one) = DaemonStatusInitialized /\
  forwarded (events (run calls_before_start fresh_one)) = [] /\
  taskChs (run calls_before_start fresh_one) = [open_chan [task 1 0] 1].
Proof.
  assert (Hnew : NewWeightedRoundRobinTaskScheduler opts_one heap_1GiB
                   = Returns (inl fresh_one)) by reflexivity.
  split; [exact Hnew|]. split; [reflexivity|].
  destruct (nothing_dispatched_before_Start heap_1GiB opts_one fresh_one
              calls_before_start Hnew eq_refl) as (H1 & _ & _ & H2 & _).
  split; [exact H1|]. split; [exact H2|]. vm_compute. reflexivity.
Defined.

Lemma dispatcher_parks_when_idle_witness :
  wf idle_one /\
  shutdown_fired idle_one = false /\
  (dispatcher_iteration 0 first_ready idle_one).1 = Blocks /\
  (dispatcher_iteration 0 first_ready idle_one).2 = idle_one.
Proof.
  assert (Hwf : wf idle_one) by (apply wf_one; try done; by eexists).
  split; [exact Hwf|]. split; [reflexivity|].
  destruct (dispatcher_parks_when_idle 0 first_ready idle_one false Hwf
              eq_refl eq_refl) as ([_ Hparks] & Hsame & _).
  assert (Hb : (dispatcher_iteration 0 first_ready idle_one).1 = Blocks)
    by (apply Hparks; by split).
  split; [exact Hb|exact (Hsame Hb)].
Defined.

Lemma round_serves_every_class_witness :
  wf (backlog_321 RejectAll) /\
  shutdown_fired (backlog_321 RejectAll) = false /\
  exists w' new ch',
    round first_ready (backlog_321 RejectAll) = (Next, w', true) /\
    events w' = events (backlog_321 RejectAll) ++ new /\
    task 11 2 ∈ (forwarded new).*1 /\
    taskChs w' !! 2%nat = Some ch' /\
    5 - 1 <= len (buf ch') < 5.
Proof.
  split; [apply wf_backlog_321|]. split; [reflexivity|].
  exact (round_serves_every_class first_ready (backlog_321 RejectAll) 2
           (open_chan [task 11 2; task 12 2; task 13 2; task 14 2; task 15 2] 8)
           1 (task 11 2) [task 12 2; task 13 2; task 14 2; task 15 2]
           (wf_backlog_321 RejectAll) eq_refl eq_refl eq_refl
           eq_refl eq_refl).
Defined.

Lemma queued_task_keeps_dispatcher_awake_witness :
  NewWeightedRoundRobinTaskScheduler opts_one heap_1GiB = Returns (inl fresh_one) /\
  Forall (fun weight => 0 < weight) (Weights opts_one) /\
  shutdown_fired (run [CallStart; CallSubmit 0 (task 1 0)] fresh_one) = false /\
  forall k pick,
    (dispatcher_iteration k pick
       (run [CallStart; CallSubmit 0 (task 1 0)] fresh_one)).1 = Returns tt.
Proof.
  assert (Hnew : NewWeightedRoundRobinTaskScheduler opts_one heap_1GiB
                   = Returns (inl fresh_one)) by reflexivity.
  assert (Hpos : Forall (fun weight => 0 < weight) (Weights opts_one))
    by (repeat constructor).
  split; [exact Hnew|]. split; [exact Hpos|]. split; [reflexivity|].
  intros k pick.
  destruct (queued_task_keeps_dispatcher_awake heap_1GiB opts_one fresh_one
              [CallStart; CallSubmit 0 (task 1 0)] Hnew Hpos eq_refl)
    as [_ Hawake].
  apply (Hawake k pick false); [reflexivity|].
  intros Hempty. apply Forall_cons in Hempty as [Hhead _]. discriminate.
Defined.

Lemma submitted_task_reaches_processor_witness :
  wf idle_one /\
  all_empty idle_one /\
  (Submit 0 (task 1 0) idle_one).1 = Returns None /\
  (dispatcher_iteration 0 first_ready (Submit 0 (task 1 0) idle_one).2).1
    = Returns tt /\
  all_empty
    (dispatcher_iteration 0 first_ready (Submit 0 (task 1 0) idle_one).2).2.
Proof.
  assert (Hwf : wf idle_one) by (apply wf_one; try done; by eexists).
  assert (Hp : pending_ok idle_one) by (split; [done|unfold pending; cbn; lia]).
  assert (Hempty : all_empty idle_one) by (repeat constructor).
  split; [exact Hwf|]. split; [exact Hempty|].
  destruct (submitted_task_reaches_processor 0 0 first_ready (task 1 0)
              idle_one false (open_chan [] 1) 1 Hwf Hp eq_refl eq_refl Hempty)
    as (H1 & H2 & _ & H3 & _);
    [reflexivity|reflexivity|reflexivity|reflexivity|reflexivity|].
  split; [exact H1|]. split; [exact H2|exact H3].
Defined.

Lemma iterations_drain_by_weight_witness :
  wf backlog_busy /\
  shutdown_fired backlog_busy = false /\
  taskChs (run (dispatcher_iterations two_iterations) backlog_busy)
    = [open_chan [] 8;
       open_chan [task 10 1] 8;
       open_chan [task 13 2; task 14 2; task 15 2] 8].
Proof.
  assert (Hwf : wf backlog_busy).
  { unfold wf. cbn. split_and!; try reflexivity. repeat constructor. }
  split; [exact Hwf|]. split; [reflexivity|].
  exact (iterations_drain_by_weight two_iterations backlog_busy Hwf eq_refl
           eq_refl).
Defined.

Lemma dispatcher_returns_after_shutdown_witness :
  wf stopped_one /\
  shutdown_fired stopped_one = true /\
  dispatcherG (run (dispatcher_iterations two_iterations) stopped_one)
    = Returned.
Proof.
  assert (Hwf : wf stopped_one) by (apply wf_one; try done; by eexists).
  split; [exact Hwf|]. split; [reflexivity|].
  apply (dispatcher_returns_after_shutdown two_iterations stopped_one false
           (open_chan [task 1 0] 1) 1 Hwf); try reflexivity. cbn. lia.
Defined.

Lemma accepted_tasks_conserved_witness :
  NewWeightedRoundRobinTaskScheduler opts_one heap_1GiB = Returns (inl fresh_one) /\
  taskChs (run submit_dispatch_submit fresh_one) !! 0%nat
    = Some (open_chan [task 2 0] 1) /\
  class_of 0 (forwarded_tasks (run submit_dispatch_submit fresh_one))
    ++ [task 2 0]
    = class_of 0 (accepted submit_dispatch_submit fresh_one).
Proof.
  assert (Hnew : NewWeightedRoundRobinTaskScheduler opts_one heap_1GiB
                   = Returns (inl fresh_one)) by reflexivity.
  assert (Hq : taskChs (run submit_dispatch_submit fresh_one) !! 0%nat
               = Some (open_chan [task 2 0] 1)) by (vm_compute; reflexivity).
  split; [exact Hnew|]. split; [exact Hq|].
  exact (proj1 (accepted_tasks_conserved heap_1GiB opts_one fresh_one
                  submit_dispatch_submit Hnew 0%nat _ Hq)).
Defined.
